(** * Neon Cycle: the simulation and decision engine of the light-cycle arena

    A shallow embedding of the game logic (movement, collision, the
    flood-fill AI, the walkers) and of the match engine of the Game
    component (turn queue, tick, terminal check), with the properties of
    the specification stated over it.

    Conventions of the embedding:
    - grid coordinates, sizes, ids, timers and scores are JavaScript numbers
      that only ever hold integers here; they are [Z], which
      agrees with the arithmetic of the code as long as the numbers stay
      within 2^53 in absolute value, far beyond the cells of an arena;
    - a [Set<string>] of keys [`${x},${y}`] is a [gset (Z * Z)]: the key of
      an integer coordinate determines the pair and conversely;
    - the object [inputQueueRef.current], indexed by player id, is a
      [gmap Z (list Direction)]; reading a property of a missing entry
      throws, which is the [None] of the functions that touch the queues;
    - [Math.random] is an oracle ([Entropy]) giving one independent natural
      number to each call site of a tick; every outcome of the code is the
      outcome of the model under some oracle;
    - the loops of [initGame] that place the walkers read their random
      numbers from a list of draws, and give [None] when the list ends before
      they do; the test of [loop] on the elapsed time is a boolean that comes
      with the frame; the buttons of the overlay act where the component
      renders them;
    - sounds, drawing and the React scheduling are left out. *)

From Equations Require Import Equations.
From stdpp Require Import gmap strings list fin_maps.
From Stdlib Require Import ZArith Lia.

Local Open Scope Z_scope.
#[local] Set Warnings "-clear-no-such-hyp".

(** ** Data model (types.ts) *)

Inductive Direction : Set := UP | RIGHT | DOWN | LEFT.

#[global] Instance Direction_eq_dec : EqDecision Direction.
Proof. solve_decision. Defined.

(** The numeric value of an enum member. *)
Definition dirToZ (d : Direction) : Z :=
  match d with UP => 0 | RIGHT => 1 | DOWN => 2 | LEFT => 3 end.

(** The enum member of a number in 0..3 (every direction the code computes
    is a remainder modulo 4 of a non-negative number). *)
Definition dirOfZ (n : Z) : Direction :=
  if n =? 0 then UP else if n =? 1 then RIGHT else if n =? 2 then DOWN else LEFT.

Module Coordinate.
Record t : Set := mk { x : Z; y : Z }.
End Coordinate.

#[global] Instance Coordinate_eq_dec : EqDecision Coordinate.t.
Proof. solve_decision. Defined.

Module Player.
Record t : Set := mk {
  id : Z;
  name : string;
  color : string;
  head : Coordinate.t;
  trail : list Coordinate.t;
  direction : Direction;
  isDead : bool;
  score : Z
}.
End Player.

Module Walker.
Record t : Set := mk { id : Z; position : Coordinate.t; moveTimer : Z }.
End Walker.

Inductive GameMode : Set := PVP | PVE.

#[global] Instance GameMode_eq_dec : EqDecision GameMode.
Proof. solve_decision. Defined.

Inductive GameStatus : Set := MENU | PLAYING | PAUSED | GAME_OVER.

Module GameConfig.
Record t : Set := mk { gridWidth : Z; gridHeight : Z; speed : Z }.
End GameConfig.

(** ** Constants (constants.ts) *)

Definition DEFAULT_GRID_WIDTH : Z := 60.
Definition DEFAULT_GRID_HEIGHT : Z := 40.
Definition INITIAL_CONFIG : GameConfig.t :=
  GameConfig.mk DEFAULT_GRID_WIDTH DEFAULT_GRID_HEIGHT 80.
Definition P1_COLOR : string := "#00f3ff".
Definition P2_COLOR : string := "#ff003c".
Definition P1_START_POS : Coordinate.t := Coordinate.mk 10 20.
Definition P2_START_POS : Coordinate.t := Coordinate.mk 50 20.
Definition WALKER_COUNT : Z := 5.
Definition WALKER_SPEED_MOD : Z := 2.

(** ** Game logic (utils/gameLogic) *)

Definition getNextPosition (head : Coordinate.t) (direction : Direction)
  : Coordinate.t :=
  match direction with
  | UP => Coordinate.mk (Coordinate.x head) (Coordinate.y head - 1)
  | DOWN => Coordinate.mk (Coordinate.x head) (Coordinate.y head + 1)
  | LEFT => Coordinate.mk (Coordinate.x head - 1) (Coordinate.y head)
  | RIGHT => Coordinate.mk (Coordinate.x head + 1) (Coordinate.y head)
  end.

(** [pos.x < 0 || pos.x >= width || pos.y < 0 || pos.y >= height] *)
Definition outOfBounds (pos : Coordinate.t) (width height : Z) : bool :=
  (Coordinate.x pos <? 0) || (Coordinate.x pos >=? width)
  || (Coordinate.y pos <? 0) || (Coordinate.y pos >=? height).

(** [pos.x === segment.x && pos.y === segment.y] *)
Definition sameCell (a b : Coordinate.t) : bool :=
  (Coordinate.x a =? Coordinate.x b) && (Coordinate.y a =? Coordinate.y b).

(** The two nested loops return [true] at the first matching segment. *)
Definition checkCollision (pos : Coordinate.t) (width height : Z)
    (players : list Player.t) : bool :=
  if outOfBounds pos width height then true
  else existsb (fun player => existsb (sameCell pos) (Player.trail player))
         players.

(** The key [`${c.x},${c.y}`] of a cell in a string set. *)
Definition posKey (c : Coordinate.t) : Z * Z :=
  (Coordinate.x c, Coordinate.y c).

Definition neighbors (curr : Coordinate.t) : list Coordinate.t :=
  [ Coordinate.mk (Coordinate.x curr + 1) (Coordinate.y curr);
    Coordinate.mk (Coordinate.x curr - 1) (Coordinate.y curr);
    Coordinate.mk (Coordinate.x curr) (Coordinate.y curr + 1);
    Coordinate.mk (Coordinate.x curr) (Coordinate.y curr - 1) ].

(** Body of [for (const n of neighbors)] in the flood fill: the state is the
    queue and the visited set. *)
Definition visitNeighbor (width height : Z) (obstacles : gset (Z * Z))
    (st : list Coordinate.t * gset (Z * Z)) (n : Coordinate.t)
  : list Coordinate.t * gset (Z * Z) :=
  let key := posKey n in
  if (Coordinate.x n >=? 0) && (Coordinate.x n <? width)
     && (Coordinate.y n >=? 0) && (Coordinate.y n <? height)
     && negb (bool_decide (key ∈ obstacles))
     && negb (bool_decide (key ∈ st.2))
  then (st.1 ++ [n], {[key]} ∪ st.2)
  else st.

(** The [while (queue.length > 0 && steps < depth * 5)] loop.  Each turn
    increments [steps], so [depth * 5 - steps] decreases: the loop is a total
    function. *)
Equations? floodFillLoop (width height : Z) (obstacles : gset (Z * Z))
    (depth : Z) (queue : list Coordinate.t) (visited : gset (Z * Z))
    (count steps : Z) : Z by wf (Z.to_nat (depth * 5 - steps)) lt :=
  floodFillLoop width height obstacles depth [] visited count steps := count;
  floodFillLoop width height obstacles depth (curr :: rest) visited count steps
    with decide (steps < depth * 5) := {
    | left _ =>
        floodFillLoop width height obstacles depth
          (fold_left (visitNeighbor width height obstacles) (neighbors curr)
             (rest, visited)).1
          (fold_left (visitNeighbor width height obstacles) (neighbors curr)
             (rest, visited)).2
          (count + 1) (steps + 1)
    | right _ => count }.
Proof. lia. Qed.

Definition floodFillCount (start : Coordinate.t) (width height : Z)
    (obstacles : gset (Z * Z)) (depth : Z) : Z :=
  floodFillLoop width height obstacles depth [start] {[posKey start]} 0 0.

(** The default value of the parameter [depth]. *)
Definition DEFAULT_DEPTH : Z := 20.

Module Move.
Record t : Set := mk { dir : Direction; name : string }.
End Move.

(** [possibleMoves.sort(() => Math.random() - 0.5)]: some rearrangement of
    the array, chosen by the random source.  The draw [seed] selects it:
    its successive remainders pick the next element among the remaining
    ones, so every rearrangement is the image of some draw. *)
Fixpoint shuffleN {A : Type} (n seed : nat) (l : list A) : list A :=
  match n with
  | O => []
  | S n' =>
      match l !! (seed mod length l)%nat with
      | Some a =>
          a :: shuffleN n' (seed / length l)%nat
                 (delete (seed mod length l)%nat l)
      | None => []
      end
  end.

Definition shuffle {A : Type} (seed : nat) (l : list A) : list A :=
  shuffleN (length l) seed l.

(** [obstacles.add] of every trail cell and of the head, player by player. *)
Definition addPlayerObstacles (obstacles : gset (Z * Z)) (p : Player.t)
  : gset (Z * Z) :=
  {[posKey (Player.head p)]}
  ∪ fold_left (fun obs t => {[posKey t]} ∪ obs) (Player.trail p) obstacles.

Definition buildObstacles (players : list Player.t) : gset (Z * Z) :=
  fold_left addPlayerObstacles players ∅.

(** The immediate collision check of a candidate position. *)
Definition lethal (nextPos : Coordinate.t) (width height : Z)
    (obstacles : gset (Z * Z)) : bool :=
  (Coordinate.x nextPos <? 0) || (Coordinate.x nextPos >=? width)
  || (Coordinate.y nextPos <? 0) || (Coordinate.y nextPos >=? height)
  || bool_decide (posKey nextPos ∈ obstacles).

(** Body of [for (const move of possibleMoves)]: the state is
    [(bestMove, maxSpace)]. *)
Definition considerMove (head : Coordinate.t) (width height : Z)
    (obstacles : gset (Z * Z)) (best : Direction * Z) (move : Move.t)
  : Direction * Z :=
  let nextPos := getNextPosition head (Move.dir move) in
  if lethal nextPos width height obstacles then best
  else
    let space := floodFillCount nextPos width height obstacles DEFAULT_DEPTH in
    if space >? best.2 then (Move.dir move, space) else best.

Definition turnLeft (d : Direction) : Direction := dirOfZ ((dirToZ d + 3) mod 4).
Definition turnRight (d : Direction) : Direction := dirOfZ ((dirToZ d + 1) mod 4).

Definition possibleMoves (currentDir : Direction) : list Move.t :=
  [ Move.mk currentDir "straight";
    Move.mk (turnLeft currentDir) "left";
    Move.mk (turnRight currentDir) "right" ].

Definition getAIMove (seed : nat) (aiPlayer : Player.t)
    (players : list Player.t) (width height : Z) : Direction :=
  let head := Player.head aiPlayer in
  let currentDir := Player.direction aiPlayer in
  let obstacles := buildObstacles players in
  (fold_left (considerMove head width height obstacles)
     (shuffle seed (possibleMoves currentDir)) (currentDir, -1)).1.

(** [validMoves]: the neighbours that stay in bounds. *)
Definition validMoves (currentPos : Coordinate.t) (width height : Z)
  : list Coordinate.t :=
  List.filter
    (fun m => (Coordinate.x m >=? 0) && (Coordinate.x m <? width)
              && (Coordinate.y m >=? 0) && (Coordinate.y m <? height))
    (neighbors currentPos).

(** [Math.floor(Math.random() * validMoves.length)] is an index below the
    length; the draw [pick] gives it as its remainder, so the read is always
    in range (the default of [nth] is never returned). *)
Definition getWalkerMove (pick : nat) (currentPos : Coordinate.t)
    (width height : Z) (obstacles : gset (Z * Z)) : Coordinate.t :=
  let moves := validMoves currentPos width height in
  if (length moves =? 0)%nat then currentPos
  else nth (pick mod length moves)%nat moves currentPos.

(** ** The match engine (components/Game) *)

Module Scores.
Record t : Set := mk { p1 : Z; p2 : Z }.
End Scores.

(** The state the component keeps between ticks: the React state
    ([config], [status], [mode], [winner], [scores]) and the refs
    ([playersRef], [walkersRef], [isGameOverRef], [inputQueueRef]). *)
Module Game.
Record t : Type := mk {
  config : GameConfig.t;
  status : GameStatus;
  mode : GameMode;
  winner : option string;
  scores : Scores.t;
  players : list Player.t;
  walkers : list Walker.t;
  isGameOver : bool;
  inputQueue : gmap Z (list Direction)
}.
End Game.

(** The random source of one tick: a draw for the shuffle of the AI of the
    player at a given index, and a draw for the walker at a given index. *)
Record Entropy : Type := { aiDraw : nat -> nat; walkerDraw : nat -> nat }.

Definition setDirection (d : Direction) (p : Player.t) : Player.t :=
  Player.mk (Player.id p) (Player.name p) (Player.color p) (Player.head p)
    (Player.trail p) d (Player.isDead p) (Player.score p).

Definition setDead (p : Player.t) : Player.t :=
  Player.mk (Player.id p) (Player.name p) (Player.color p) (Player.head p)
    (Player.trail p) (Player.direction p) true (Player.score p).

(** The object literals of [initGame]. *)
Definition newPlayer (id : Z) (name color : string) (start : Coordinate.t)
    (direction : Direction) : Player.t :=
  Player.mk id name color start [start] direction false 0.

Definition initPlayers (mode : GameMode) : list Player.t :=
  [ newPlayer 1 "Player 1" P1_COLOR P1_START_POS RIGHT;
    newPlayer 2 (if decide (mode = PVE) then "CPU" else "Player 2")
      P2_COLOR P2_START_POS LEFT ].

Definition emptyQueues : gmap Z (list Direction) := <[1 := []]> (<[2 := []]> ∅).

(** [initGame]; [newWalkers] is the pool its sampling loop produced. *)
Definition initGame (newWalkers : list Walker.t) (g : Game.t) : Game.t :=
  Game.mk (Game.config g) (Game.status g) (Game.mode g) None (Game.scores g)
    (initPlayers (Game.mode g)) newWalkers false emptyQueues.

(** ['left' | 'right'] *)
Inductive Turn : Set := TurnLeft | TurnRight.

(** [registerTurn] of the key handler.  [p1] and [p2] are the first two
    entries of the players array; the direction of the one selected by
    [playerId === 1] is read only when the queue is empty. *)
Definition registerTurn (playerId : Z) (turn : Turn) (g : Game.t)
  : option Game.t :=
  queue ← Game.inputQueue g !! playerId;
  if (2 <? length queue)%nat then Some g
  else
    lastDir ← match last queue with
              | Some d => Some d
              | None =>
                  Player.direction
                    <$> Game.players g !! (if playerId =? 1 then 0%nat else 1%nat)
              end;
    let newDir :=
      match turn with
      | TurnLeft => dirOfZ ((dirToZ lastDir + 3) mod 4)
      | TurnRight => dirOfZ ((dirToZ lastDir + 1) mod 4)
      end in
    if bool_decide (newDir ≠ lastDir)
    then Some (Game.mk (Game.config g) (Game.status g) (Game.mode g)
                 (Game.winner g) (Game.scores g) (Game.players g)
                 (Game.walkers g) (Game.isGameOver g)
                 (<[playerId := queue ++ [newDir]]> (Game.inputQueue g)))
    else Some g.

(** [mode === GameMode.PVE && p.id === 2] *)
Definition isAI (mode : GameMode) (p : Player.t) : bool :=
  bool_decide (mode = PVE) && (Player.id p =? 2).

(** Step 1 for one living player [p] whose queue is [pending]:
    [if (queue.length > 0) p.direction = queue.shift()]. *)
Definition dequeueTurn (pending : list Direction) (p : Player.t) : Player.t :=
  match pending with
  | [] => p
  | d :: _ => setDirection d p
  end.

(** Step 1, the AI branch, for the player object [p]; [before] and [after]
    are the entries of the players array around it, so the array the AI
    receives holds [p] itself, with the direction it has at that point. *)
Definition applyAI (seed : nat) (mode : GameMode) (width height : Z)
    (before after : list Player.t) (p : Player.t) : Player.t :=
  if isAI mode p then
    let newDir := getAIMove seed p (before ++ p :: after) width height in
    if bool_decide (newDir ≠ Player.direction p) then setDirection newDir p
    else p
  else p.

(** Step 1, [players.forEach]: the players are objects mutated in place, so
    the array seen while the player at index [length done] is handled
    is [done], already updated, followed by the entries still to come. *)
Fixpoint processInputs (e : Entropy) (mode : GameMode) (width height : Z)
    (done todo : list Player.t) (queues : gmap Z (list Direction))
  : option (list Player.t * gmap Z (list Direction)) :=
  match todo with
  | [] => Some (done, queues)
  | p :: rest =>
      if Player.isDead p then
        processInputs e mode width height (done ++ [p]) rest queues
      else
        match queues !! Player.id p with
        | None => None
        | Some pending =>
            processInputs e mode width height
              (done ++ [applyAI (aiDraw e (length done)) mode width height
                          done rest (dequeueTurn pending p)])
              rest
              (match pending with
               | [] => queues
               | _ :: ds => <[Player.id p := ds]> queues
               end)
        end
  end.

(** Step 2 for one walker. *)
Definition stepWalker (pick : nat) (width height : Z) (w : Walker.t)
  : Walker.t :=
  let timer := Walker.moveTimer w + 1 in
  if timer >=? WALKER_SPEED_MOD then
    Walker.mk (Walker.id w)
      (getWalkerMove pick (Walker.position w) width height ∅) 0
  else Walker.mk (Walker.id w) (Walker.position w) timer.

Definition moveWalkers (e : Entropy) (width height : Z)
    (walkers : list Walker.t) : list Walker.t :=
  imap (fun j w => stepWalker (walkerDraw e j) width height w) walkers.

(** Step 3 for one player. *)
Definition movePlayer (p : Player.t) : Player.t :=
  if Player.isDead p then p
  else
    let nextHead := getNextPosition (Player.head p) (Player.direction p) in
    Player.mk (Player.id p) (Player.name p) (Player.color p) nextHead
      (Player.trail p ++ [Player.head p]) (Player.direction p)
      (Player.isDead p) (Player.score p).

(** [if (!deaths.includes(id)) deaths.push(id)] *)
Definition pushUnique (deaths : list Z) (i : Z) : list Z :=
  if bool_decide (i ∈ deaths) then deaths else deaths ++ [i].

(** Step 4 for one player: wall or trail, walkers, head to head. *)
Definition detectCollisions (width height : Z) (players : list Player.t)
    (walkers : list Walker.t) (deaths : list Z) (p : Player.t) : list Z :=
  if Player.isDead p then deaths
  else
    let deaths1 :=
      if checkCollision (Player.head p) width height players
      then deaths ++ [Player.id p] else deaths in
    let deaths2 :=
      fold_left
        (fun ds w =>
           if sameCell (Player.head p) (Walker.position w)
           then pushUnique ds (Player.id p) else ds)
        walkers deaths1 in
    match List.find (fun op => negb (Player.id op =? Player.id p)) players with
    | Some opponent =>
        if negb (Player.isDead opponent)
           && sameCell (Player.head p) (Player.head opponent)
        then pushUnique (pushUnique deaths2 (Player.id p)) (Player.id opponent)
        else deaths2
    | None => deaths2
    end.

(** [players.find(pl => pl.id === id)] followed by [p.isDead = true]. *)
Fixpoint markDead (i : Z) (players : list Player.t) : list Player.t :=
  match players with
  | [] => []
  | p :: rest =>
      if Player.id p =? i then setDead p :: rest else p :: markDead i rest
  end.

Definition applyDeaths (deaths : list Z) (players : list Player.t)
  : list Player.t :=
  fold_left (fun ps i => markDead i ps) deaths players.

Definition bumpScore (winnerId : Z) (prev : Scores.t) : Scores.t :=
  if winnerId =? 1 then Scores.mk (Scores.p1 prev + 1) (Scores.p2 prev)
  else Scores.mk (Scores.p1 prev) (Scores.p2 prev + 1).

(** The win condition at the end of the tick, on the state [g] whose
    players, walkers and queues are those the tick produced. *)
Definition checkWin (g : Game.t) : Game.t :=
  match List.filter (fun p => negb (Player.isDead p)) (Game.players g) with
  | [] =>
      Game.mk (Game.config g) GAME_OVER (Game.mode g) (Some "DRAW")
        (Game.scores g) (Game.players g) (Game.walkers g) true
        (Game.inputQueue g)
  | [winnerPlayer] =>
      Game.mk (Game.config g) GAME_OVER (Game.mode g)
        (Some (Player.name winnerPlayer))
        (bumpScore (Player.id winnerPlayer) (Game.scores g))
        (Game.players g) (Game.walkers g) true (Game.inputQueue g)
  | _ => g
  end.

Definition updateGame (e : Entropy) (g : Game.t) : option Game.t :=
  if Game.isGameOver g then Some g
  else
    let width := GameConfig.gridWidth (Game.config g) in
    let height := GameConfig.gridHeight (Game.config g) in
    '(players1, queues) ←
      processInputs e (Game.mode g) width height [] (Game.players g)
        (Game.inputQueue g);
    let walkers := moveWalkers e width height (Game.walkers g) in
    let players := map movePlayer players1 in
    let deaths :=
      fold_left (detectCollisions width height players walkers) players [] in
    Some (checkWin
            (Game.mk (Game.config g) (Game.status g) (Game.mode g)
               (Game.winner g) (Game.scores g) (applyDeaths deaths players)
               walkers (Game.isGameOver g) queues)).

(** A run of ticks, one oracle per tick. *)
Fixpoint ticks (es : list Entropy) (g : Game.t) : option Game.t :=
  match es with
  | [] => Some g
  | e :: es' => g' ← updateGame e g; ticks es' g'
  end.

(** The oracle whose draws are all zero. *)
Definition noEntropy : Entropy :=
  {| aiDraw := fun _ => O; walkerDraw := fun _ => O |}.

(** ** Vocabulary of the statements *)

(** The arena contains the cell. *)
Definition inBounds (pos : Coordinate.t) (width height : Z) : Prop :=
  0 <= Coordinate.x pos < width ∧ 0 <= Coordinate.y pos < height.

(** The cell is a trail cell or the head of some player. *)
Definition isObstacle (players : list Player.t) (pos : Coordinate.t) : Prop :=
  ∃ p, p ∈ players ∧ (pos = Player.head p ∨ pos ∈ Player.trail p).

(** A move to the cell does not collide at once. *)
Definition survivable (players : list Player.t) (width height : Z)
    (pos : Coordinate.t) : Prop :=
  inBounds pos width height ∧ ¬ isObstacle players pos.

(** Straight, left and right of the facing [d]. *)
Definition candidates (d : Direction) : list Direction :=
  [d; turnLeft d; turnRight d].

(** Invariant of the loop of [getAIMove] over the candidate moves: the pair
    [(bestMove, maxSpace)] is the initial one, or its move survives and its
    score is not negative. *)
Definition aiBestSafe (head : Coordinate.t) (width height : Z)
    (players : list Player.t) (best : Direction * Z) : Prop :=
  survivable players width height (getNextPosition head best.1) ∧ 0 <= best.2.

Definition aiLoopInv (head : Coordinate.t) (width height : Z)
    (players : list Player.t) (currentDir : Direction) (best : Direction * Z)
  : Prop :=
  best = (currentDir, -1) ∨ aiBestSafe head width height players best.

(** The direction a turn request asks for, from the planned direction [d]. *)
Definition turned (turn : Turn) (d : Direction) : Direction :=
  match turn with TurnLeft => turnLeft d | TurnRight => turnRight d end.

(** [q] is [p] with, possibly, another direction. *)
Definition sameButDirection (p q : Player.t) : Prop :=
  q = setDirection (Player.direction q) p.

(** [q] is [p], possibly marked dead. *)
Definition deadOrSame (p q : Player.t) : Prop := q = p ∨ q = setDead p.

(** What the AI reads of the players: heads and trails. *)
Definition cells (players : list Player.t)
  : list (Coordinate.t * list Coordinate.t) :=
  map (fun p => (Player.head p, Player.trail p)) players.

(** The facing step 1 gives a living player whose queue is [pending]. *)
Definition facingAfterInputs (seed : nat) (mode : GameMode) (width height : Z)
    (players : list Player.t) (pending : list Direction) (p : Player.t)
  : Direction :=
  if isAI mode p then getAIMove seed (dequeueTurn pending p) players width height
  else Player.direction (dequeueTurn pending p).

(** [players.filter(p => !p.isDead)] *)
Definition alivePlayers (players : list Player.t) : list Player.t :=
  List.filter (fun p => negb (Player.isDead p)) players.

(** The state a tick has built when it reaches the win condition;
    [players1] and [queues] are the outcome of step 1. *)
Definition afterCollisions (e : Entropy) (g : Game.t)
    (players1 : list Player.t) (queues : gmap Z (list Direction)) : Game.t :=
  let width := GameConfig.gridWidth (Game.config g) in
  let height := GameConfig.gridHeight (Game.config g) in
  let walkers := moveWalkers e width height (Game.walkers g) in
  let players := map movePlayer players1 in
  Game.mk (Game.config g) (Game.status g) (Game.mode g) (Game.winner g)
    (Game.scores g)
    (applyDeaths
       (fold_left (detectCollisions width height players walkers) players [])
       players)
    walkers (Game.isGameOver g) queues.

(** Every player has a turn queue (as after [initGame]): no read of a
    queue throws. *)
Definition queuesCover (g : Game.t) : Prop :=
  ∀ i, i ∈ map Player.id (Game.players g) → is_Some (Game.inputQueue g !! i).

Definition scoreTotal (g : Game.t) : Z :=
  Scores.p1 (Game.scores g) + Scores.p2 (Game.scores g).

(** The state after one tick (the state itself if the tick throws). *)
Definition tickOf (e : Entropy) (g : Game.t) : Game.t :=
  default g (updateGame e g).

(** ** Scenarios *)

Definition arena10 : GameConfig.t := GameConfig.mk 10 10 80.

(** One agent at (5,5) facing right on the 10 x 10 grid, no walkers, empty
    queues; [trail0] is its trail at the start ([initGame] starts a trail
    with the start cell). *)
Definition soloGame (trail0 : list Coordinate.t) : Game.t :=
  Game.mk arena10 PLAYING PVE None (Scores.mk 0 0)
    [Player.mk 1 "Player 1" P1_COLOR (Coordinate.mk 5 5) trail0 RIGHT false 0]
    [] false emptyQueues.

(** The same agent with a second one that stays clear of it. *)
Definition pairGame : Game.t :=
  Game.mk arena10 PLAYING PVP None (Scores.mk 0 0)
    [newPlayer 1 "Player 1" P1_COLOR (Coordinate.mk 5 5) RIGHT;
     newPlayer 2 "Player 2" P2_COLOR (Coordinate.mk 2 2) DOWN]
    [] false emptyQueues.

(** The CPU at (5,5) facing left with a queued turn up, the cell above it
    taken by the first player. *)
Definition cpuPlayer : Player.t :=
  newPlayer 2 "CPU" P2_COLOR (Coordinate.mk 5 5) LEFT.

Definition aiQueueGame : Game.t :=
  Game.mk arena10 PLAYING PVE None (Scores.mk 0 0)
    [newPlayer 1 "Player 1" P1_COLOR (Coordinate.mk 5 4) RIGHT; cpuPlayer]
    [] false (<[1 := []]> (<[2 := [UP]]> ∅)).

(** Two agents face to face on adjacent cells, and two walkers. *)
Definition swapGame : Game.t :=
  Game.mk arena10 PLAYING PVP None (Scores.mk 0 0)
    [newPlayer 1 "Player 1" P1_COLOR (Coordinate.mk 4 5) RIGHT;
     newPlayer 2 "Player 2" P2_COLOR (Coordinate.mk 5 5) LEFT]
    [Walker.mk 0 (Coordinate.mk 0 0) 0; Walker.mk 1 (Coordinate.mk 9 9) 1]
    false emptyQueues.

(** A CPU boxed in by the wall and by trails. *)
Definition boxedPlayer : Player.t :=
  Player.mk 2 "CPU" P2_COLOR (Coordinate.mk 0 0)
    [Coordinate.mk 1 0; Coordinate.mk 0 1] UP false 0.

(** ** The rest of the component (components/Game) *)

#[global] Instance GameStatus_eq_dec : EqDecision GameStatus.
Proof. solve_decision. Defined.

(** [Math.floor(Math.random() * n)] for an integer [n]: a number of
    [0 .. n-1] when [n] is positive, 0 when [n] is 0, a number of [n .. 0]
    when [n] is negative; the draw selects it. *)
Definition randomBelow (n : Z) (draw : nat) : Z :=
  if 0 <? n then Z.of_nat draw mod n
  else - (Z.of_nat draw mod (1 - n)).

(** [Math.abs(pos.x - P1_START_POS.x) > 5 && Math.abs(pos.x - P2_START_POS.x) > 5] *)
Definition awayFromStarts (pos : Coordinate.t) : bool :=
  (Z.abs (Coordinate.x pos - Coordinate.x P1_START_POS) >? 5)
  && (Z.abs (Coordinate.x pos - Coordinate.x P2_START_POS) >? 5).

(** The [while (!valid)] loop of [initGame]: each turn draws an abscissa and
    an ordinate and stops at the first position away from the start zones.
    [draws] is the sequence of random draws still to come; the result is the
    position and the draws left, or [None] when the draws given end before
    the loop does. *)
Fixpoint sampleWalkerPos (draws : list nat) (width height : Z)
  : option (Coordinate.t * list nat) :=
  match draws with
  | dx :: dy :: rest =>
      let pos := Coordinate.mk (randomBelow width dx) (randomBelow height dy) in
      if awayFromStarts pos then Some (pos, rest)
      else sampleWalkerPos rest width height
  | _ => None
  end.

(** The [for] loop of [initGame] from index [i], [n] walkers to go: a
    position from the sampling loop, then a draw for the timer. *)
Fixpoint spawnWalkers (n : nat) (i : Z) (draws : list nat) (width height : Z)
  : option (list Walker.t * list nat) :=
  match n with
  | O => Some ([], draws)
  | S n' =>
      '(pos, draws1) ← sampleWalkerPos draws width height;
      match draws1 with
      | [] => None
      | dt :: draws2 =>
          '(ws, draws3) ← spawnWalkers n' (i + 1) draws2 width height;
          Some (Walker.mk i pos (randomBelow WALKER_SPEED_MOD dt) :: ws, draws3)
      end
  end.

(** [initGame] with its walkers drawn from [draws]. *)
Definition initGameDrawn (draws : list nat) (g : Game.t) : option Game.t :=
  '(newWalkers, _) ←
    spawnWalkers (Z.to_nat WALKER_COUNT) 0 draws
      (GameConfig.gridWidth (Game.config g))
      (GameConfig.gridHeight (Game.config g));
  Some (initGame newWalkers g).

Definition setStatus (s : GameStatus) (g : Game.t) : Game.t :=
  Game.mk (Game.config g) s (Game.mode g) (Game.winner g) (Game.scores g)
    (Game.players g) (Game.walkers g) (Game.isGameOver g) (Game.inputQueue g).

(** [startGame]: [initGame()], the start sound, [setStatus(PLAYING)]. *)
Definition startGame (newWalkers : list Walker.t) (g : Game.t) : Game.t :=
  setStatus PLAYING (initGame newWalkers g).

(** [setGameMode]: the mode is set and both tallies go back to 0. *)
Definition setGameMode (m : GameMode) (g : Game.t) : Game.t :=
  Game.mk (Game.config g) (Game.status g) m (Game.winner g) (Scores.mk 0 0)
    (Game.players g) (Game.walkers g) (Game.isGameOver g) (Game.inputQueue g).

(** [handleKeyDown] on the key [code]: nothing outside PLAYING; A and D turn
    player 1; the arrows turn player 2, in PVP only.  An exception of
    [registerTurn] leaves the handler. *)
Definition handleKeyDown (code : string) (g : Game.t) : option Game.t :=
  if bool_decide (Game.status g ≠ PLAYING) then Some g
  else
    g1 ← (if bool_decide (code = "KeyA") then registerTurn 1 TurnLeft g
          else Some g);
    g2 ← (if bool_decide (code = "KeyD") then registerTurn 1 TurnRight g1
          else Some g1);
    if bool_decide (Game.mode g = PVP) then
      g3 ← (if bool_decide (code = "ArrowLeft") then registerTurn 2 TurnLeft g2
            else Some g2);
      (if bool_decide (code = "ArrowRight") then registerTurn 2 TurnRight g3
       else Some g3)
    else Some g2.

(** [loop] on one animation frame; [due] is the outcome of the test
    [deltaTime >= config.speed].  Drawing is left out. *)
Definition loop (due : bool) (e : Entropy) (g : Game.t) : option Game.t :=
  if bool_decide (Game.status g ≠ PLAYING) then Some g
  else if due then updateGame e g else Some g.

(** What happens to the mounted component: a key goes down, an animation
    frame comes, a button of the overlay is clicked.  The overlay shows
    START ENGINE and the two mode buttons in the menu, REMATCH and MENU after
    a match, and nothing during play; a click on a button that is not shown
    is no event, so it leaves the state as it is. *)
Inductive Event : Type :=
| KeyDown (code : string)
| Frame (due : bool) (e : Entropy)
| ClickStart (newWalkers : list Walker.t)
| ClickMode (m : GameMode)
| ClickMenu.

Definition handle (ev : Event) (g : Game.t) : option Game.t :=
  match ev with
  | KeyDown code => handleKeyDown code g
  | Frame due e => loop due e g
  | ClickStart newWalkers =>
      if bool_decide (Game.status g = MENU ∨ Game.status g = GAME_OVER)
      then Some (startGame newWalkers g) else Some g
  | ClickMode m =>
      if bool_decide (Game.status g = MENU) then Some (setGameMode m g)
      else Some g
  | ClickMenu =>
      if bool_decide (Game.status g = GAME_OVER) then Some (setStatus MENU g)
      else Some g
  end.

(** Keys and frames, as opposed to clicks. *)
Definition isInput (ev : Event) : bool :=
  match ev with KeyDown _ | Frame _ _ => true | _ => false end.

Fixpoint run (evs : list Event) (g : Game.t) : option Game.t :=
  match evs with
  | [] => Some g
  | ev :: evs' => g' ← handle ev g; run evs' g'
  end.

(** ** More vocabulary *)

(** The opposite direction: two quarter turns. *)
Definition opposite (d : Direction) : Direction := turnLeft (turnLeft d).

(** The queue [q] is a chain of quarter turns from the direction [d]. *)
Fixpoint quarterChain (d : Direction) (q : list Direction) : Prop :=
  match q with
  | [] => True
  | d' :: q' => (d' = turnLeft d ∨ d' = turnRight d) ∧ quarterChain d' q'
  end.

(** A match as [startGame] sets it up and play keeps it: the two players
    with ids 1 and 2, each with a queue of at most three pending turns that
    is a chain of quarter turns from its facing, the queue of player 2 empty
    against the CPU. *)
Definition wellFormed (g : Game.t) : Prop :=
  ∃ p1 p2 q1 q2,
    Game.players g = [p1; p2]
    ∧ Player.id p1 = 1 ∧ Player.id p2 = 2
    ∧ Game.inputQueue g !! 1 = Some q1 ∧ Game.inputQueue g !! 2 = Some q2
    ∧ (length q1 <= 3)%nat ∧ (length q2 <= 3)%nat
    ∧ quarterChain (Player.direction p1) q1
    ∧ quarterChain (Player.direction p2) q2
    ∧ (Game.mode g = PVE → q2 = []).

(** The match is well formed whenever it is being played. *)
Definition playable (g : Game.t) : Prop :=
  Game.status g = PLAYING → wellFormed g.

(** Every walker is inside the arena. *)
Definition walkersInBounds (g : Game.t) : Prop :=
  ∀ w, w ∈ Game.walkers g →
       inBounds (Walker.position w) (GameConfig.gridWidth (Game.config g))
         (GameConfig.gridHeight (Game.config g)).

(** The collisions of step 4 for the player [p], among the players and
    walkers as they are after the moves: wall or trail, a walker, the head of
    another living player. *)
Definition collided (width height : Z) (players : list Player.t)
    (walkers : list Walker.t) (p : Player.t) : Prop :=
  checkCollision (Player.head p) width height players = true
  ∨ (∃ w, w ∈ walkers ∧ Walker.position w = Player.head p)
  ∨ (∃ q, q ∈ players ∧ Player.isDead q = false
          ∧ Player.id q ≠ Player.id p ∧ Player.head q = Player.head p).

(** The score of a candidate direction for the AI at [head]. *)
Definition spaceOf (head : Coordinate.t) (width height : Z)
    (players : list Player.t) (d : Direction) : Z :=
  floodFillCount (getNextPosition head d) width height (buildObstacles players)
    DEFAULT_DEPTH.

(** A cell the flood fill may enter. *)
Definition freeCell (width height : Z) (obstacles : gset (Z * Z))
    (k : Z * Z) : Prop :=
  0 <= k.1 < width ∧ 0 <= k.2 < height ∧ k ∉ obstacles.

(** Invariant of the loop of [getAIMove] for the choice of the largest
    space: the best pair carries the space of its move, and no surviving
    move among those seen has more. *)
Definition aiBestMax (head : Coordinate.t) (width height : Z)
    (players : list Player.t) (seen : list Move.t) (best : Direction * Z)
  : Prop :=
  (best.2 = -1
   ∨ (survivable players width height (getNextPosition head best.1)
      ∧ best.2 = spaceOf head width height players best.1))
  ∧ ∀ m, m ∈ seen →
         survivable players width height (getNextPosition head (Move.dir m)) →
         spaceOf head width height players (Move.dir m) <= best.2.

(** The direction the next turn of a player starts from: the last queued
    direction, else the facing. *)
Definition plannedDirection (facing : Direction) (queue : list Direction)
  : Direction := default facing (last queue).

(** [g'] is [g] with, possibly, other turn queues. *)
Definition sameButQueues (g g' : Game.t) : Prop :=
  g' = Game.mk (Game.config g) (Game.status g) (Game.mode g) (Game.winner g)
         (Game.scores g) (Game.players g) (Game.walkers g) (Game.isGameOver g)
         (Game.inputQueue g').

(** Two agents facing each other with one free cell between them. *)
Definition headOnGame : Game.t :=
  Game.mk arena10 PLAYING PVP None (Scores.mk 0 0)
    [newPlayer 1 "Player 1" P1_COLOR (Coordinate.mk 4 5) RIGHT;
     newPlayer 2 "Player 2" P2_COLOR (Coordinate.mk 6 5) LEFT]
    [] false emptyQueues.

(** The component as it is mounted: the initial values of its state and
    refs. *)
Definition mountedGame : Game.t :=
  Game.mk INITIAL_CONFIG MENU PVE None (Scores.mk 0 0) [] [] false emptyQueues.

(** Draws that place five walkers at their first try. *)
Definition fiveWalkerDraws : list nat :=
  [0; 3; 1; 20; 7; 0; 30; 39; 1; 40; 12; 0; 59; 21; 1]%nat.

(** The first agent about to leave the arena, the second about to step on a
    walker that rests this tick. *)
Definition crashGame : Game.t :=
  Game.mk arena10 PLAYING PVP None (Scores.mk 0 0)
    [newPlayer 1 "Player 1" P1_COLOR (Coordinate.mk 9 5) RIGHT;
     newPlayer 2 "Player 2" P2_COLOR (Coordinate.mk 2 2) DOWN]
    [Walker.mk 0 (Coordinate.mk 2 3) 0] false emptyQueues.

(** [Number.MAX_SAFE_INTEGER]: up to it the additions of the code are exact. *)
Definition MAX_SAFE_INTEGER : Z := 2 ^ 53 - 1.

(** A cell whose coordinates are safe integers. *)
Definition safeCell (c : Coordinate.t) : Prop :=
  Z.abs (Coordinate.x c) <= MAX_SAFE_INTEGER
  ∧ Z.abs (Coordinate.y c) <= MAX_SAFE_INTEGER.

(** The cell [n] moves away from [c] in the direction [d]. *)
Fixpoint advance (n : nat) (c : Coordinate.t) (d : Direction) : Coordinate.t :=
  match n with
  | O => c
  | S n' => advance n' (getNextPosition c d) d
  end.

(** The [n] cells left behind on that way, [c] first. *)
Fixpoint path (n : nat) (c : Coordinate.t) (d : Direction)
  : list Coordinate.t :=
  match n with
  | O => []
  | S n' => c :: path n' (getNextPosition c d) d
  end.

(** The lone agent of the scenario, at the end of its first tick. *)
Definition soloWinner (trail1 : list Coordinate.t) : Player.t :=
  Player.mk 1 "Player 1" P1_COLOR (Coordinate.mk 6 5) trail1 RIGHT false 0.

(** The state after a run of ticks (the state itself if one throws). *)
Definition afterTicks (es : list Entropy) (g : Game.t) : Game.t :=
  default g (ticks es g).



(** * Properties *)

Example getNextPosition_right :
  getNextPosition (Coordinate.mk 5 5) RIGHT = Coordinate.mk 6 5.
Proof. reflexivity. Qed.

Example floodFillCount_corner :
  floodFillCount (Coordinate.mk 0 0) 2 2 {[ (1, 1) ]} DEFAULT_DEPTH = 3.
Proof. vm_compute. reflexivity. Qed.

Example floodFillCount_capped :
  floodFillCount (Coordinate.mk 0 0) 60 40 ∅ DEFAULT_DEPTH = 100.
Proof. vm_compute. reflexivity. Qed.

Example shuffle_examples :
  map (fun s => shuffle s [1; 2; 3]%nat) [0; 1; 2; 3; 4; 5]%nat
  = [[1; 2; 3]; [2; 1; 3]; [3; 1; 2]; [1; 3; 2]; [2; 3; 1]; [3; 2; 1]]%nat.
Proof. reflexivity. Qed.

Example initGame_players :
  Game.players (initGame [] (soloGame []))
  = [ Player.mk 1 "Player 1" "#00f3ff" (Coordinate.mk 10 20)
        [Coordinate.mk 10 20] RIGHT false 0;
      Player.mk 2 "CPU" "#ff003c" (Coordinate.mk 50 20)
        [Coordinate.mk 50 20] LEFT false 0 ].
Proof. reflexivity. Qed.

(** ** Cells and bounds *)

Lemma sameCell_eq a b : sameCell a b = true ↔ a = b.
Proof.
  unfold sameCell. destruct a as [ax ay], b as [bx b_y]; simpl.
  rewrite andb_true_iff, !Z.eqb_eq. split.
  - intros [-> ->]. reflexivity.
  - intros [= -> ->]. split; reflexivity.
Qed.

Lemma posKey_inj a b : posKey a = posKey b → a = b.
Proof. destruct a, b. unfold posKey. simpl. intros [= -> ->]. reflexivity. Qed.

Lemma outOfBounds_false pos width height :
  outOfBounds pos width height = false ↔ inBounds pos width height.
Proof. unfold outOfBounds, inBounds. rewrite !orb_false_iff. lia. Qed.

Lemma outOfBounds_true pos width height :
  outOfBounds pos width height = true ↔
  Coordinate.x pos < 0 ∨ Coordinate.x pos >= width
  ∨ Coordinate.y pos < 0 ∨ Coordinate.y pos >= height.
Proof. unfold outOfBounds. rewrite !orb_true_iff. lia. Qed.

Lemma existsb_sameCell pos (cells : list Coordinate.t) :
  existsb (sameCell pos) cells = true ↔ pos ∈ cells.
Proof.
  rewrite existsb_exists, list_elem_of_In. split.
  - intros (c & Hin & Heq). apply sameCell_eq in Heq. subst. exact Hin.
  - intros Hin. exists pos. split; [exact Hin | apply sameCell_eq; reflexivity].
Qed.

Lemma checkCollision_trail pos width height (players : list Player.t) player :
  player ∈ players → pos ∈ Player.trail player →
  checkCollision pos width height players = true.
Proof.
  intros Hp Ht. unfold checkCollision.
  destruct (outOfBounds pos width height); [reflexivity |].
  apply existsb_exists. exists player.
  rewrite <- list_elem_of_In, existsb_sameCell. auto.
Qed.

(** C7. [checkCollision] answers [true] exactly when the position is out of
    bounds ([x < 0], [x >= width], [y < 0] or [y >= height]) or is a cell of
    the trail of some player of the list, the asking player's own trail
    included. *)
Theorem checkCollision_iff pos width height (players : list Player.t) :
  checkCollision pos width height players = true ↔
  (Coordinate.x pos < 0 ∨ Coordinate.x pos >= width
   ∨ Coordinate.y pos < 0 ∨ Coordinate.y pos >= height)
  ∨ ∃ player, player ∈ players ∧ pos ∈ Player.trail player.
Proof.
  split.
  - unfold checkCollision.
    destruct (outOfBounds pos width height) eqn:Hout.
    + apply outOfBounds_true in Hout. tauto.
    + rewrite existsb_exists. intros (player & Hp & Ht). right. exists player.
      rewrite list_elem_of_In, <- existsb_sameCell. auto.
  - intros [Hwall | (player & Hp & Ht)].
    + apply outOfBounds_true in Hwall. unfold checkCollision. rewrite Hwall.
      reflexivity.
    + eapply checkCollision_trail; eassumption.
Qed.

(** ** The flood fill *)

(** The loop adds one to [count] per turn and makes at most
    [depth * 5 - steps] turns. *)
Lemma floodFillLoop_bounds width height obstacles depth queue visited count steps :
  count <= floodFillLoop width height obstacles depth queue visited count steps
        <= count + Z.max 0 (depth * 5 - steps).
Proof.
  funelim (floodFillLoop width height obstacles depth queue visited count steps);
    lia.
Qed.

Lemma floodFillCount_nonneg start width height obstacles depth :
  0 <= floodFillCount start width height obstacles depth.
Proof.
  unfold floodFillCount.
  pose proof (floodFillLoop_bounds width height obstacles depth [start]
                {[posKey start]} 0 0). lia.
Qed.

(** With no budget the loop body never runs. *)
Lemma floodFillCount_no_budget start width height obstacles depth :
  depth <= 0 → floodFillCount start width height obstacles depth = 0.
Proof.
  intros Hd. unfold floodFillCount.
  pose proof (floodFillLoop_bounds width height obstacles depth [start]
                {[posKey start]} 0 0). lia.
Qed.

(** C8. [floodFillCount] is a total function (its loop is defined by
    well-founded recursion on [depth * 5 - steps]), and for every start,
    grid and obstacle set the count it returns is at most [depth * 5], hence
    at most 100 with the default depth of 20. *)
Theorem floodFillCount_bounded start width height obstacles depth :
  0 <= depth →
  0 <= floodFillCount start width height obstacles depth <= depth * 5
  ∧ floodFillCount start width height obstacles DEFAULT_DEPTH <= 100.
Proof.
  intros Hd. unfold floodFillCount, DEFAULT_DEPTH.
  pose proof (floodFillLoop_bounds width height obstacles depth [start]
                {[posKey start]} 0 0).
  pose proof (floodFillLoop_bounds width height obstacles 20 [start]
                {[posKey start]} 0 0).
  lia.
Qed.

Lemma floodFillCount_bounded_witness :
  0 <= floodFillCount (Coordinate.mk 3 3) 60 40 {[ (4, 3) ]} 7 <= 7 * 5
  ∧ floodFillCount (Coordinate.mk 3 3) 60 40 {[ (4, 3) ]} DEFAULT_DEPTH <= 100.
Proof.
  apply (floodFillCount_bounded (Coordinate.mk 3 3) 60 40 {[ (4, 3) ]} 7). lia.
Defined.

(** ** The AI *)

Lemma shuffleN_Permutation {A : Type} (n seed : nat) (l : list A) :
  length l = n → shuffleN n seed l ≡ₚ l.
Proof.
  revert seed l. induction n as [| n IH]; intros seed l Hlen; simpl.
  - destruct l; [reflexivity | discriminate].
  - destruct (l !! (seed mod length l)%nat) as [a |] eqn:Hlook.
    + etransitivity; [| symmetry; apply (delete_Permutation l _ _ Hlook)].
      constructor. apply IH.
      rewrite length_delete by (rewrite Hlook; eauto). lia.
    + apply lookup_ge_None in Hlook.
      pose proof (Nat.mod_upper_bound seed (length l)). lia.
Qed.

Lemma shuffle_Permutation {A : Type} (seed : nat) (l : list A) :
  shuffle seed l ≡ₚ l.
Proof. apply shuffleN_Permutation. reflexivity. Qed.

(** Every rearrangement of the array is the shuffle of some draw. *)
Lemma shuffle_complete {A : Type} (l' : list A) :
  ∀ l, l' ≡ₚ l → ∃ seed, shuffle seed l = l'.
Proof.
  induction l' as [| a t IH]; intros l Hperm.
  - apply Permutation_nil_l in Hperm. subst l. exists O. reflexivity.
  - assert (Hin : a ∈ l) by (rewrite <- Hperm; left).
    apply list_elem_of_lookup_1 in Hin as [i Hi].
    pose proof (lookup_lt_Some _ _ _ Hi) as Hlt.
    assert (Hrest : t ≡ₚ delete i l).
    { apply (Permutation_cons_inv (a := a)).
      rewrite Hperm. apply delete_Permutation, Hi. }
    destruct (IH _ Hrest) as [seed' Hseed'].
    exists (i + seed' * length l)%nat. unfold shuffle.
    destruct (length l) as [| n] eqn:Hlen; [lia |]. simpl shuffleN.
    rewrite <- Hlen.
    rewrite Nat.Div0.mod_add, (Nat.mod_small i) by lia.
    rewrite Hi. f_equal.
    rewrite Nat.div_add, (Nat.div_small i), Nat.add_0_l by lia.
    unfold shuffle in Hseed'. rewrite length_delete in Hseed' by eauto.
    rewrite Hlen in Hseed'. simpl in Hseed'. rewrite Nat.sub_0_r in Hseed'.
    exact Hseed'.
Qed.

Lemma elem_of_trail_obstacles (k : Z * Z) (cells : list Coordinate.t)
    (obstacles : gset (Z * Z)) :
  k ∈ fold_left (fun obs t => {[posKey t]} ∪ obs) cells obstacles
  ↔ k ∈ obstacles ∨ ∃ t, t ∈ cells ∧ k = posKey t.
Proof.
  revert obstacles. induction cells as [| c cells IH]; intros obstacles; simpl.
  - set_solver.
  - rewrite IH. set_solver.
Qed.

Lemma elem_of_fold_addPlayerObstacles (k : Z * Z) (players : list Player.t)
    (obstacles : gset (Z * Z)) :
  k ∈ fold_left addPlayerObstacles players obstacles
  ↔ k ∈ obstacles
    ∨ ∃ p, p ∈ players
           ∧ (k = posKey (Player.head p) ∨ ∃ t, t ∈ Player.trail p ∧ k = posKey t).
Proof.
  revert obstacles. induction players as [| p players IH]; intros obstacles; simpl.
  - set_solver.
  - rewrite IH. unfold addPlayerObstacles.
    rewrite elem_of_union, elem_of_singleton, elem_of_trail_obstacles.
    split.
    + intros [[-> | [Hk | Ht]] | (q & Hq & Hk)].
      * right. exists p. split; [left | auto].
      * auto.
      * right. exists p. split; [left | auto].
      * right. exists q. split; [right; exact Hq | exact Hk].
    + intros [Hk | (q & Hq & Hk)]; [auto |].
      apply elem_of_cons in Hq as [-> | Hq].
      * destruct Hk; auto.
      * right. eauto.
Qed.

Lemma elem_of_buildObstacles (players : list Player.t) pos :
  posKey pos ∈ buildObstacles players ↔ isObstacle players pos.
Proof.
  unfold buildObstacles, isObstacle.
  rewrite elem_of_fold_addPlayerObstacles. split.
  - intros [Hk | (p & Hp & Hk)]; [set_solver |].
    exists p. split; [exact Hp |].
    destruct Hk as [Hk | (t & Ht & Hk)].
    + left. apply posKey_inj. exact Hk.
    + right. apply posKey_inj in Hk. subst. exact Ht.
  - intros (p & Hp & [-> | Ht]); right; exists p; split; eauto.
Qed.

Lemma lethal_false (players : list Player.t) width height pos :
  lethal pos width height (buildObstacles players) = false
  ↔ survivable players width height pos.
Proof.
  unfold lethal, survivable, inBounds.
  rewrite !orb_false_iff, bool_decide_eq_false, elem_of_buildObstacles.
  rewrite !Z.ltb_ge, !Z.geb_leb, !Z.leb_gt. intuition lia.
Qed.

(** The loop over the candidate moves keeps a best move that is either the
    initial one, with the initial score -1, or a move that survives. *)
Section AILoop.
Variables (head : Coordinate.t) (width height : Z) (players : list Player.t).
Variable currentDir : Direction.

Local Abbreviation step := (considerMove head width height (buildObstacles players)).
Local Abbreviation safeDir :=
  (fun d => survivable players width height (getNextPosition head d)).
Local Abbreviation bestSafe := (aiBestSafe head width height players).
Local Abbreviation loopInv := (aiLoopInv head width height players currentDir).

Lemma considerMove_keeps_safe best move : bestSafe best → bestSafe (step best move).
Proof.
  intros Hsafe. unfold considerMove.
  destruct (lethal _ _ _ _) eqn:Hl; [exact Hsafe |].
  apply lethal_false in Hl.
  destruct (_ >? _); [| exact Hsafe].
  split; [exact Hl | apply floodFillCount_nonneg].
Qed.

Lemma considerMove_finds_safe best move :
  loopInv best → safeDir (Move.dir move) → bestSafe (step best move).
Proof.
  intros Hinv Hsafe. unfold considerMove.
  rewrite (proj2 (lethal_false players width height _) Hsafe).
  pose proof (floodFillCount_nonneg (getNextPosition head (Move.dir move))
                width height (buildObstacles players) DEFAULT_DEPTH) as Hnn.
  destruct (Z.gtb_spec
              (floodFillCount (getNextPosition head (Move.dir move)) width
                 height (buildObstacles players) DEFAULT_DEPTH) best.2)
    as [Hgt | Hle].
  - split; assumption.
  - destruct Hinv as [-> | Hok]; [simpl in Hle; lia | exact Hok].
Qed.

Lemma considerMove_lethal best move :
  ¬ safeDir (Move.dir move) → step best move = best.
Proof.
  intros Hns. unfold considerMove.
  destruct (lethal _ _ _ _) eqn:Hl; [reflexivity |].
  apply lethal_false in Hl. contradiction.
Qed.

Lemma aiLoop_keeps_safe moves :
  ∀ best, bestSafe best → bestSafe (fold_left step moves best).
Proof.
  induction moves as [| m moves IH]; intros best Hsafe; simpl.
  - exact Hsafe.
  - apply IH, considerMove_keeps_safe, Hsafe.
Qed.

Lemma aiLoop_safe moves :
  ∀ best, loopInv best →
    (∃ m, m ∈ moves ∧ safeDir (Move.dir m)) →
    bestSafe (fold_left step moves best).
Proof.
  induction moves as [| m moves IH]; intros best Hinv (m' & Hin & Hsafe).
  - inversion Hin.
  - simpl. apply elem_of_cons in Hin as [-> | Hin].
    + apply aiLoop_keeps_safe, considerMove_finds_safe; assumption.
    + destruct (lethal (getNextPosition head (Move.dir m)) width height
                  (buildObstacles players)) eqn:Hl.
      * rewrite considerMove_lethal; [apply IH; eauto |].
        intros Hs. apply lethal_false in Hs. congruence.
      * apply aiLoop_keeps_safe, considerMove_finds_safe;
          [exact Hinv | apply lethal_false, Hl].
Qed.

Lemma aiLoop_all_lethal moves :
  ∀ best, (∀ m, m ∈ moves → ¬ safeDir (Move.dir m)) →
    fold_left step moves best = best.
Proof.
  induction moves as [| m moves IH]; intros best Hall; simpl.
  - reflexivity.
  - rewrite considerMove_lethal by (apply Hall; left).
    apply IH. intros m' Hm'. apply Hall. right. exact Hm'.
Qed.

End AILoop.

Lemma elem_of_possibleMoves m d :
  m ∈ possibleMoves d → Move.dir m ∈ candidates d.
Proof. unfold possibleMoves, candidates. set_solver. Qed.

Lemma candidate_in_possibleMoves d c :
  c ∈ candidates d → ∃ m, m ∈ possibleMoves d ∧ Move.dir m = c.
Proof.
  unfold candidates, possibleMoves. intros Hc.
  repeat (apply elem_of_cons in Hc as [-> | Hc]).
  - exists (Move.mk d "straight"). split; [set_solver | reflexivity].
  - exists (Move.mk (turnLeft d) "left"). split; [set_solver | reflexivity].
  - exists (Move.mk (turnRight d) "right"). split; [set_solver | reflexivity].
  - inversion Hc.
Qed.

(** C1. Whenever one of the three candidate moves (straight, left, right of
    the facing) leads to a cell that is in bounds and is neither a trail cell
    nor a head, the direction [getAIMove] returns leads to such a cell; and
    when the three candidates are all lethal at once, [getAIMove] returns the
    agent's current direction.  This holds for every outcome of the shuffle. *)
Theorem getAIMove_avoids_immediate_death seed aiPlayer (players : list Player.t)
    width height :
  ((∃ d, d ∈ candidates (Player.direction aiPlayer)
         ∧ survivable players width height
             (getNextPosition (Player.head aiPlayer) d)) →
   survivable players width height
     (getNextPosition (Player.head aiPlayer)
        (getAIMove seed aiPlayer players width height)))
  ∧ ((∀ d, d ∈ candidates (Player.direction aiPlayer) →
           ¬ survivable players width height
               (getNextPosition (Player.head aiPlayer) d)) →
     getAIMove seed aiPlayer players width height = Player.direction aiPlayer).
Proof.
  unfold getAIMove. split.
  - intros (d & Hd & Hsafe).
    apply (aiLoop_safe (Player.head aiPlayer) width height players
             (Player.direction aiPlayer)).
    + left. reflexivity.
    + destruct (candidate_in_possibleMoves _ _ Hd) as (m & Hm & <-).
      exists m. split; [| exact Hsafe].
      rewrite shuffle_Permutation. exact Hm.
  - intros Hall. rewrite aiLoop_all_lethal; [reflexivity |].
    intros m Hm. rewrite shuffle_Permutation in Hm.
    apply Hall, elem_of_possibleMoves, Hm.
Qed.

Lemma getAIMove_avoids_immediate_death_witness :
  survivable (Game.players aiQueueGame) 10 10
    (getNextPosition (Player.head cpuPlayer)
       (getAIMove 4 cpuPlayer (Game.players aiQueueGame) 10 10))
  ∧ getAIMove 4 boxedPlayer [boxedPlayer] 10 10 = Player.direction boxedPlayer.
Proof.
  split.
  - apply (proj1 (getAIMove_avoids_immediate_death 4 cpuPlayer
                    (Game.players aiQueueGame) 10 10)).
    exists DOWN. split.
    + right. left.
    + apply lethal_false. vm_compute. reflexivity.
  - apply (proj2 (getAIMove_avoids_immediate_death 4 boxedPlayer
                    [boxedPlayer] 10 10)).
    intros d Hd Hs. apply lethal_false in Hs. revert Hs.
    repeat (apply elem_of_cons in Hd as [-> | Hd]);
      [vm_compute; discriminate .. | inversion Hd].
Defined.

(** ** The walkers *)

Lemma elem_of_validMoves m pos width height :
  m ∈ validMoves pos width height ↔ m ∈ neighbors pos ∧ inBounds m width height.
Proof.
  unfold validMoves, inBounds. rewrite !list_elem_of_In, filter_In.
  rewrite !andb_true_iff, !Z.geb_leb, !Z.leb_le, !Z.ltb_lt. intuition lia.
Qed.

Lemma neighbors_ne pos n : n ∈ neighbors pos → n ≠ pos.
Proof.
  unfold neighbors. destruct pos as [px py]. simpl. intros Hn.
  repeat (apply elem_of_cons in Hn as [-> | Hn]);
    [intros [=]; lia ..|inversion Hn].
Qed.

Lemma getWalkerMove_cases pick pos width height obstacles :
  (validMoves pos width height = []
   ∧ getWalkerMove pick pos width height obstacles = pos)
  ∨ getWalkerMove pick pos width height obstacles ∈ validMoves pos width height.
Proof.
  unfold getWalkerMove.
  destruct (validMoves pos width height) as [| m moves] eqn:Hmoves.
  - left. split; reflexivity.
  - right. rewrite <- Hmoves.
    assert (Hlen : (length (validMoves pos width height) ≠ 0)%nat)
      by (rewrite Hmoves; simpl; lia).
    apply Nat.eqb_neq in Hlen as Hneq. rewrite Hneq.
    apply list_elem_of_In, nth_In, Nat.mod_upper_bound, Hlen.
Qed.

Lemma no_valid_neighbor pos width height :
  validMoves pos width height = []
  ↔ ∀ n, n ∈ neighbors pos → ¬ inBounds n width height.
Proof.
  split.
  - intros Hnil n Hn Hb.
    assert (Hin : n ∈ validMoves pos width height)
      by (apply elem_of_validMoves; auto).
    rewrite Hnil in Hin. inversion Hin.
  - intros Hall. destruct (validMoves pos width height) as [| m moves] eqn:Hm;
      [reflexivity |].
    assert (Hin : m ∈ validMoves pos width height) by (rewrite Hm; left).
    apply elem_of_validMoves in Hin as [Hn Hb]. destruct (Hall m Hn Hb).
Qed.

Lemma no_neighbor_in_bounds_iff pos width height :
  inBounds pos width height →
  ((∀ n, n ∈ neighbors pos → ¬ inBounds n width height)
   ↔ width = 1 ∧ height = 1).
Proof.
  destruct pos as [px py]. unfold inBounds, neighbors. simpl. intros [Hx Hy]. split.
  - intros Hall.
    assert (H1 := Hall (Coordinate.mk (px + 1) py)).
    assert (H2 := Hall (Coordinate.mk (px - 1) py)).
    assert (H3 := Hall (Coordinate.mk px (py + 1))).
    assert (H4 := Hall (Coordinate.mk px (py - 1))).
    simpl in *.
    assert (¬ (0 <= px + 1 < width ∧ 0 <= py < height)) by (apply H1; set_solver).
    assert (¬ (0 <= px - 1 < width ∧ 0 <= py < height)) by (apply H2; set_solver).
    assert (¬ (0 <= px < width ∧ 0 <= py + 1 < height)) by (apply H3; set_solver).
    assert (¬ (0 <= px < width ∧ 0 <= py - 1 < height)) by (apply H4; set_solver).
    lia.
  - intros [-> ->] n Hn.
    repeat (apply elem_of_cons in Hn as [-> | Hn]); simpl; [lia .. | inversion Hn].
Qed.

Lemma getWalkerMove_spec pick pos width height obstacles :
  let r := getWalkerMove pick pos width height obstacles in
  ((r ∈ neighbors pos ∧ inBounds r width height) ∨ r = pos)
  ∧ (r = pos ↔ ∀ n, n ∈ neighbors pos → ¬ inBounds n width height).
Proof.
  intros r. subst r.
  destruct (getWalkerMove_cases pick pos width height obstacles) as [[Hnil Heq] | Hin].
  - split; [right; exact Heq |].
    split; [intros _; apply no_valid_neighbor, Hnil | intros _; exact Heq].
  - apply elem_of_validMoves in Hin as [Hn Hb]. split; [left; auto |].
    split.
    + intros Heq. apply neighbors_ne in Hn. contradiction.
    + intros Hall. destruct (Hall _ Hn Hb).
Qed.

Lemma stepWalker_spec pick width height wk :
  Walker.id (stepWalker pick width height wk) = Walker.id wk
  ∧ ((Walker.moveTimer wk + 1 >= WALKER_SPEED_MOD
      ∧ Walker.moveTimer (stepWalker pick width height wk) = 0
      ∧ Walker.position (stepWalker pick width height wk)
        = getWalkerMove pick (Walker.position wk) width height ∅)
     ∨ (Walker.moveTimer wk + 1 < WALKER_SPEED_MOD
        ∧ Walker.moveTimer (stepWalker pick width height wk)
          = Walker.moveTimer wk + 1
        ∧ Walker.position (stepWalker pick width height wk)
          = Walker.position wk)).
Proof.
  unfold stepWalker.
  destruct (Z.geb_spec (Walker.moveTimer wk + 1) WALKER_SPEED_MOD); simpl;
    (split; [reflexivity |]); [left | right]; repeat split; lia.
Qed.

(** ** The turn queue *)

Lemma turnLeft_ne d : turnLeft d ≠ d.
Proof. destruct d; discriminate. Qed.

Lemma turnRight_turnLeft d : turnRight (turnLeft d) = d.
Proof. destruct d; reflexivity. Qed.

Lemma turned_ne turn d : turned turn d ≠ d.
Proof. destruct turn, d; discriminate. Qed.

Lemma registerTurn_appends g playerId turn queue lastDir :
  Game.inputQueue g !! playerId = Some queue →
  (length queue <= 2)%nat →
  match last queue with
  | Some d => Some d
  | None => Player.direction
              <$> Game.players g !! (if playerId =? 1 then 0%nat else 1%nat)
  end = Some lastDir →
  ∃ g', registerTurn playerId turn g = Some g'
        ∧ Game.inputQueue g'
          = <[playerId := queue ++ [turned turn lastDir]]> (Game.inputQueue g)
        ∧ Game.players g' = Game.players g.
Proof.
  intros Hq Hlen Hlast. unfold registerTurn. rewrite Hq. simpl.
  destruct (Nat.ltb_spec 2 (length queue)) as [Hfull | _]; [lia |].
  rewrite Hlast. simpl.
  replace (match turn with
           | TurnLeft => dirOfZ ((dirToZ lastDir + 3) mod 4)
           | TurnRight => dirOfZ ((dirToZ lastDir + 1) mod 4)
           end) with (turned turn lastDir) by (destruct turn; reflexivity).
  rewrite bool_decide_eq_true_2 by apply turned_ne.
  eexists. split; [reflexivity |]. simpl. auto.
Qed.

Lemma registerTurn_left_then_right g playerId d :
  Game.inputQueue g !! playerId = Some [] →
  Player.direction <$> Game.players g !! (if playerId =? 1 then 0%nat else 1%nat)
    = Some d →
  ∃ g2, registerTurn playerId TurnLeft g ≫= registerTurn playerId TurnRight = Some g2
        ∧ Game.inputQueue g2 !! playerId = Some [turnLeft d; d]
        ∧ Game.players g2 = Game.players g.
Proof.
  intros Hq Hd.
  destruct (registerTurn_appends g playerId TurnLeft [] d Hq)
    as (g1 & Hg1 & Hq1 & Hp1); [simpl; lia | exact Hd |].
  destruct (registerTurn_appends g1 playerId TurnRight [turnLeft d] (turnLeft d))
    as (g2 & Hg2 & Hq2 & Hp2).
  { rewrite Hq1. apply lookup_insert_eq. }
  { simpl. lia. }
  { reflexivity. }
  exists g2. rewrite Hg1. simpl. split; [exact Hg2 |].
  rewrite Hq2, lookup_insert_eq, Hp2, Hp1. simpl. rewrite turnRight_turnLeft. auto.
Qed.

(** C3 (as the code has it). From an empty queue and the current direction
    [d], a LEFT request followed by a RIGHT request leaves both queued: the
    queue is [turnLeft d; d], two entries.  [registerTurn] compares the
    requested direction with the pending one (the last queued, else the
    current one), and a quarter turn always differs from it. *)
Theorem registerTurn_reversal_is_queued g playerId d :
  Game.inputQueue g !! playerId = Some [] →
  Player.direction <$> Game.players g !! (if playerId =? 1 then 0%nat else 1%nat)
    = Some d →
  ∃ g2, registerTurn playerId TurnLeft g ≫= registerTurn playerId TurnRight
        = Some g2
        ∧ Game.inputQueue g2 !! playerId = Some [turnLeft d; d]
        ∧ turnLeft d ≠ d.
Proof.
  intros Hq Hd.
  destruct (registerTurn_left_then_right g playerId d Hq Hd) as (g2 & Hrun & Hq2 & _).
  exists g2. split; [exact Hrun |]. split; [exact Hq2 | apply turnLeft_ne].
Qed.

Lemma registerTurn_reversal_is_queued_witness :
  ∃ g2, registerTurn 1 TurnLeft swapGame ≫= registerTurn 1 TurnRight = Some g2
        ∧ Game.inputQueue g2 !! 1 = Some [turnLeft RIGHT; RIGHT]
        ∧ turnLeft RIGHT ≠ RIGHT.
Proof.
  apply (registerTurn_reversal_is_queued swapGame 1 RIGHT); reflexivity.
Defined.

(** C3, the claim as stated fails: for the first player of [swapGame], who
    faces right with an empty queue, LEFT then RIGHT leaves the two entries
    [UP; RIGHT] in the queue, not the single entry [UP]. *)
Lemma registerTurn_reversal_not_dropped :
  ∃ g2, registerTurn 1 TurnLeft swapGame ≫= registerTurn 1 TurnRight = Some g2
        ∧ Game.inputQueue g2 !! 1 = Some [UP; RIGHT]
        ∧ Game.inputQueue g2 !! 1 ≠ Some [UP]
        ∧ length [UP; RIGHT] ≠ 1%nat.
Proof.
  eexists. split; [vm_compute; reflexivity |].
  split; [reflexivity |]. split; discriminate.
Qed.

(** ** Step 1 of the tick: queued turns and the AI *)

Lemma sameButDirection_refl p : sameButDirection p p.
Proof. destruct p. reflexivity. Qed.

Lemma sameButDirection_setDirection p q d :
  sameButDirection p q → sameButDirection p (setDirection d q).
Proof. unfold sameButDirection. intros ->. destruct p. reflexivity. Qed.

Lemma sameButDirection_dequeueTurn pending p :
  sameButDirection p (dequeueTurn pending p).
Proof.
  destruct pending; simpl;
    [| apply sameButDirection_setDirection]; apply sameButDirection_refl.
Qed.

Lemma sameButDirection_applyAI seed mode width height before after p q :
  sameButDirection p q →
  sameButDirection p (applyAI seed mode width height before after q).
Proof.
  intros Hpq. unfold applyAI. destruct (isAI mode q); [| exact Hpq].
  destruct (bool_decide _); [apply sameButDirection_setDirection |]; exact Hpq.
Qed.

Lemma sameButDirection_fields p q :
  sameButDirection p q →
  Player.id q = Player.id p ∧ Player.name q = Player.name p
  ∧ Player.head q = Player.head p ∧ Player.trail q = Player.trail p
  ∧ Player.isDead q = Player.isDead p.
Proof. unfold sameButDirection. intros ->. destruct p. simpl. auto. Qed.

Lemma processInputs_shape e mode width height todo :
  ∀ done queues ps qs,
    processInputs e mode width height done todo queues = Some (ps, qs) →
    ∃ todo', ps = done ++ todo' ∧ Forall2 sameButDirection todo todo'.
Proof.
  induction todo as [| p rest IH]; intros done queues ps qs Hrun; simpl in Hrun.
  - injection Hrun as <- <-. exists []. rewrite app_nil_r. split; constructor.
  - destruct (Player.isDead p).
    + apply IH in Hrun as (todo' & -> & Hall). exists (p :: todo').
      rewrite <- app_assoc. split; [reflexivity |].
      constructor; [apply sameButDirection_refl | exact Hall].
    + destruct (queues !! Player.id p) as [pending |]; [| discriminate].
      apply IH in Hrun as (todo' & -> & Hall).
      eexists (_ :: todo'). rewrite <- app_assoc. split; [reflexivity |].
      constructor; [| exact Hall].
      apply sameButDirection_applyAI, sameButDirection_dequeueTurn.
Qed.

Lemma processInputs_queue_other e mode width height todo :
  ∀ done queues ps qs i,
    processInputs e mode width height done todo queues = Some (ps, qs) →
    i ∉ map Player.id todo → qs !! i = queues !! i.
Proof.
  induction todo as [| p rest IH]; intros done queues ps qs i Hrun Hi;
    simpl in Hrun.
  - injection Hrun as <- <-. reflexivity.
  - simpl in Hi. apply not_elem_of_cons in Hi as [Hne Hi].
    destruct (Player.isDead p).
    + eapply IH; eassumption.
    + destruct (queues !! Player.id p) as [pending |]; [| discriminate].
      rewrite (IH _ _ _ _ i Hrun Hi).
      destruct pending; [reflexivity |].
      apply lookup_insert_ne. congruence.
Qed.

Lemma fold_addPlayerObstacles_cells (ps ps' : list Player.t) :
  cells ps = cells ps' →
  ∀ obstacles, fold_left addPlayerObstacles ps obstacles
               = fold_left addPlayerObstacles ps' obstacles.
Proof.
  revert ps'. induction ps as [| p ps IH]; intros [| p' ps'] Hc obstacles;
    try discriminate; [reflexivity |].
  simpl in *. injection Hc as Hh Ht Hc. unfold addPlayerObstacles at 2 4.
  rewrite Hh, Ht. apply IH, Hc.
Qed.

Lemma getAIMove_cells seed p (ps ps' : list Player.t) width height :
  cells ps = cells ps' →
  getAIMove seed p ps width height = getAIMove seed p ps' width height.
Proof.
  intros Hc. unfold getAIMove, buildObstacles.
  rewrite (fold_addPlayerObstacles_cells ps ps' Hc). reflexivity.
Qed.

Lemma cells_middle before p q after :
  sameButDirection p q → cells (before ++ q :: after) = cells (before ++ p :: after).
Proof.
  intros H. apply sameButDirection_fields in H as (_ & _ & Hh & Ht & _).
  unfold cells. rewrite !map_app. simpl. rewrite Hh, Ht. reflexivity.
Qed.

Lemma applyAI_direction seed mode width height before after all p :
  cells (before ++ p :: after) = cells all →
  Player.direction (applyAI seed mode width height before after p)
  = if isAI mode p then getAIMove seed p all width height
    else Player.direction p.
Proof.
  intros Hc. unfold applyAI. destruct (isAI mode p); [| reflexivity].
  rewrite (getAIMove_cells _ _ _ _ _ _ Hc).
  destruct (bool_decide _) eqn:Hd.
  - reflexivity.
  - apply bool_decide_eq_false in Hd.
    destruct (decide (getAIMove seed p all width height = Player.direction p));
      [congruence | contradiction].
Qed.

Lemma isAI_sameButDirection mode p q :
  sameButDirection p q → isAI mode q = isAI mode p.
Proof.
  intros H. apply sameButDirection_fields in H as (Hid & _).
  unfold isAI. rewrite Hid. reflexivity.
Qed.

Lemma processInputs_lookup e mode width height all todo :
  ∀ done queues ps qs,
    processInputs e mode width height done todo queues = Some (ps, qs) →
    cells (done ++ todo) = cells all →
    NoDup (map Player.id todo) →
    ∀ k p, todo !! k = Some p → Player.isDead p = false →
      ∃ pending p',
        queues !! Player.id p = Some pending
        ∧ ps !! (length done + k)%nat = Some p'
        ∧ Player.direction p'
          = facingAfterInputs (aiDraw e (length done + k)%nat) mode width height
              all pending p
        ∧ qs !! Player.id p = Some (tail pending).
Proof.
  induction todo as [| p0 rest IH];
    intros done queues ps qs Hrun Hcells Hnd k p Hk Halive; [inversion Hk |].
  simpl in Hnd. apply NoDup_cons in Hnd as [Hfresh Hnd].
  simpl in Hrun. destruct k as [| k]; simpl in Hk.
  - injection Hk as ->. rewrite Halive in Hrun.
    destruct (queues !! Player.id p) as [pending |] eqn:Hq; [| discriminate].
    exists pending.
    pose proof (sameButDirection_dequeueTurn pending p) as Hsame.
    pose proof (processInputs_queue_other _ _ _ _ _ _ _ _ _ _ Hrun Hfresh) as Hqs.
    apply processInputs_shape in Hrun as (todo' & -> & _).
    eexists. split; [reflexivity |]. split.
    { rewrite Nat.add_0_r, <- app_assoc. simpl. apply list_lookup_middle. reflexivity. }
    split.
    { rewrite applyAI_direction with (all := all).
      - unfold facingAfterInputs.
        rewrite (isAI_sameButDirection _ _ _ Hsame), Nat.add_0_r. reflexivity.
      - rewrite (cells_middle _ _ _ _ Hsame). exact Hcells. }
    rewrite Hqs. destruct pending; [exact Hq | apply lookup_insert_eq].
  - assert (Hne : Player.id p ≠ Player.id p0).
    { intros Heq. apply Hfresh. rewrite <- Heq.
      apply list_elem_of_fmap. exists p. split; [reflexivity |].
      eapply list_elem_of_lookup_2, Hk. }
    replace (length done + S k)%nat with (length (done ++ [p0]) + k)%nat
      by (rewrite length_app; simpl; lia).
    destruct (Player.isDead p0) eqn:Hd0.
    + eapply IH; try eassumption. rewrite <- app_assoc. exact Hcells.
    + destruct (queues !! Player.id p0) as [pending0 |] eqn:Hq0; [| discriminate].
      pose proof (sameButDirection_applyAI (aiDraw e (length done)) mode width
                    height done rest _ _ (sameButDirection_dequeueTurn pending0 p0))
        as Hsame.
      edestruct (IH _ _ _ _ Hrun) as (pending & p' & Hq & Hp' & Hdir & Hqs);
        [| exact Hnd | exact Hk | exact Halive |].
      { rewrite <- app_assoc. simpl.
        rewrite (cells_middle _ _ _ _ Hsame). exact Hcells. }
      exists pending, p'. rewrite length_app in Hp', Hdir. simpl in Hp', Hdir.
      rewrite length_app. simpl.
      split; [| auto].
      rewrite <- Hq. destruct pending0; [reflexivity |].
      symmetry. apply lookup_insert_ne. congruence.
Qed.

(** *** Deaths *)

Lemma deadOrSame_refl p : deadOrSame p p.
Proof. left. reflexivity. Qed.

Lemma deadOrSame_trans p q r : deadOrSame p q → deadOrSame q r → deadOrSame p r.
Proof.
  unfold deadOrSame. intros [-> | ->] [-> | ->]; auto.
Qed.

Lemma deadOrSame_fields p q :
  deadOrSame p q →
  Player.id q = Player.id p ∧ Player.name q = Player.name p
  ∧ Player.head q = Player.head p ∧ Player.trail q = Player.trail p
  ∧ Player.direction q = Player.direction p
  ∧ (Player.isDead p = true → Player.isDead q = true).
Proof. intros [-> | ->]; destruct p; simpl; auto 10. Qed.

Lemma Forall2_deadOrSame_refl players : Forall2 deadOrSame players players.
Proof. induction players; constructor; [apply deadOrSame_refl | assumption]. Qed.

Lemma markDead_shape i players : Forall2 deadOrSame players (markDead i players).
Proof.
  induction players as [| p rest IH]; simpl; [constructor |].
  destruct (Player.id p =? i).
  - constructor; [right; reflexivity | apply Forall2_deadOrSame_refl].
  - constructor; [apply deadOrSame_refl | exact IH].
Qed.

Lemma applyDeaths_shape deaths :
  ∀ players, Forall2 deadOrSame players (applyDeaths deaths players).
Proof.
  unfold applyDeaths.
  induction deaths as [| i deaths IH]; intros players; simpl.
  - apply Forall2_deadOrSame_refl.
  - eapply Forall2_trans; [| apply markDead_shape | apply IH].
    intros p q r. apply deadOrSame_trans.
Qed.

Lemma Forall2_deadOrSame_ids players players' :
  Forall2 deadOrSame players players' →
  map Player.id players' = map Player.id players.
Proof.
  induction 1 as [| p q ps qs Hpq _ IH]; simpl; [reflexivity |].
  apply deadOrSame_fields in Hpq as (-> & _). rewrite IH. reflexivity.
Qed.

Lemma markDead_kills i players :
  ∀ k p, NoDup (map Player.id players) → players !! k = Some p →
         Player.id p = i → markDead i players !! k = Some (setDead p).
Proof.
  induction players as [| p0 rest IH]; intros k p Hnd Hk Hid; [inversion Hk |].
  simpl in Hnd. apply NoDup_cons in Hnd as [Hfresh Hnd]. simpl.
  destruct k as [| k]; simpl in Hk.
  - injection Hk as ->. rewrite Hid, Z.eqb_refl. reflexivity.
  - destruct (Z.eqb_spec (Player.id p0) i) as [Heq | Hne].
    + exfalso. apply Hfresh. rewrite Heq, <- Hid.
      apply list_elem_of_fmap. exists p. split; [reflexivity |].
      eapply list_elem_of_lookup_2, Hk.
    + simpl. apply IH; assumption.
Qed.

Lemma applyDeaths_kills deaths :
  ∀ players k p i,
    NoDup (map Player.id players) → players !! k = Some p →
    Player.id p = i → i ∈ deaths →
    ∃ q, applyDeaths deaths players !! k = Some q ∧ Player.isDead q = true.
Proof.
  induction deaths as [| d deaths IH]; intros players k p i Hnd Hk Hid Hin;
    [inversion Hin |].
  change (applyDeaths (d :: deaths) players)
    with (applyDeaths deaths (markDead d players)).
  destruct (decide (d = i)) as [-> | Hne].
  - pose proof (markDead_kills i players k p Hnd Hk Hid) as Hkill.
    destruct (Forall2_lookup_l _ _ _ _ _ (applyDeaths_shape deaths _) Hkill)
      as (q & Hq & Hshape).
    exists q. split; [exact Hq |].
    apply deadOrSame_fields in Hshape as (_ & _ & _ & _ & _ & Hdead).
    apply Hdead. destruct p. reflexivity.
  - apply elem_of_cons in Hin as [-> | Hin]; [contradiction |].
    destruct (Forall2_lookup_l _ _ _ _ _ (markDead_shape d players) Hk)
      as (p1 & Hp1 & Hshape).
    apply (IH (markDead d players) k p1 i).
    + rewrite (Forall2_deadOrSame_ids _ _ (markDead_shape d players)). exact Hnd.
    + exact Hp1.
    + apply deadOrSame_fields in Hshape as (-> & _). exact Hid.
    + exact Hin.
Qed.

(** *** The collision pass *)

Lemma pushUnique_incl deaths i j : i ∈ deaths → i ∈ pushUnique deaths j.
Proof.
  unfold pushUnique. destruct (bool_decide _); [auto |].
  intros H. apply elem_of_app. left. exact H.
Qed.

Lemma walkerHits_incl (head : Coordinate.t) (i j : Z) (walkers : list Walker.t) :
  ∀ deaths, i ∈ deaths →
    i ∈ fold_left (fun ds w => if sameCell head (Walker.position w)
                               then pushUnique ds j else ds) walkers deaths.
Proof.
  induction walkers as [| w walkers IH]; intros deaths Hin; simpl; [exact Hin |].
  apply IH. destruct (sameCell _ _); [apply pushUnique_incl |]; exact Hin.
Qed.

Lemma detectCollisions_incl width height players walkers deaths p i :
  i ∈ deaths → i ∈ detectCollisions width height players walkers deaths p.
Proof.
  intros Hin. unfold detectCollisions. destruct (Player.isDead p); [exact Hin |].
  assert (H2 : i ∈ fold_left
                 (fun ds w => if sameCell (Player.head p) (Walker.position w)
                              then pushUnique ds (Player.id p) else ds)
                 walkers
                 (if checkCollision (Player.head p) width height players
                  then deaths ++ [Player.id p] else deaths)).
  { apply walkerHits_incl. destruct (checkCollision _ _ _ _); [| exact Hin].
    apply elem_of_app. left. exact Hin. }
  destruct (List.find _ players) as [opponent |]; [| exact H2].
  destruct (_ && _); [| exact H2]. do 2 apply pushUnique_incl. exact H2.
Qed.

Lemma detectCollisions_hit width height players walkers deaths p :
  Player.isDead p = false →
  checkCollision (Player.head p) width height players = true →
  Player.id p ∈ detectCollisions width height players walkers deaths p.
Proof.
  intros Halive Hhit. unfold detectCollisions. rewrite Halive, Hhit.
  assert (H2 : Player.id p ∈ fold_left
                 (fun ds w => if sameCell (Player.head p) (Walker.position w)
                              then pushUnique ds (Player.id p) else ds)
                 walkers (deaths ++ [Player.id p])).
  { apply walkerHits_incl, elem_of_app. right. left. }
  destruct (List.find _ players) as [opponent |]; [| exact H2].
  destruct (_ && _); [| exact H2]. do 2 apply pushUnique_incl. exact H2.
Qed.

Lemma collisionPass_incl width height players walkers todo :
  ∀ deaths i, i ∈ deaths →
    i ∈ fold_left (detectCollisions width height players walkers) todo deaths.
Proof.
  induction todo as [| p todo IH]; intros deaths i Hin; simpl; [exact Hin |].
  apply IH, detectCollisions_incl, Hin.
Qed.

Lemma collisionPass_hit width height players walkers todo :
  ∀ deaths p, p ∈ todo → Player.isDead p = false →
    checkCollision (Player.head p) width height players = true →
    Player.id p ∈ fold_left (detectCollisions width height players walkers)
                    todo deaths.
Proof.
  induction todo as [| p0 todo IH]; intros deaths p Hin Halive Hhit;
    [inversion Hin |].
  simpl. apply elem_of_cons in Hin as [<- | Hin].
  - apply collisionPass_incl, detectCollisions_hit; assumption.
  - apply IH; assumption.
Qed.

(** *** The tick as a whole *)

Lemma checkWin_fields g :
  Game.players (checkWin g) = Game.players g
  ∧ Game.walkers (checkWin g) = Game.walkers g
  ∧ Game.inputQueue (checkWin g) = Game.inputQueue g
  ∧ Game.config (checkWin g) = Game.config g
  ∧ Game.mode (checkWin g) = Game.mode g.
Proof.
  unfold checkWin.
  destruct (List.filter _ (Game.players g)) as [| w [| w' rest]]; simpl; auto.
Qed.

Lemma updateGame_over e g : Game.isGameOver g = true → updateGame e g = Some g.
Proof. intros H. unfold updateGame. rewrite H. reflexivity. Qed.

Lemma updateGame_running e g g' :
  Game.isGameOver g = false → updateGame e g = Some g' →
  ∃ players1 queues,
    processInputs e (Game.mode g) (GameConfig.gridWidth (Game.config g))
      (GameConfig.gridHeight (Game.config g)) [] (Game.players g)
      (Game.inputQueue g) = Some (players1, queues)
    ∧ g' = checkWin (afterCollisions e g players1 queues).
Proof.
  intros Hrun Hstep. unfold updateGame in Hstep. rewrite Hrun in Hstep.
  destruct (processInputs _ _ _ _ _ _ _) as [[players1 queues] |] eqn:Hin;
    [| discriminate].
  simpl in Hstep. injection Hstep as <-. exists players1, queues.
  split; [reflexivity |]. unfold afterCollisions. rewrite Hrun. reflexivity.
Qed.

(** What a tick of a running match does to the player at index [i]: step 1
    changes at most its direction, step 3 moves it, step 5 may mark it
    dead. *)
Lemma tick_player_at e g players1 queues i p :
  processInputs e (Game.mode g) (GameConfig.gridWidth (Game.config g))
    (GameConfig.gridHeight (Game.config g)) [] (Game.players g)
    (Game.inputQueue g) = Some (players1, queues) →
  Game.players g !! i = Some p →
  ∃ q r,
    players1 !! i = Some q ∧ sameButDirection p q
    ∧ Game.players (checkWin (afterCollisions e g players1 queues)) !! i = Some r
    ∧ deadOrSame (movePlayer q) r.
Proof.
  intros Hin Hp.
  destruct (processInputs_shape _ _ _ _ _ _ _ _ _ Hin) as (todo' & Heq & Hall).
  simpl in Heq. subst todo'.
  destruct (Forall2_lookup_l _ _ _ _ _ Hall Hp) as (q & Hq & Hpq).
  assert (Hm : map movePlayer players1 !! i = Some (movePlayer q))
    by (rewrite list_lookup_fmap, Hq; reflexivity).
  destruct (checkWin_fields (afterCollisions e g players1 queues)) as (-> & _).
  unfold afterCollisions. simpl.
  destruct (Forall2_lookup_l _ _ _ _ _
              (applyDeaths_shape
                 (fold_left
                    (detectCollisions (GameConfig.gridWidth (Game.config g))
                       (GameConfig.gridHeight (Game.config g))
                       (map movePlayer players1)
                       (moveWalkers e (GameConfig.gridWidth (Game.config g))
                          (GameConfig.gridHeight (Game.config g))
                          (Game.walkers g)))
                    (map movePlayer players1) [])
                 (map movePlayer players1)) Hm) as (r & Hr & Hshape).
  exists q, r. auto.
Qed.

Lemma movePlayer_alive q :
  Player.isDead q = false →
  Player.id (movePlayer q) = Player.id q
  ∧ Player.head (movePlayer q) = getNextPosition (Player.head q) (Player.direction q)
  ∧ Player.trail (movePlayer q) = Player.trail q ++ [Player.head q]
  ∧ Player.direction (movePlayer q) = Player.direction q
  ∧ Player.isDead (movePlayer q) = false.
Proof. intros H. unfold movePlayer. rewrite H. simpl. auto. Qed.

Lemma movePlayer_dead q : Player.isDead q = true → movePlayer q = q.
Proof. intros H. unfold movePlayer. rewrite H. reflexivity. Qed.

Lemma movePlayer_id q : Player.id (movePlayer q) = Player.id q.
Proof. unfold movePlayer. destruct (Player.isDead q); reflexivity. Qed.

Lemma movePlayer_direction q : Player.direction (movePlayer q) = Player.direction q.
Proof. unfold movePlayer. destruct (Player.isDead q); reflexivity. Qed.

(** The trail of the player at index [i] over one call of [updateGame]. *)
Lemma tick_trail e g g' i p :
  updateGame e g = Some g' → Game.players g !! i = Some p →
  ∃ p', Game.players g' !! i = Some p'
    ∧ (Game.isGameOver g = false → Player.isDead p = false →
       length (Player.trail p') = S (length (Player.trail p))
       ∧ Player.trail p' = Player.trail p ++ [Player.head p])
    ∧ (Player.isDead p = true →
       Player.trail p' = Player.trail p ∧ Player.head p' = Player.head p
       ∧ Player.isDead p' = true)
    ∧ (length (Player.trail p) <= length (Player.trail p'))%nat.
Proof.
  intros Hstep Hp. destruct (Game.isGameOver g) eqn:Hover.
  - rewrite (updateGame_over e g Hover) in Hstep. injection Hstep as <-.
    exists p. split; [exact Hp |]. split; [discriminate |]. split; [auto | lia].
  - destruct (updateGame_running e g g' Hover Hstep) as (players1 & queues & Hin & ->).
    destruct (tick_player_at e g players1 queues i p Hin Hp)
      as (q & r & _ & Hpq & Hr & Hqr).
    exists r. split; [exact Hr |].
    apply sameButDirection_fields in Hpq as (_ & _ & Hh & Ht & Hd).
    apply deadOrSame_fields in Hqr as (_ & _ & Hh' & Ht' & _ & Hd').
    destruct (Player.isDead p) eqn:Hdead.
    + rewrite (movePlayer_dead q Hd) in Hh', Ht', Hd'.
      split; [discriminate |]. split; [| rewrite Ht', Ht; lia].
      intros _. rewrite Hh', Ht', Hh, Ht. auto.
    + destruct (movePlayer_alive q Hd) as (_ & _ & Htq & _).
      rewrite Htq, Ht, Hh in Ht'.
      split; [| split; [discriminate |]]; rewrite Ht', length_app; simpl;
        [intros _ _; split; [lia | reflexivity] | lia].
Qed.

Lemma Forall2_sameButDirection_ids players players' :
  Forall2 sameButDirection players players' →
  map Player.id players' = map Player.id players.
Proof.
  induction 1 as [| p q ps qs Hpq _ IH]; simpl; [reflexivity |].
  apply sameButDirection_fields in Hpq as (-> & _). rewrite IH. reflexivity.
Qed.

Lemma map_id_movePlayer players :
  map Player.id (map movePlayer players) = map Player.id players.
Proof.
  rewrite map_map. apply map_ext. intros p. apply movePlayer_id.
Qed.

(** An agent that is alive when a tick of a running match starts and whose
    new head lies on the trail some player has after the move is dead when
    the tick ends. *)
Lemma tick_runs_into_trail e g g' i j a a' b' :
  Game.isGameOver g = false → updateGame e g = Some g' →
  NoDup (map Player.id (Game.players g)) →
  Game.players g !! i = Some a → Player.isDead a = false →
  Game.players g' !! i = Some a' → Game.players g' !! j = Some b' →
  Player.head a' ∈ Player.trail b' →
  Player.isDead a' = true.
Proof.
  intros Hover Hstep Hnd Ha Halive Ha' Hb' Hhit.
  destruct (updateGame_running e g g' Hover Hstep) as (players1 & queues & Hin & ->).
  destruct (processInputs_shape _ _ _ _ _ _ _ _ _ Hin) as (todo' & Heq & Hall).
  simpl in Heq. subst todo'.
  destruct (checkWin_fields (afterCollisions e g players1 queues)) as (Hps & _).
  rewrite Hps in Ha', Hb'. unfold afterCollisions in Ha', Hb'. simpl in Ha', Hb'.
  set (width := GameConfig.gridWidth (Game.config g)) in *.
  set (height := GameConfig.gridHeight (Game.config g)) in *.
  set (moved := map movePlayer players1) in *.
  set (walkers := moveWalkers e width height (Game.walkers g)) in *.
  set (deaths := fold_left (detectCollisions width height moved walkers) moved []) in *.
  pose proof (applyDeaths_shape deaths moved) as Hshape.
  destruct (Forall2_lookup_r _ _ _ _ _ Hshape Ha') as (ma & Hma & Ha_shape).
  destruct (Forall2_lookup_r _ _ _ _ _ Hshape Hb') as (mb & Hmb & Hb_shape).
  apply deadOrSame_fields in Ha_shape as (Hid_a & _ & Hh_a & _).
  apply deadOrSame_fields in Hb_shape as (_ & _ & _ & Ht_b & _).
  (* the moved player at index i is alive *)
  destruct (Forall2_lookup_l _ _ _ _ _ Hall Ha) as (q & Hq & Hpq).
  assert (Hma' : moved !! i = Some (movePlayer q))
    by (unfold moved; rewrite list_lookup_fmap, Hq; reflexivity).
  rewrite Hma in Hma'. injection Hma' as ->.
  apply sameButDirection_fields in Hpq as (_ & _ & _ & _ & Hd).
  rewrite Halive in Hd. destruct (movePlayer_alive q Hd) as (_ & _ & _ & _ & Hmalive).
  (* so the collision pass records its id *)
  assert (Hin_deaths : Player.id (movePlayer q) ∈ deaths).
  { apply collisionPass_hit.
    - eapply list_elem_of_lookup_2, Hma.
    - exact Hmalive.
    - apply checkCollision_trail with (player := mb).
      + eapply list_elem_of_lookup_2, Hmb.
      + rewrite <- Hh_a, <- Ht_b. exact Hhit. }
  assert (Hnd' : NoDup (map Player.id moved)).
  { unfold moved. rewrite map_id_movePlayer,
      (Forall2_sameButDirection_ids _ _ Hall). exact Hnd. }
  destruct (applyDeaths_kills deaths moved i (movePlayer q)
              (Player.id (movePlayer q)) Hnd' Hma eq_refl Hin_deaths)
    as (a'' & Ha'' & Hdead).
  rewrite Ha' in Ha''. injection Ha'' as <-. exact Hdead.
Qed.

(** *** No exception: every player has a queue *)

Lemma processInputs_queue_dom e mode width height todo :
  ∀ done queues ps qs i,
    processInputs e mode width height done todo queues = Some (ps, qs) →
    is_Some (queues !! i) → is_Some (qs !! i).
Proof.
  induction todo as [| p rest IH]; intros done queues ps qs i Hrun Hi;
    simpl in Hrun.
  - injection Hrun as <- <-. exact Hi.
  - destruct (Player.isDead p); [eapply IH; eassumption |].
    destruct (queues !! Player.id p) as [pending |]; [| discriminate].
    eapply IH; [exact Hrun |].
    destruct pending; [exact Hi |].
    rewrite lookup_insert_is_Some. destruct (decide (Player.id p = i)); auto.
Qed.

Lemma processInputs_total e mode width height todo :
  ∀ done queues,
    (∀ i, i ∈ map Player.id todo → is_Some (queues !! i)) →
    is_Some (processInputs e mode width height done todo queues).
Proof.
  induction todo as [| p rest IH]; intros done queues Hcover; simpl.
  - eauto.
  - assert (Hrest : ∀ i, i ∈ map Player.id rest → is_Some (queues !! i))
      by (intros i Hi; apply Hcover; right; exact Hi).
    destruct (Player.isDead p); [apply IH, Hrest |].
    destruct (Hcover (Player.id p)) as [pending Hq]; [left |].
    rewrite Hq. apply IH. intros i Hi.
    destruct pending; [apply Hrest, Hi |].
    rewrite lookup_insert_is_Some. destruct (decide (Player.id p = i)); auto.
Qed.

(** A tick of a match in which every player has a queue returns, and every
    player still has a queue afterwards. *)
Lemma updateGame_total e g :
  queuesCover g → ∃ g', updateGame e g = Some g' ∧ queuesCover g'.
Proof.
  intros Hcover. destruct (Game.isGameOver g) eqn:Hover.
  - exists g. split; [apply updateGame_over, Hover | exact Hcover].
  - destruct (processInputs_total e (Game.mode g)
                (GameConfig.gridWidth (Game.config g))
                (GameConfig.gridHeight (Game.config g)) (Game.players g) []
                (Game.inputQueue g) Hcover) as [[players1 queues] Hin].
    exists (checkWin (afterCollisions e g players1 queues)). split.
    + unfold updateGame. rewrite Hover, Hin. simpl.
      unfold afterCollisions. rewrite Hover. reflexivity.
    + unfold queuesCover.
      destruct (checkWin_fields (afterCollisions e g players1 queues))
        as (-> & _ & -> & _).
      unfold afterCollisions. simpl.
      destruct (processInputs_shape _ _ _ _ _ _ _ _ _ Hin) as (todo' & Heq & Hall).
      simpl in Heq. subst todo'.
      rewrite (Forall2_deadOrSame_ids _ _ (applyDeaths_shape _ _)),
        map_id_movePlayer, (Forall2_sameButDirection_ids _ _ Hall).
      intros i Hi. eapply processInputs_queue_dom; [exact Hin | apply Hcover, Hi].
Qed.

Lemma ticks_total es :
  ∀ g, queuesCover g → ∃ g', ticks es g = Some g' ∧ queuesCover g'.
Proof.
  induction es as [| e es IH]; intros g Hcover; simpl.
  - eauto.
  - destruct (updateGame_total e g Hcover) as (g1 & -> & Hcover1). simpl.
    apply IH, Hcover1.
Qed.

Lemma initGame_queuesCover newWalkers g : queuesCover (initGame newWalkers g).
Proof.
  intros i Hi. unfold initGame, initPlayers in Hi. simpl in Hi.
  repeat (apply elem_of_cons in Hi as [-> | Hi]); [eauto .. | inversion Hi].
Qed.

Lemma NoDup_pair (a b : Z) : a ≠ b → NoDup [a; b].
Proof.
  intros Hne. apply NoDup_cons. split; [| apply NoDup_singleton].
  intros Hin. apply elem_of_cons in Hin as [-> | Hin]; [contradiction |].
  inversion Hin.
Qed.

(** C6. Over a tick of a running match the trail of an agent that is alive
    when the tick starts grows by exactly one cell (its head before the
    move); the trail and the head of an agent that is dead when [updateGame]
    is called are unchanged, and it stays dead; no call of [updateGame]
    shortens a trail. *)
Theorem trail_grows_by_one_while_alive e g g' i p :
  updateGame e g = Some g' → Game.players g !! i = Some p →
  ∃ p', Game.players g' !! i = Some p'
    ∧ (Game.isGameOver g = false → Player.isDead p = false →
       length (Player.trail p') = S (length (Player.trail p))
       ∧ Player.trail p' = Player.trail p ++ [Player.head p])
    ∧ (Player.isDead p = true →
       Player.trail p' = Player.trail p ∧ Player.head p' = Player.head p
       ∧ Player.isDead p' = true)
    ∧ (length (Player.trail p) <= length (Player.trail p'))%nat.
Proof. apply tick_trail. Qed.

Lemma trail_grows_by_one_while_alive_witness :
  ∃ p', Game.players (tickOf noEntropy pairGame) !! 0%nat = Some p'
    ∧ (Game.isGameOver pairGame = false →
       Player.isDead (newPlayer 1 "Player 1" P1_COLOR (Coordinate.mk 5 5) RIGHT)
       = false →
       length (Player.trail p') = 2%nat
       ∧ Player.trail p' = [Coordinate.mk 5 5] ++ [Coordinate.mk 5 5])
    ∧ (Player.isDead (newPlayer 1 "Player 1" P1_COLOR (Coordinate.mk 5 5) RIGHT)
       = true →
       Player.trail p' = [Coordinate.mk 5 5]
       ∧ Player.head p' = Coordinate.mk 5 5 ∧ Player.isDead p' = true)
    ∧ (1 <= length (Player.trail p'))%nat.
Proof.
  apply (trail_grows_by_one_while_alive noEntropy pairGame
           (tickOf noEntropy pairGame) 0%nat
           (newPlayer 1 "Player 1" P1_COLOR (Coordinate.mk 5 5) RIGHT)).
  - vm_compute. reflexivity.
  - reflexivity.
Defined.

(** C10. When two agents that are alive exchange their head cells in one
    tick of a running match (each new head is the head the other had before
    the move), both are dead when the tick ends: the head before the move is
    appended to its owner's trail before the collision pass, so each new head
    lies on the other's trail.  Player ids are pairwise distinct, as in every
    match. *)
Theorem head_swap_kills_both e g g' i j a b a' b' :
  Game.isGameOver g = false → updateGame e g = Some g' →
  NoDup (map Player.id (Game.players g)) →
  Game.players g !! i = Some a → Game.players g !! j = Some b →
  Player.isDead a = false → Player.isDead b = false →
  Game.players g' !! i = Some a' → Game.players g' !! j = Some b' →
  Player.head a' = Player.head b → Player.head b' = Player.head a →
  (Player.isDead a' = true ∧ Player.isDead b' = true)
  ∧ Player.trail a' = Player.trail a ++ [Player.head a]
  ∧ Player.trail b' = Player.trail b ++ [Player.head b].
Proof.
  intros Hover Hstep Hnd Ha Hb Halive Hblive Ha' Hb' Hab Hba.
  destruct (tick_trail e g g' i a Hstep Ha)
    as (a0 & Ha0 & Hgrow_a & _).
  destruct (tick_trail e g g' j b Hstep Hb)
    as (b0 & Hb0 & Hgrow_b & _).
  rewrite Ha' in Ha0. injection Ha0 as <-.
  rewrite Hb' in Hb0. injection Hb0 as <-.
  destruct (Hgrow_a Hover Halive) as [_ Hta].
  destruct (Hgrow_b Hover Hblive) as [_ Htb].
  split; [split |]; [| | auto].
  - eapply (tick_runs_into_trail e g g' i j a a' b'); try eassumption.
    rewrite Hab, Htb. apply elem_of_app. right. left.
  - eapply (tick_runs_into_trail e g g' j i b b' a'); try eassumption.
    rewrite Hba, Hta. apply elem_of_app. right. left.
Qed.

Lemma head_swap_kills_both_witness :
  (Player.isDead
     (Player.mk 1 "Player 1" P1_COLOR (Coordinate.mk 5 5)
        [Coordinate.mk 4 5; Coordinate.mk 4 5] RIGHT true 0) = true
   ∧ Player.isDead
       (Player.mk 2 "Player 2" P2_COLOR (Coordinate.mk 4 5)
          [Coordinate.mk 5 5; Coordinate.mk 5 5] LEFT true 0) = true)
  ∧ [Coordinate.mk 4 5; Coordinate.mk 4 5]
    = [Coordinate.mk 4 5] ++ [Coordinate.mk 4 5]
  ∧ [Coordinate.mk 5 5; Coordinate.mk 5 5]
    = [Coordinate.mk 5 5] ++ [Coordinate.mk 5 5].
Proof.
  apply (head_swap_kills_both noEntropy swapGame (tickOf noEntropy swapGame)
           0%nat 1%nat
           (newPlayer 1 "Player 1" P1_COLOR (Coordinate.mk 4 5) RIGHT)
           (newPlayer 2 "Player 2" P2_COLOR (Coordinate.mk 5 5) LEFT)
           (Player.mk 1 "Player 1" P1_COLOR (Coordinate.mk 5 5)
              [Coordinate.mk 4 5; Coordinate.mk 4 5] RIGHT true 0)
           (Player.mk 2 "Player 2" P2_COLOR (Coordinate.mk 4 5)
              [Coordinate.mk 5 5; Coordinate.mk 5 5] LEFT true 0)).
  - reflexivity.
  - vm_compute. reflexivity.
  - apply NoDup_pair. discriminate.
  - reflexivity.
  - reflexivity.
  - reflexivity.
  - reflexivity.
  - vm_compute. reflexivity.
  - vm_compute. reflexivity.
  - reflexivity.
  - reflexivity.
Defined.

(** *** The win condition *)

Lemma bumpScore_spec winnerId prev :
  (winnerId = 1 →
   Scores.p1 (bumpScore winnerId prev) = Scores.p1 prev + 1
   ∧ Scores.p2 (bumpScore winnerId prev) = Scores.p2 prev)
  ∧ (winnerId ≠ 1 →
     Scores.p1 (bumpScore winnerId prev) = Scores.p1 prev
     ∧ Scores.p2 (bumpScore winnerId prev) = Scores.p2 prev + 1).
Proof.
  unfold bumpScore. destruct (Z.eqb_spec winnerId 1); simpl; split; intros;
    auto; contradiction.
Qed.

Lemma checkWin_spec g :
  match alivePlayers (Game.players g) with
  | [] =>
      Game.status (checkWin g) = GAME_OVER
      ∧ Game.winner (checkWin g) = Some "DRAW"
      ∧ Game.scores (checkWin g) = Game.scores g
      ∧ Game.isGameOver (checkWin g) = true
  | [w] =>
      Game.status (checkWin g) = GAME_OVER
      ∧ Game.winner (checkWin g) = Some (Player.name w)
      ∧ Game.scores (checkWin g) = bumpScore (Player.id w) (Game.scores g)
      ∧ Game.isGameOver (checkWin g) = true
  | _ => checkWin g = g
  end.
Proof.
  unfold checkWin, alivePlayers.
  destruct (List.filter _ (Game.players g)) as [| w [| w' rest]]; simpl; auto.
Qed.

Lemma ticks_over es : ∀ g, Game.isGameOver g = true → ticks es g = Some g.
Proof.
  induction es as [| e es IH]; intros g Hover; simpl; [reflexivity |].
  rewrite (updateGame_over e g Hover). simpl. apply IH, Hover.
Qed.

(** Over a run of ticks the tallies change at most once, by one point. *)
Lemma ticks_score_once es :
  ∀ g gn, ticks es g = Some gn →
    Game.scores gn = Game.scores g
    ∨ (Game.isGameOver gn = true ∧ scoreTotal gn = scoreTotal g + 1).
Proof.
  induction es as [| e es IH]; intros g gn Hrun; simpl in Hrun.
  - injection Hrun as <-. left. reflexivity.
  - destruct (updateGame e g) as [g1 |] eqn:Hstep; [| discriminate].
    simpl in Hrun. destruct (Game.isGameOver g) eqn:Hover.
    + rewrite (updateGame_over e g Hover) in Hstep. injection Hstep as <-.
      apply IH, Hrun.
    + destruct (updateGame_running e g g1 Hover Hstep)
        as (players1 & queues & _ & ->).
      pose proof (checkWin_spec (afterCollisions e g players1 queues)) as Hwin.
      destruct (alivePlayers _) as [| w [| w' rest]].
      * destruct Hwin as (_ & _ & Hs & Hov).
        rewrite (ticks_over es _ Hov) in Hrun. injection Hrun as <-.
        left. exact Hs.
      * destruct Hwin as (_ & _ & Hs & Hov).
        rewrite (ticks_over es _ Hov) in Hrun. injection Hrun as <-.
        right. split; [exact Hov |]. unfold scoreTotal. rewrite Hs. simpl.
        unfold bumpScore. destruct (_ =? _); simpl; lia.
      * rewrite Hwin in Hrun. apply IH in Hrun. exact Hrun.
Qed.

(** C5. At the end of a tick of a running match: with no agent alive the
    status is GAME_OVER, the winner is DRAW and the tallies are unchanged;
    with exactly one agent alive the status is GAME_OVER, the winner is that
    agent and its tally (p1 for id 1, p2 otherwise) is incremented by one,
    the other being unchanged; with two or more alive status, winner and
    tallies are unchanged and the match is not over.  Once the match is over
    [updateGame] changes nothing, so over any run of ticks the tallies change
    at most once. *)
Theorem terminal_check e g g' :
  Game.isGameOver g = false → updateGame e g = Some g' →
  (alivePlayers (Game.players g') = [] →
   Game.status g' = GAME_OVER ∧ Game.winner g' = Some "DRAW"
   ∧ Game.scores g' = Game.scores g ∧ Game.isGameOver g' = true)
  ∧ (∀ w, alivePlayers (Game.players g') = [w] →
       Game.status g' = GAME_OVER ∧ Game.winner g' = Some (Player.name w)
       ∧ Game.isGameOver g' = true
       ∧ (Player.id w = 1 →
          Scores.p1 (Game.scores g') = Scores.p1 (Game.scores g) + 1
          ∧ Scores.p2 (Game.scores g') = Scores.p2 (Game.scores g))
       ∧ (Player.id w ≠ 1 →
          Scores.p1 (Game.scores g') = Scores.p1 (Game.scores g)
          ∧ Scores.p2 (Game.scores g') = Scores.p2 (Game.scores g) + 1))
  ∧ ((2 <= length (alivePlayers (Game.players g')))%nat →
     Game.status g' = Game.status g ∧ Game.winner g' = Game.winner g
     ∧ Game.scores g' = Game.scores g ∧ Game.isGameOver g' = false)
  ∧ (∀ es, Game.isGameOver g' = true → ticks es g' = Some g')
  ∧ (∀ es gn, ticks es g = Some gn →
       Game.scores gn = Game.scores g
       ∨ (Game.isGameOver gn = true ∧ scoreTotal gn = scoreTotal g + 1)).
Proof.
  intros Hover Hstep.
  destruct (updateGame_running e g g' Hover Hstep) as (players1 & queues & _ & ->).
  set (g0 := afterCollisions e g players1 queues).
  pose proof (checkWin_spec g0) as Hwin.
  destruct (checkWin_fields g0) as (Hps & _). rewrite Hps.
  split; [| split; [| split; [| split]]].
  - intros Hnil. rewrite Hnil in Hwin. exact Hwin.
  - intros w Hone. rewrite Hone in Hwin. destruct Hwin as (Hst & Hw & Hs & Hov).
    split; [exact Hst |]. split; [exact Hw |]. split; [exact Hov |].
    rewrite Hs. apply bumpScore_spec.
  - intros Hmany. destruct (alivePlayers (Game.players g0)) as [| w [| w' rest]];
      simpl in Hmany; [lia | lia |].
    rewrite Hwin. simpl. auto.
  - intros es Hov. apply ticks_over, Hov.
  - intros es gn. apply ticks_score_once.
Qed.

Lemma terminal_check_witness :
  Game.status (tickOf noEntropy swapGame) = GAME_OVER
  ∧ Game.winner (tickOf noEntropy swapGame) = Some "DRAW"
  ∧ Game.scores (tickOf noEntropy swapGame) = Game.scores swapGame
  ∧ Game.isGameOver (tickOf noEntropy swapGame) = true.
Proof.
  apply (proj1 (terminal_check noEntropy swapGame (tickOf noEntropy swapGame)
                  eq_refl ltac:(vm_compute; reflexivity))).
  vm_compute. reflexivity.
Defined.

(** C9. [getWalkerMove] returns an orthogonal neighbour of the current
    position that is in bounds, or the current position itself, and the
    latter exactly when no orthogonal neighbour is in bounds (for a walker
    inside the arena: exactly on the 1 x 1 grid).  In a tick a walker's timer
    is incremented; when it reaches [WALKER_SPEED_MOD] the timer becomes 0
    and the position becomes the result of [getWalkerMove]; otherwise the
    position is unchanged. *)
Theorem walker_motion :
  (∀ pick pos width height obstacles,
     let r := getWalkerMove pick pos width height obstacles in
     ((r ∈ neighbors pos ∧ inBounds r width height) ∨ r = pos)
     ∧ (r = pos ↔ ∀ n, n ∈ neighbors pos → ¬ inBounds n width height)
     ∧ (inBounds pos width height →
        ((∀ n, n ∈ neighbors pos → ¬ inBounds n width height)
         ↔ width = 1 ∧ height = 1)))
  ∧ (∀ e g g' j wk,
       Game.isGameOver g = false → updateGame e g = Some g' →
       Game.walkers g !! j = Some wk →
       ∃ wk', Game.walkers g' !! j = Some wk'
         ∧ Walker.id wk' = Walker.id wk
         ∧ ((Walker.moveTimer wk + 1 >= WALKER_SPEED_MOD
             ∧ Walker.moveTimer wk' = 0
             ∧ Walker.position wk'
               = getWalkerMove (walkerDraw e j) (Walker.position wk)
                   (GameConfig.gridWidth (Game.config g))
                   (GameConfig.gridHeight (Game.config g)) ∅)
            ∨ (Walker.moveTimer wk + 1 < WALKER_SPEED_MOD
               ∧ Walker.moveTimer wk' = Walker.moveTimer wk + 1
               ∧ Walker.position wk' = Walker.position wk))).
Proof.
  split.
  - intros pick pos width height obstacles r.
    destruct (getWalkerMove_spec pick pos width height obstacles) as [H1 H2].
    split; [exact H1 |]. split; [exact H2 |].
    apply no_neighbor_in_bounds_iff.
  - intros e g g' j wk Hover Hstep Hwk.
    destruct (updateGame_running e g g' Hover Hstep) as (players1 & queues & _ & ->).
    destruct (checkWin_fields (afterCollisions e g players1 queues))
      as (_ & -> & _).
    unfold afterCollisions, moveWalkers. simpl.
    rewrite list_lookup_imap, Hwk. simpl. eexists. split; [reflexivity |].
    apply stepWalker_spec.
Qed.

Lemma walker_motion_witness :
  ∃ wk', Game.walkers (tickOf noEntropy swapGame) !! 1%nat = Some wk'
    ∧ Walker.id wk' = 1
    ∧ ((1 + 1 >= WALKER_SPEED_MOD
        ∧ Walker.moveTimer wk' = 0
        ∧ Walker.position wk'
          = getWalkerMove (walkerDraw noEntropy 1) (Coordinate.mk 9 9) 10 10 ∅)
       ∨ (1 + 1 < WALKER_SPEED_MOD
          ∧ Walker.moveTimer wk' = 1 + 1
          ∧ Walker.position wk' = Coordinate.mk 9 9)).
Proof.
  apply (proj2 walker_motion noEntropy swapGame (tickOf noEntropy swapGame)
           1%nat (Walker.mk 1 (Coordinate.mk 9 9) 1)).
  - reflexivity.
  - vm_compute. reflexivity.
  - reflexivity.
Defined.

(** ** The wall scenario *)

(** * Further properties *)

(** ** Moves and turns *)

Lemma turnLeft_turnRight d : turnLeft (turnRight d) = d.
Proof. destruct d; reflexivity. Qed.

Lemma getNextPosition_neighbor head d : getNextPosition head d ∈ neighbors head.
Proof. destruct d; unfold neighbors; simpl; set_solver. Qed.

Lemma getNextPosition_inj head d d' :
  getNextPosition head d' = getNextPosition head d → d' = d.
Proof.
  destruct head as [hx hy]. destruct d, d'; simpl; intros [=]; try reflexivity; lia.
Qed.

(** X1. For a cell whose coordinates are safe integers (at most 2^53 - 1 in
    absolute value, where the additions of the code are exact): a move
    followed by a move in the opposite direction comes back to the cell it
    left; a move ends on one of the four neighbours of the cell, whose
    coordinates are at most 2^53 in absolute value, and two different
    directions never lead to the same cell.  A left turn undoes a right turn
    and conversely, four right turns give the direction back, and the
    opposite of the facing is none of the three candidate directions
    (straight, left, right). *)
Theorem move_and_turn_round_trips head d :
  safeCell head →
  getNextPosition (getNextPosition head d) (opposite d) = head
  ∧ getNextPosition head d ∈ neighbors head
  ∧ (∀ d', getNextPosition head d' = getNextPosition head d ↔ d' = d)
  ∧ Z.abs (Coordinate.x (getNextPosition head d)) <= MAX_SAFE_INTEGER + 1
  ∧ Z.abs (Coordinate.y (getNextPosition head d)) <= MAX_SAFE_INTEGER + 1
  ∧ turnLeft (turnRight d) = d ∧ turnRight (turnLeft d) = d
  ∧ turnRight (turnRight (turnRight (turnRight d))) = d
  ∧ opposite d ∉ candidates d.
Proof.
  intros [Hx Hy].
  split; [| split; [| split; [| split; [| split; [| split; [| split; [| split]]]]]]].
  - destruct head as [hx hy]. destruct d; simpl; f_equal; lia.
  - apply getNextPosition_neighbor.
  - intros d'. split; [apply getNextPosition_inj | intros ->; reflexivity].
  - destruct head as [hx hy]. simpl in Hx. destruct d; simpl; lia.
  - destruct head as [hx hy]. simpl in Hy. destruct d; simpl; lia.
  - apply turnLeft_turnRight.
  - apply turnRight_turnLeft.
  - destruct d; reflexivity.
  - unfold candidates. destruct d; vm_compute; intros H;
      repeat (apply elem_of_cons in H as [H | H]; [discriminate |]); inversion H.
Qed.

Lemma move_and_turn_round_trips_witness :
  getNextPosition (getNextPosition (Coordinate.mk 59 20) RIGHT) (opposite RIGHT)
  = Coordinate.mk 59 20
  ∧ getNextPosition (Coordinate.mk 59 20) RIGHT ∈ neighbors (Coordinate.mk 59 20)
  ∧ (∀ d', getNextPosition (Coordinate.mk 59 20) d'
           = getNextPosition (Coordinate.mk 59 20) RIGHT ↔ d' = RIGHT)
  ∧ Z.abs (Coordinate.x (getNextPosition (Coordinate.mk 59 20) RIGHT))
    <= MAX_SAFE_INTEGER + 1
  ∧ Z.abs (Coordinate.y (getNextPosition (Coordinate.mk 59 20) RIGHT))
    <= MAX_SAFE_INTEGER + 1
  ∧ turnLeft (turnRight RIGHT) = RIGHT ∧ turnRight (turnLeft RIGHT) = RIGHT
  ∧ turnRight (turnRight (turnRight (turnRight RIGHT))) = RIGHT
  ∧ opposite RIGHT ∉ candidates RIGHT.
Proof.
  apply (move_and_turn_round_trips (Coordinate.mk 59 20) RIGHT).
  unfold safeCell, MAX_SAFE_INTEGER. simpl. lia.
Defined.

(** ** The choice of the AI *)

Section AIChoice.
Variables (head : Coordinate.t) (width height : Z) (players : list Player.t).

Local Abbreviation step := (considerMove head width height (buildObstacles players)).
Local Abbreviation safeDir :=
  (fun d => survivable players width height (getNextPosition head d)).
Local Abbreviation space := (spaceOf head width height players).

Lemma aiLoop_among moves :
  ∀ best, (fold_left step moves best).1 = best.1
          ∨ ∃ m, m ∈ moves ∧ (fold_left step moves best).1 = Move.dir m.
Proof.
  induction moves as [| m moves IH]; intros best; simpl; [left; reflexivity |].
  destruct (IH (step best m)) as [Heq | (m' & Hm' & Heq)].
  - rewrite Heq. unfold considerMove.
    destruct (lethal _ _ _ _); [left; reflexivity |].
    destruct (_ >? _); [| left; reflexivity].
    right. exists m. split; [left | reflexivity].
  - right. exists m'. split; [right; exact Hm' | exact Heq].
Qed.

Lemma aiLoop_max moves :
  ∀ seen best,
    aiBestMax head width height players seen best →
    aiBestMax head width height players (seen ++ moves) (fold_left step moves best).
Proof.
  induction moves as [| m moves IH]; intros seen best Hinv; simpl.
  - rewrite app_nil_r. exact Hinv.
  - replace (seen ++ m :: moves) with ((seen ++ [m]) ++ moves)
      by (rewrite <- app_assoc; reflexivity).
    apply IH. destruct Hinv as [Hbest Hseen]. unfold considerMove.
    destruct (lethal _ _ _ _) eqn:Hl.
    + split; [exact Hbest |]. intros m0 Hm0 Hsafe.
      apply elem_of_app in Hm0 as [Hm0 | Hm0]; [apply Hseen; assumption |].
      apply list_elem_of_singleton in Hm0 as ->.
      apply lethal_false in Hsafe. congruence.
    + apply lethal_false in Hl. fold (space (Move.dir m)).
      destruct (Z.gtb_spec (space (Move.dir m)) best.2) as [Hgt | Hle].
      * split; [right; split; [exact Hl | reflexivity] |].
        intros m0 Hm0 Hsafe. simpl.
        apply elem_of_app in Hm0 as [Hm0 | Hm0].
        -- specialize (Hseen m0 Hm0 Hsafe). lia.
        -- apply list_elem_of_singleton in Hm0 as ->. lia.
      * split; [exact Hbest |]. intros m0 Hm0 Hsafe.
        apply elem_of_app in Hm0 as [Hm0 | Hm0]; [apply Hseen; assumption |].
        apply list_elem_of_singleton in Hm0 as ->. exact Hle.
Qed.

End AIChoice.

Lemma getAIMove_candidate seed aiPlayer (players : list Player.t) width height :
  getAIMove seed aiPlayer players width height
  ∈ candidates (Player.direction aiPlayer).
Proof.
  unfold getAIMove.
  destruct (aiLoop_among (Player.head aiPlayer) width height players
              (shuffle seed (possibleMoves (Player.direction aiPlayer)))
              (Player.direction aiPlayer, -1)) as [-> | (m & Hm & ->)].
  - left.
  - rewrite shuffle_Permutation in Hm. apply elem_of_possibleMoves, Hm.
Qed.

Lemma opposite_not_candidate d : opposite d ∉ candidates d.
Proof.
  unfold candidates. destruct d; vm_compute; intros H;
    repeat (apply elem_of_cons in H as [H | H]; [discriminate |]); inversion H.
Qed.

(** X2. Whatever the shuffle, [getAIMove] returns the facing of the agent,
    its left or its right: never the opposite direction. *)
Theorem getAIMove_never_reverses seed aiPlayer (players : list Player.t)
    width height :
  getAIMove seed aiPlayer players width height
  ∈ candidates (Player.direction aiPlayer)
  ∧ getAIMove seed aiPlayer players width height
    ≠ opposite (Player.direction aiPlayer).
Proof.
  split; [apply getAIMove_candidate |].
  intros Heq. apply (opposite_not_candidate (Player.direction aiPlayer)).
  rewrite <- Heq. apply getAIMove_candidate.
Qed.

(** X3. The direction [getAIMove] returns scores at least as much open space
    (the flood-fill count from the cell it leads to) as every candidate
    direction that does not collide at once. *)
Theorem getAIMove_largest_space seed aiPlayer (players : list Player.t)
    width height d :
  d ∈ candidates (Player.direction aiPlayer) →
  survivable players width height (getNextPosition (Player.head aiPlayer) d) →
  spaceOf (Player.head aiPlayer) width height players d
  <= spaceOf (Player.head aiPlayer) width height players
       (getAIMove seed aiPlayer players width height).
Proof.
  intros Hd Hsafe. unfold getAIMove.
  destruct (aiLoop_max (Player.head aiPlayer) width height players
              (shuffle seed (possibleMoves (Player.direction aiPlayer))) []
              (Player.direction aiPlayer, -1)) as [Hbest Hseen].
  { split; [left; reflexivity | intros m Hm; inversion Hm]. }
  destruct (candidate_in_possibleMoves _ _ Hd) as (m & Hm & <-).
  assert (Hin : m ∈ [] ++ shuffle seed (possibleMoves (Player.direction aiPlayer)))
    by (simpl; rewrite shuffle_Permutation; exact Hm).
  pose proof (Hseen m Hin Hsafe) as Hle.
  pose proof (floodFillCount_nonneg
                (getNextPosition (Player.head aiPlayer) (Move.dir m)) width
                height (buildObstacles players) DEFAULT_DEPTH) as Hnn.
  fold (spaceOf (Player.head aiPlayer) width height players (Move.dir m)) in Hnn.
  destruct Hbest as [Hinit | [_ Heq]]; [lia |].
  rewrite <- Heq. exact Hle.
Qed.

Lemma getAIMove_largest_space_witness :
  spaceOf (Player.head cpuPlayer) 10 10 (Game.players aiQueueGame) DOWN
  <= spaceOf (Player.head cpuPlayer) 10 10 (Game.players aiQueueGame)
       (getAIMove 3 cpuPlayer (Game.players aiQueueGame) 10 10).
Proof.
  apply (getAIMove_largest_space 3 cpuPlayer (Game.players aiQueueGame) 10 10 DOWN).
  - right. left.
  - apply lethal_false. vm_compute. reflexivity.
Defined.

(** ** The flood fill: what it counts *)

Lemma visitNeighbor_enters width height obstacles st n :
  visitNeighbor width height obstacles st n = st
  ∨ (visitNeighbor width height obstacles st n = (st.1 ++ [n], {[posKey n]} ∪ st.2)
     ∧ freeCell width height obstacles (posKey n) ∧ posKey n ∉ st.2).
Proof.
  unfold visitNeighbor.
  destruct (_ && _) eqn:Htest; [| left; reflexivity].
  right. split; [reflexivity |].
  rewrite !andb_true_iff, !negb_true_iff, !bool_decide_eq_false in Htest.
  unfold freeCell, posKey. simpl. intuition lia.
Qed.

Lemma visitNeighbor_blocked width height obstacles st n :
  ¬ freeCell width height obstacles (posKey n) →
  visitNeighbor width height obstacles st n = st.
Proof.
  intros Hb. destruct (visitNeighbor_enters width height obstacles st n)
    as [H | (_ & Hfree & _)]; [exact H | contradiction].
Qed.

(** One pass over the neighbours: every cell entered is free, and the queue
    grows by exactly as much as the visited set. *)
Lemma visitNeighbors_inv (width height : Z) (obstacles A : gset (Z * Z))
    (ns : list Coordinate.t) :
  (∀ k, freeCell width height obstacles k → k ∈ A) →
  ∀ st, st.2 ⊆ A →
    (fold_left (visitNeighbor width height obstacles) ns st).2 ⊆ A
    ∧ (length (fold_left (visitNeighbor width height obstacles) ns st).1
       + size st.2
       = length st.1
         + size (fold_left (visitNeighbor width height obstacles) ns st).2)%nat.
Proof.
  intros Hfree. induction ns as [| n ns IH]; intros st Hsub; simpl.
  - split; [exact Hsub | lia].
  - destruct (visitNeighbor_enters width height obstacles st n)
      as [-> | (-> & Hn & Hnew)]; [apply IH, Hsub |].
    destruct (IH (st.1 ++ [n], {[posKey n]} ∪ st.2)) as [Hsub' Hlen].
    { simpl. apply union_subseteq. split; [| exact Hsub].
      apply singleton_subseteq_l, Hfree, Hn. }
    split; [exact Hsub' |]. simpl in Hlen.
    rewrite length_app, size_union, size_singleton in Hlen by set_solver.
    simpl in Hlen. lia.
Qed.

Lemma floodFillLoop_counts_visited (width height : Z)
    (obstacles A : gset (Z * Z)) (depth : Z) (queue : list Coordinate.t)
    (visited : gset (Z * Z)) (count steps : Z) :
  (∀ k, freeCell width height obstacles k → k ∈ A) →
  visited ⊆ A →
  count + Z.of_nat (length queue) = Z.of_nat (size visited) →
  floodFillLoop width height obstacles depth queue visited count steps
  <= Z.of_nat (size A).
Proof.
  intros Hfree.
  funelim (floodFillLoop width height obstacles depth queue visited count steps);
    intros Hsub Hcount.
  - simpl in Hcount. apply subseteq_size in Hsub. lia.
  - destruct (visitNeighbors_inv width height obstacles A (neighbors curr) Hfree
                (rest, visited) Hsub) as [Hsub' Hlen].
    change ((rest, visited).2) with visited in Hlen.
    change ((rest, visited).1) with rest in Hlen. simpl in Hcount.
    match goal with
    | IH : ∀ A0 : gset (Z * Z), _ |- _ => apply IH; [exact Hfree | exact Hsub' |]
    end.
    lia.
  - simpl in Hcount. apply subseteq_size in Hsub. lia.
Qed.

(** X5. The flood fill never counts more cells than there are: when every
    cell that is in bounds and is no obstacle belongs to the finite set [A],
    the count is at most the size of [A] plus one (the start cell is counted
    even when it is not free). *)
Theorem floodFillCount_at_most_free_cells (start : Coordinate.t)
    (width height : Z) (obstacles : gset (Z * Z)) (depth : Z)
    (A : gset (Z * Z)) :
  (∀ k, freeCell width height obstacles k → k ∈ A) →
  floodFillCount start width height obstacles depth <= Z.of_nat (size A) + 1.
Proof.
  intros Hfree. unfold floodFillCount.
  pose proof (floodFillLoop_counts_visited width height obstacles
                ({[posKey start]} ∪ A) depth [start] {[posKey start]} 0 0) as H.
  etransitivity; [apply H |].
  - intros k Hk. apply elem_of_union. right. apply Hfree, Hk.
  - set_solver.
  - rewrite size_singleton. reflexivity.
  - pose proof (size_union_alt {[posKey start]} A) as Hsz.
    rewrite size_singleton in Hsz.
    assert (Hle : (size (A ∖ {[posKey start]}) <= size A)%nat)
      by (apply subseteq_size; set_solver).
    lia.
Qed.

Lemma floodFillCount_at_most_free_cells_witness :
  floodFillCount (Coordinate.mk 0 0) 2 2 ∅ 20
  <= Z.of_nat (size ({[(0, 0); (0, 1); (1, 0); (1, 1)]} : gset (Z * Z))) + 1.
Proof.
  apply (floodFillCount_at_most_free_cells (Coordinate.mk 0 0) 2 2 ∅ 20).
  intros [x y] (Hx & Hy & _). simpl in Hx, Hy.
  assert (Hx' : x = 0 ∨ x = 1) by lia. assert (Hy' : y = 0 ∨ y = 1) by lia.
  destruct Hx' as [-> | ->], Hy' as [-> | ->]; set_solver.
Defined.

Lemma floodFillCount_first_turn start width height obstacles depth :
  0 < depth →
  floodFillCount start width height obstacles depth
  = floodFillLoop width height obstacles depth
      (fold_left (visitNeighbor width height obstacles) (neighbors start)
         ([], {[posKey start]})).1
      (fold_left (visitNeighbor width height obstacles) (neighbors start)
         ([], {[posKey start]})).2
      1 1.
Proof.
  intros Hd. unfold floodFillCount. rewrite floodFillLoop_equation_2.
  destruct (decide (0 < depth * 5)) as [Hlt | Hn]; [reflexivity | lia].
Qed.

(** X4. With a positive depth the flood fill counts its start cell, whatever
    it is: the count is at least 1; and it is exactly 1 when none of the four
    neighbours of the start can be entered, each being out of bounds or an
    obstacle. *)
Theorem floodFillCount_counts_the_start start width height obstacles depth :
  0 < depth →
  1 <= floodFillCount start width height obstacles depth
  ∧ ((∀ n, n ∈ neighbors start → ¬ freeCell width height obstacles (posKey n)) →
     floodFillCount start width height obstacles depth = 1).
Proof.
  intros Hd. rewrite (floodFillCount_first_turn _ _ _ _ _ Hd). split.
  - apply floodFillLoop_bounds.
  - intros Hblocked. unfold neighbors in *. simpl.
    rewrite !visitNeighbor_blocked by (apply Hblocked; set_solver).
    simpl. simp floodFillLoop. reflexivity.
Qed.

Lemma floodFillCount_counts_the_start_witness :
  1 <= floodFillCount (Coordinate.mk 0 0) 1 1 ∅ 20
  ∧ floodFillCount (Coordinate.mk 0 0) 1 1 ∅ 20 = 1.
Proof.
  destruct (floodFillCount_counts_the_start (Coordinate.mk 0 0) 1 1 ∅ 20
              ltac:(lia)) as [H1 H2].
  split; [exact H1 | apply H2].
  intros n Hn (Hx & Hy & _).
  repeat (apply elem_of_cons in Hn as [-> | Hn]); simpl in *; try lia.
  inversion Hn.
Defined.

(** ** The tick, step by step *)

(** The players after the moves of step 3, from the players a tick starts
    with: each is the player it was, with the facing of step 1, moved. *)
Lemma tick_anatomy e g g' :
  Game.isGameOver g = false → updateGame e g = Some g' →
  ∃ moved,
    Forall2 (fun p m => ∃ q, sameButDirection p q ∧ m = movePlayer q)
      (Game.players g) moved
    ∧ Game.players g'
      = applyDeaths
          (fold_left
             (detectCollisions (GameConfig.gridWidth (Game.config g))
                (GameConfig.gridHeight (Game.config g)) moved (Game.walkers g'))
             moved [])
          moved
    ∧ Game.walkers g'
      = moveWalkers e (GameConfig.gridWidth (Game.config g))
          (GameConfig.gridHeight (Game.config g)) (Game.walkers g)
    ∧ Game.config g' = Game.config g ∧ Game.mode g' = Game.mode g
    ∧ ∃ g0, g' = checkWin g0 ∧ Game.players g0 = Game.players g'
            ∧ Game.status g0 = Game.status g ∧ Game.winner g0 = Game.winner g
            ∧ Game.scores g0 = Game.scores g.
Proof.
  intros Hover Hstep.
  destruct (updateGame_running e g g' Hover Hstep) as (players1 & queues & Hin & ->).
  destruct (processInputs_shape _ _ _ _ _ _ _ _ _ Hin) as (todo' & Heq & Hall).
  simpl in Heq. subst todo'.
  destruct (checkWin_fields (afterCollisions e g players1 queues))
    as (Hps & -> & _ & -> & ->).
  exists (map movePlayer players1). split; [| repeat split].
  - apply Forall2_fmap_r. eapply Forall2_impl; [exact Hall |].
    intros p q Hpq. exists q. split; [exact Hpq | reflexivity].
  - exact Hps.
  - exists (afterCollisions e g players1 queues). rewrite Hps.
    repeat split; reflexivity.
Qed.

Lemma moved_fields p m :
  (∃ q, sameButDirection p q ∧ m = movePlayer q) →
  Player.id m = Player.id p ∧ Player.name m = Player.name p
  ∧ Player.color m = Player.color p ∧ Player.score m = Player.score p
  ∧ Player.isDead m = Player.isDead p
  ∧ (Player.isDead p = true →
     Player.head m = Player.head p ∧ Player.trail m = Player.trail p)
  ∧ (Player.isDead p = false →
     Player.head m = getNextPosition (Player.head p) (Player.direction m)
     ∧ Player.trail m = Player.trail p ++ [Player.head p]).
Proof.
  intros (q & Hpq & ->). unfold sameButDirection in Hpq.
  generalize (Player.direction q) Hpq. clear Hpq. intros d' ->.
  unfold movePlayer. destruct p as [i n c h t d dead s]. simpl.
  destruct dead; simpl; repeat split; intros; congruence.
Qed.

Lemma Forall2_moved_ids players moved :
  Forall2 (fun p m => ∃ q, sameButDirection p q ∧ m = movePlayer q) players moved →
  map Player.id moved = map Player.id players.
Proof.
  induction 1 as [| p m ps ms Hpm _ IH]; simpl; [reflexivity |].
  apply moved_fields in Hpm as (-> & _). rewrite IH. reflexivity.
Qed.

Lemma Forall2_deadOrSame_trails players players' :
  Forall2 deadOrSame players players' →
  map Player.trail players' = map Player.trail players.
Proof.
  induction 1 as [| p q ps qs Hpq _ IH]; simpl; [reflexivity |].
  apply deadOrSame_fields in Hpq as (_ & _ & _ & -> & _). rewrite IH. reflexivity.
Qed.

(** [checkCollision] reads nothing of the players but their trails. *)
Lemma checkCollision_trails pos width height (ps ps' : list Player.t) :
  map Player.trail ps = map Player.trail ps' →
  checkCollision pos width height ps = checkCollision pos width height ps'.
Proof.
  intros Ht. unfold checkCollision. destruct (outOfBounds _ _ _); [reflexivity |].
  revert ps' Ht. induction ps as [| p ps IH]; intros [| p' ps'] Ht;
    try discriminate; [reflexivity |].
  simpl in *. injection Ht as -> Ht. rewrite (IH ps' Ht). reflexivity.
Qed.

(** *** Every collision kills *)

Lemma walkerHits_hit (head : Coordinate.t) (j : Z) (walkers : list Walker.t) w :
  w ∈ walkers → sameCell head (Walker.position w) = true →
  ∀ deaths,
    j ∈ fold_left (fun ds w => if sameCell head (Walker.position w)
                               then pushUnique ds j else ds) walkers deaths.
Proof.
  induction walkers as [| w0 walkers IH]; intros Hin Hsame deaths;
    [inversion Hin |].
  simpl. apply elem_of_cons in Hin as [<- | Hin].
  - apply walkerHits_incl. rewrite Hsame. unfold pushUnique.
    destruct (bool_decide (j ∈ deaths)) eqn:Hb.
    + apply bool_decide_eq_true in Hb. exact Hb.
    + apply elem_of_app. right. left.
  - apply IH; assumption.
Qed.

Lemma pushUnique_self deaths i : i ∈ pushUnique deaths i.
Proof.
  unfold pushUnique. destruct (bool_decide (i ∈ deaths)) eqn:Hb.
  - apply bool_decide_eq_true in Hb. exact Hb.
  - apply elem_of_app. right. left.
Qed.

Lemma detectCollisions_walker width height players walkers deaths p w :
  Player.isDead p = false → w ∈ walkers →
  sameCell (Player.head p) (Walker.position w) = true →
  Player.id p ∈ detectCollisions width height players walkers deaths p.
Proof.
  intros Halive Hw Hsame. unfold detectCollisions. rewrite Halive.
  assert (H2 : Player.id p ∈ fold_left
                 (fun ds w => if sameCell (Player.head p) (Walker.position w)
                              then pushUnique ds (Player.id p) else ds)
                 walkers
                 (if checkCollision (Player.head p) width height players
                  then deaths ++ [Player.id p] else deaths))
    by (eapply walkerHits_hit; eassumption).
  destruct (List.find _ players) as [opponent |]; [| exact H2].
  destruct (_ && _); [| exact H2]. do 2 apply pushUnique_incl. exact H2.
Qed.

Lemma collisionPass_walker width height players walkers todo :
  ∀ deaths p w, p ∈ todo → Player.isDead p = false → w ∈ walkers →
    sameCell (Player.head p) (Walker.position w) = true →
    Player.id p ∈ fold_left (detectCollisions width height players walkers)
                    todo deaths.
Proof.
  induction todo as [| p0 todo IH]; intros deaths p w Hin Halive Hw Hsame;
    [inversion Hin |].
  simpl. apply elem_of_cons in Hin as [<- | Hin].
  - eapply collisionPass_incl, detectCollisions_walker; eassumption.
  - eapply IH; eassumption.
Qed.

(** The player at index [i], alive when a tick of a running match starts,
    is dead when it ends as soon as the collision pass has recorded its id. *)
Lemma tick_recorded_dies (moved : list Player.t) deaths i m a' :
  NoDup (map Player.id moved) → moved !! i = Some m →
  Player.id m ∈ deaths → applyDeaths deaths moved !! i = Some a' →
  Player.isDead a' = true.
Proof.
  intros Hnd Hm Hin Ha'.
  destruct (applyDeaths_kills deaths moved i m (Player.id m) Hnd Hm eq_refl Hin)
    as (a'' & Ha'' & Hdead).
  rewrite Ha' in Ha''. injection Ha'' as <-. exact Hdead.
Qed.

(** What the theorems on one player need of a tick: the moved player behind
    the player of index [i] after the tick. *)
Lemma tick_player_moved e g g' i a a' :
  Game.isGameOver g = false → updateGame e g = Some g' →
  Game.players g !! i = Some a → Game.players g' !! i = Some a' →
  ∃ moved m,
    Forall2 (fun p m => ∃ q, sameButDirection p q ∧ m = movePlayer q)
      (Game.players g) moved
    ∧ Game.players g'
      = applyDeaths
          (fold_left
             (detectCollisions (GameConfig.gridWidth (Game.config g))
                (GameConfig.gridHeight (Game.config g)) moved (Game.walkers g'))
             moved [])
          moved
    ∧ moved !! i = Some m
    ∧ (∃ q, sameButDirection a q ∧ m = movePlayer q)
    ∧ deadOrSame m a'.
Proof.
  intros Hover Hstep Ha Ha'.
  destruct (tick_anatomy e g g' Hover Hstep) as (moved & Hall & Hps & _).
  destruct (Forall2_lookup_l _ _ _ _ _ Hall Ha) as (m & Hm & Ham).
  exists moved, m. repeat split; try assumption.
  rewrite Hps in Ha'.
  eapply Forall2_lookup_lr; [apply applyDeaths_shape | exact Hm | exact Ha'].
Qed.

Lemma tick_collision_kills e g g' i a a' :
  Game.isGameOver g = false → updateGame e g = Some g' →
  NoDup (map Player.id (Game.players g)) →
  Game.players g !! i = Some a → Player.isDead a = false →
  Game.players g' !! i = Some a' →
  checkCollision (Player.head a') (GameConfig.gridWidth (Game.config g))
    (GameConfig.gridHeight (Game.config g)) (Game.players g') = true
  ∨ (∃ w, w ∈ Game.walkers g' ∧ Walker.position w = Player.head a') →
  Player.isDead a' = true.
Proof.
  intros Hover Hstep Hnd Ha Halive Ha' Hhit.
  destruct (tick_player_moved e g g' i a a' Hover Hstep Ha Ha')
    as (moved & m & Hall & Hps & Hm & Ham & Hshape).
  apply moved_fields in Ham as (_ & _ & _ & _ & Hd & _). rewrite Halive in Hd.
  apply deadOrSame_fields in Hshape as (_ & _ & Hh & _).
  assert (Hnd' : NoDup (map Player.id moved))
    by (rewrite (Forall2_moved_ids _ _ Hall); exact Hnd).
  rewrite Hps in Ha'.
  eapply tick_recorded_dies; [exact Hnd' | exact Hm | | exact Ha'].
  destruct Hhit as [Hwall | (w & Hw & Hpos)].
  - apply collisionPass_hit; [eapply list_elem_of_lookup_2, Hm | exact Hd |].
    rewrite <- Hh, <- Hwall. apply checkCollision_trails.
    rewrite Hps. symmetry. apply Forall2_deadOrSame_trails, applyDeaths_shape.
  - eapply collisionPass_walker;
      [eapply list_elem_of_lookup_2, Hm | exact Hd | exact Hw |].
    apply sameCell_eq. rewrite <- Hh. symmetry. exact Hpos.
Qed.

(** X6. Every collision the tick detects is fatal: a player that is alive
    when a tick of a running match starts and whose head, after the tick, is
    out of bounds, on a trail cell of any player (its own included) or on the
    cell of a walker, is dead after the tick.  Player ids are pairwise
    distinct. *)
Theorem collision_is_fatal e g g' i a a' :
  Game.isGameOver g = false → updateGame e g = Some g' →
  NoDup (map Player.id (Game.players g)) →
  Game.players g !! i = Some a → Player.isDead a = false →
  Game.players g' !! i = Some a' →
  checkCollision (Player.head a') (GameConfig.gridWidth (Game.config g))
    (GameConfig.gridHeight (Game.config g)) (Game.players g') = true
  ∨ (∃ w, w ∈ Game.walkers g' ∧ Walker.position w = Player.head a') →
  Player.isDead a' = true.
Proof. apply tick_collision_kills. Qed.

Lemma collision_is_fatal_witness :
  ∃ a', Game.players (tickOf noEntropy crashGame) !! 0%nat = Some a'
        ∧ Player.isDead a' = true.
Proof.
  eexists. split; [reflexivity |].
  apply (collision_is_fatal noEntropy crashGame (tickOf noEntropy crashGame) 0%nat
           (newPlayer 1 "Player 1" P1_COLOR (Coordinate.mk 9 5) RIGHT)).
  - reflexivity.
  - vm_compute. reflexivity.
  - apply NoDup_pair. discriminate.
  - reflexivity.
  - reflexivity.
  - reflexivity.
  - left. vm_compute. reflexivity.
Defined.

(** *** No death without a collision *)

Lemma pushUnique_inv deaths i j : i ∈ pushUnique deaths j → i ∈ deaths ∨ i = j.
Proof.
  unfold pushUnique. destruct (bool_decide _); [auto |].
  intros H. apply elem_of_app in H as [H | H]; [auto |].
  apply list_elem_of_singleton in H. auto.
Qed.

Lemma walkerHits_inv (head : Coordinate.t) (i j : Z) (walkers : list Walker.t) :
  ∀ deaths,
    i ∈ fold_left (fun ds w => if sameCell head (Walker.position w)
                               then pushUnique ds j else ds) walkers deaths →
    i ∈ deaths ∨ (i = j ∧ ∃ w, w ∈ walkers ∧ Walker.position w = head).
Proof.
  induction walkers as [| w walkers IH]; intros deaths Hin; simpl in Hin;
    [auto |].
  apply IH in Hin as [Hin | (-> & w' & Hw' & Hpos)].
  - destruct (sameCell head (Walker.position w)) eqn:Hsame; [| auto].
    apply pushUnique_inv in Hin as [Hin | ->]; [auto |].
    right. split; [reflexivity |]. exists w. split; [left |].
    apply sameCell_eq in Hsame. auto.
  - right. split; [reflexivity |]. exists w'. split; [right; exact Hw' | exact Hpos].
Qed.

Lemma detectCollisions_sound width height (players : list Player.t) walkers
    deaths p i :
  p ∈ players →
  i ∈ detectCollisions width height players walkers deaths p →
  i ∈ deaths
  ∨ ∃ p0, p0 ∈ players ∧ Player.id p0 = i ∧ Player.isDead p0 = false
          ∧ collided width height players walkers p0.
Proof.
  intros Hp. unfold detectCollisions.
  destruct (Player.isDead p) eqn:Halive; [auto |].
  set (deaths1 := if checkCollision (Player.head p) width height players
                  then deaths ++ [Player.id p] else deaths).
  set (deaths2 := fold_left _ walkers deaths1).
  assert (H2 : i ∈ deaths2 →
               i ∈ deaths
               ∨ ∃ p0, p0 ∈ players ∧ Player.id p0 = i
                       ∧ Player.isDead p0 = false
                       ∧ collided width height players walkers p0).
  { intros Hin. apply walkerHits_inv in Hin as [Hin | (-> & Hw)].
    - unfold deaths1 in Hin.
      destruct (checkCollision _ _ _ _) eqn:Hhit; [| auto].
      apply elem_of_app in Hin as [Hin | Hin]; [auto |].
      apply list_elem_of_singleton in Hin as ->.
      right. exists p. repeat split; try assumption. left. exact Hhit.
    - right. exists p. repeat split; try assumption. right. left. exact Hw. }
  destruct (List.find _ players) as [opponent |] eqn:Hfind; [| exact H2].
  destruct (negb (Player.isDead opponent)
            && sameCell (Player.head p) (Player.head opponent)) eqn:Hcond;
    [| exact H2].
  apply find_some in Hfind as [Hop Hne].
  apply list_elem_of_In in Hop.
  apply negb_true_iff, Z.eqb_neq in Hne.
  apply andb_true_iff in Hcond as [Hoalive Hsame].
  apply negb_true_iff in Hoalive. apply sameCell_eq in Hsame.
  intros Hin. apply pushUnique_inv in Hin as [Hin | ->].
  - apply pushUnique_inv in Hin as [Hin | ->]; [apply H2, Hin |].
    right. exists p. repeat split; try assumption. right. right.
    exists opponent. repeat split; auto.
  - right. exists opponent. repeat split; try assumption. right. right.
    exists p. repeat split; auto.
Qed.

Lemma collisionPass_sound width height (players : list Player.t) walkers todo :
  (∀ p, p ∈ todo → p ∈ players) →
  ∀ deaths i,
    i ∈ fold_left (detectCollisions width height players walkers) todo deaths →
    i ∈ deaths
    ∨ ∃ p0, p0 ∈ players ∧ Player.id p0 = i ∧ Player.isDead p0 = false
            ∧ collided width height players walkers p0.
Proof.
  induction todo as [| p todo IH]; intros Hsub deaths i Hin; simpl in Hin;
    [auto |].
  apply IH in Hin as [Hin | Hin]; [| auto | intros q Hq; apply Hsub; right; exact Hq].
  eapply detectCollisions_sound; [apply Hsub; left | exact Hin].
Qed.

Lemma markDead_only i players :
  ∀ k p q, players !! k = Some p → markDead i players !! k = Some q →
           q = p ∨ (q = setDead p ∧ Player.id p = i).
Proof.
  induction players as [| p0 rest IH]; intros k p q Hp Hq; [inversion Hp |].
  simpl in Hq. destruct (Z.eqb_spec (Player.id p0) i) as [Heq | Hne].
  - destruct k as [| k]; simpl in *.
    + injection Hp as ->. injection Hq as <-. auto.
    + rewrite Hp in Hq. injection Hq as <-. auto.
  - destruct k as [| k]; simpl in *.
    + injection Hp as ->. injection Hq as <-. auto.
    + eapply IH; eassumption.
Qed.

Lemma applyDeaths_only deaths :
  ∀ players k p q,
    players !! k = Some p → applyDeaths deaths players !! k = Some q →
    Player.isDead p = false → Player.isDead q = true → Player.id p ∈ deaths.
Proof.
  induction deaths as [| d deaths IH]; intros players k p q Hp Hq Halive Hdead.
  - simpl in Hq. rewrite Hp in Hq. injection Hq as <-. congruence.
  - change (applyDeaths (d :: deaths) players)
      with (applyDeaths deaths (markDead d players)) in Hq.
    destruct (Forall2_lookup_l _ _ _ _ _ (markDead_shape d players) Hp)
      as (p1 & Hp1 & _).
    destruct (markDead_only d players k p p1 Hp Hp1) as [-> | [_ <-]].
    + right. eapply IH; eassumption.
    + left.
Qed.

Lemma NoDup_ids_eq (players : list Player.t) p q :
  NoDup (map Player.id players) → p ∈ players → q ∈ players →
  Player.id p = Player.id q → p = q.
Proof.
  intros Hnd Hp Hq Hid.
  apply list_elem_of_lookup_1 in Hp as [i Hi].
  apply list_elem_of_lookup_1 in Hq as [j Hj].
  assert (i = j).
  { eapply NoDup_lookup; [exact Hnd | |].
    - rewrite list_lookup_fmap, Hi. reflexivity.
    - rewrite list_lookup_fmap, Hj. simpl. rewrite Hid. reflexivity. }
  subst j. congruence.
Qed.

Lemma tick_death_cause e g g' i a a' :
  Game.isGameOver g = false → updateGame e g = Some g' →
  NoDup (map Player.id (Game.players g)) →
  Game.players g !! i = Some a → Player.isDead a = false →
  Game.players g' !! i = Some a' → Player.isDead a' = true →
  checkCollision (Player.head a') (GameConfig.gridWidth (Game.config g))
    (GameConfig.gridHeight (Game.config g)) (Game.players g') = true
  ∨ (∃ w, w ∈ Game.walkers g' ∧ Walker.position w = Player.head a')
  ∨ (∃ j b b', Game.players g !! j = Some b ∧ Player.isDead b = false
               ∧ Game.players g' !! j = Some b'
               ∧ Player.id b ≠ Player.id a ∧ Player.head b' = Player.head a').
Proof.
  intros Hover Hstep Hnd Ha Halive Ha' Hdead.
  destruct (tick_player_moved e g g' i a a' Hover Hstep Ha Ha')
    as (moved & m & Hall & Hps & Hm & Ham & Hshape).
  apply moved_fields in Ham as (Hid & _ & _ & _ & Hd & _). rewrite Halive in Hd.
  apply deadOrSame_fields in Hshape as (_ & _ & Hh & _).
  assert (Hnd' : NoDup (map Player.id moved))
    by (rewrite (Forall2_moved_ids _ _ Hall); exact Hnd).
  assert (Hin : Player.id m ∈ fold_left
                  (detectCollisions (GameConfig.gridWidth (Game.config g))
                     (GameConfig.gridHeight (Game.config g)) moved
                     (Game.walkers g')) moved []).
  { eapply applyDeaths_only; [exact Hm | rewrite <- Hps; exact Ha' | exact Hd | exact Hdead]. }
  apply collisionPass_sound in Hin as [Hin | (m0 & Hm0 & Hid0 & _ & Hcol)];
    [inversion Hin | | auto].
  assert (m0 = m) as ->.
  { eapply NoDup_ids_eq; [exact Hnd' | exact Hm0 | | exact Hid0].
    eapply list_elem_of_lookup_2, Hm. }
  rewrite Hh. destruct Hcol as [Hwall | [Hw | (q & Hq & Hqalive & Hqid & Hqh)]].
  - left. rewrite <- Hwall. apply checkCollision_trails.
    rewrite Hps. apply Forall2_deadOrSame_trails, applyDeaths_shape.
  - right. left. exact Hw.
  - right. right. apply list_elem_of_lookup_1 in Hq as [j Hj].
    destruct (Forall2_lookup_r _ _ _ _ _ Hall Hj) as (b & Hb & Hbm).
    apply moved_fields in Hbm as (Hbid & _ & _ & _ & Hbd & _).
    destruct (Forall2_lookup_l _ _ _ _ _ (applyDeaths_shape
                (fold_left
                   (detectCollisions (GameConfig.gridWidth (Game.config g))
                      (GameConfig.gridHeight (Game.config g)) moved
                      (Game.walkers g')) moved []) moved) Hj)
      as (b' & Hb' & Hbshape).
    apply deadOrSame_fields in Hbshape as (_ & _ & Hbh & _).
    exists j, b, b'. rewrite Hps. repeat split; try assumption; congruence.
Qed.

(** X7. No death without a collision: a player that is alive when a tick of
    a running match starts and dead after it has its head out of bounds or on
    a trail cell, or on the cell of a walker, or on the cell where another
    player, alive when the tick starts, has its head.  Player ids are pairwise
    distinct. *)
Theorem death_has_a_cause e g g' i a a' :
  Game.isGameOver g = false → updateGame e g = Some g' →
  NoDup (map Player.id (Game.players g)) →
  Game.players g !! i = Some a → Player.isDead a = false →
  Game.players g' !! i = Some a' → Player.isDead a' = true →
  checkCollision (Player.head a') (GameConfig.gridWidth (Game.config g))
    (GameConfig.gridHeight (Game.config g)) (Game.players g') = true
  ∨ (∃ w, w ∈ Game.walkers g' ∧ Walker.position w = Player.head a')
  ∨ (∃ j b b', Game.players g !! j = Some b ∧ Player.isDead b = false
               ∧ Game.players g' !! j = Some b'
               ∧ Player.id b ≠ Player.id a ∧ Player.head b' = Player.head a').
Proof. apply tick_death_cause. Qed.

Lemma death_has_a_cause_witness :
  ∃ a', Game.players (tickOf noEntropy crashGame) !! 1%nat = Some a'
    ∧ (checkCollision (Player.head a') 10 10
         (Game.players (tickOf noEntropy crashGame)) = true
       ∨ (∃ w, w ∈ Game.walkers (tickOf noEntropy crashGame)
               ∧ Walker.position w = Player.head a')
       ∨ (∃ j b b', Game.players crashGame !! j = Some b
                    ∧ Player.isDead b = false
                    ∧ Game.players (tickOf noEntropy crashGame) !! j = Some b'
                    ∧ Player.id b ≠ 2 ∧ Player.head b' = Player.head a')).
Proof.
  eexists. split; [reflexivity |].
  apply (death_has_a_cause noEntropy crashGame (tickOf noEntropy crashGame) 1%nat
           (newPlayer 2 "Player 2" P2_COLOR (Coordinate.mk 2 2) DOWN)).
  - reflexivity.
  - vm_compute. reflexivity.
  - apply NoDup_pair. discriminate.
  - reflexivity.
  - reflexivity.
  - reflexivity.
  - reflexivity.
Defined.

(** *** Head on *)

Lemma detectCollisions_head_on width height players walkers deaths p opponent :
  Player.isDead p = false →
  List.find (fun op => negb (Player.id op =? Player.id p)) players = Some opponent →
  Player.isDead opponent = false →
  Player.head p = Player.head opponent →
  Player.id p ∈ detectCollisions width height players walkers deaths p
  ∧ Player.id opponent ∈ detectCollisions width height players walkers deaths p.
Proof.
  intros Halive Hfind Hoalive Hsame. unfold detectCollisions.
  rewrite Halive, Hfind, Hoalive.
  rewrite (proj2 (sameCell_eq _ _) Hsame). simpl.
  split; [apply pushUnique_incl |]; apply pushUnique_self.
Qed.

Lemma head_on_both_recorded width height walkers (ma mb : Player.t) :
  Player.id ma ≠ Player.id mb →
  Player.isDead ma = false → Player.isDead mb = false →
  Player.head ma = Player.head mb →
  Player.id ma
  ∈ fold_left (detectCollisions width height [ma; mb] walkers) [ma; mb] []
  ∧ Player.id mb
    ∈ fold_left (detectCollisions width height [ma; mb] walkers) [ma; mb] [].
Proof.
  intros Hne Ha Hb Hsame.
  assert (Hfind : List.find (fun op => negb (Player.id op =? Player.id ma))
                    [ma; mb] = Some mb).
  { simpl. rewrite Z.eqb_refl. simpl.
    destruct (Z.eqb_spec (Player.id mb) (Player.id ma)); [congruence | reflexivity]. }
  destruct (detectCollisions_head_on width height [ma; mb] walkers [] ma mb
              Ha Hfind Hb Hsame) as [H1 H2].
  simpl. split; apply detectCollisions_incl; assumption.
Qed.

(** X8. Head on: when the two living players of a match, with different ids,
    have their heads on the same cell after their moves, both are dead after
    the tick, the match is over with the result DRAW, and the tallies are
    unchanged. *)
Theorem head_on_is_a_draw e g g' a b a' b' :
  Game.isGameOver g = false → updateGame e g = Some g' →
  Game.players g = [a; b] → Player.id a ≠ Player.id b →
  Player.isDead a = false → Player.isDead b = false →
  Game.players g' = [a'; b'] → Player.head a' = Player.head b' →
  Player.isDead a' = true ∧ Player.isDead b' = true
  ∧ Game.status g' = GAME_OVER ∧ Game.winner g' = Some "DRAW"
  ∧ Game.scores g' = Game.scores g.
Proof.
  intros Hover Hstep Hps Hne Ha Hb Hps' Hsame.
  destruct (tick_anatomy e g g' Hover Hstep)
    as (moved & Hall & Hmoved & _ & _ & _ & g0 & Hg0 & Hps0 & Hst & Hwin & Hsc).
  rewrite Hps in Hall.
  apply Forall2_cons_inv_l in Hall as (ma & rest & Hma & Hall & ->).
  apply Forall2_cons_inv_l in Hall as (mb & rest' & Hmb & Hall & ->).
  apply Forall2_nil_inv_l in Hall as ->.
  apply moved_fields in Hma as (Hida & _ & _ & _ & Hda & _).
  apply moved_fields in Hmb as (Hidb & _ & _ & _ & Hdb & _).
  rewrite Ha in Hda. rewrite Hb in Hdb.
  pose proof (applyDeaths_shape
                (fold_left
                   (detectCollisions (GameConfig.gridWidth (Game.config g))
                      (GameConfig.gridHeight (Game.config g)) [ma; mb]
                      (Game.walkers g')) [ma; mb] []) [ma; mb]) as Hshape.
  rewrite <- Hmoved, Hps' in Hshape.
  apply Forall2_cons_1 in Hshape as [Hsa Hshape].
  apply Forall2_cons_1 in Hshape as [Hsb _].
  apply deadOrSame_fields in Hsa as (_ & _ & Hha & _).
  apply deadOrSame_fields in Hsb as (_ & _ & Hhb & _).
  assert (Hmne : Player.id ma ≠ Player.id mb) by congruence.
  assert (Hmsame : Player.head ma = Player.head mb) by congruence.
  destruct (head_on_both_recorded (GameConfig.gridWidth (Game.config g))
              (GameConfig.gridHeight (Game.config g)) (Game.walkers g')
              ma mb Hmne Hda Hdb Hmsame) as [Hra Hrb].
  assert (Hnd : NoDup (map Player.id [ma; mb])) by (apply NoDup_pair; exact Hmne).
  assert (Hdead_a : Player.isDead a' = true).
  { eapply (tick_recorded_dies [ma; mb] _ 0%nat ma a'); [exact Hnd | reflexivity | exact Hra |].
    rewrite <- Hmoved, Hps'. reflexivity. }
  assert (Hdead_b : Player.isDead b' = true).
  { eapply (tick_recorded_dies [ma; mb] _ 1%nat mb b'); [exact Hnd | reflexivity | exact Hrb |].
    rewrite <- Hmoved, Hps'. reflexivity. }
  split; [exact Hdead_a |]. split; [exact Hdead_b |].
  pose proof (checkWin_spec g0) as Hspec.
  rewrite Hps0, Hps' in Hspec. unfold alivePlayers in Hspec. simpl in Hspec.
  rewrite Hdead_a, Hdead_b in Hspec. simpl in Hspec.
  rewrite Hg0. destruct Hspec as (-> & -> & -> & _). auto.
Qed.

Lemma head_on_is_a_draw_witness :
  ∃ a' b', Game.players (tickOf noEntropy headOnGame) = [a'; b']
    ∧ Player.isDead a' = true ∧ Player.isDead b' = true
    ∧ Game.status (tickOf noEntropy headOnGame) = GAME_OVER
    ∧ Game.winner (tickOf noEntropy headOnGame) = Some "DRAW"
    ∧ Game.scores (tickOf noEntropy headOnGame) = Game.scores headOnGame.
Proof.
  eexists _, _. split; [reflexivity |].
  eapply (head_on_is_a_draw noEntropy headOnGame (tickOf noEntropy headOnGame)).
  - reflexivity.
  - vm_compute. reflexivity.
  - reflexivity.
  - discriminate.
  - reflexivity.
  - reflexivity.
  - reflexivity.
  - reflexivity.
Defined.

(** *** What a tick leaves as it is *)

Lemma Forall2_deadOrSame_map {B : Type} (f : Player.t → B) players players' :
  (∀ p, f (setDead p) = f p) →
  Forall2 deadOrSame players players' → map f players' = map f players.
Proof.
  intros Hf. induction 1 as [| p q ps qs Hpq _ IH]; simpl; [reflexivity |].
  rewrite IH. destruct Hpq as [-> | ->]; [| rewrite Hf]; reflexivity.
Qed.

Lemma Forall2_moved_map {B : Type} (f : Player.t → B) players moved :
  (∀ p m, (∃ q, sameButDirection p q ∧ m = movePlayer q) → f m = f p) →
  Forall2 (fun p m => ∃ q, sameButDirection p q ∧ m = movePlayer q) players moved →
  map f moved = map f players.
Proof.
  intros Hf. induction 1 as [| p m ps ms Hpm _ IH]; simpl; [reflexivity |].
  rewrite IH, (Hf _ _ Hpm). reflexivity.
Qed.

Lemma moveWalkers_ids e width height walkers :
  map Walker.id (moveWalkers e width height walkers) = map Walker.id walkers.
Proof.
  unfold moveWalkers. apply list_eq. intros j.
  rewrite !list_lookup_fmap, list_lookup_imap.
  destruct (walkers !! j) as [w |]; [| reflexivity]. simpl.
  unfold stepWalker. destruct (_ >=? _); reflexivity.
Qed.

Lemma tick_frame e g g' :
  updateGame e g = Some g' →
  Game.config g' = Game.config g ∧ Game.mode g' = Game.mode g
  ∧ map Player.id (Game.players g') = map Player.id (Game.players g)
  ∧ map Player.name (Game.players g') = map Player.name (Game.players g)
  ∧ map Player.color (Game.players g') = map Player.color (Game.players g)
  ∧ map Player.score (Game.players g') = map Player.score (Game.players g)
  ∧ map Walker.id (Game.walkers g') = map Walker.id (Game.walkers g).
Proof.
  intros Hstep. destruct (Game.isGameOver g) eqn:Hover.
  - rewrite (updateGame_over e g Hover) in Hstep. injection Hstep as <-.
    repeat split; reflexivity.
  - destruct (tick_anatomy e g g' Hover Hstep)
      as (moved & Hall & Hps & Hws & Hcfg & Hmode & _).
    pose proof (applyDeaths_shape
                  (fold_left
                     (detectCollisions (GameConfig.gridWidth (Game.config g))
                        (GameConfig.gridHeight (Game.config g)) moved
                        (Game.walkers g')) moved []) moved) as Hshape.
    rewrite <- Hps in Hshape.
    split; [exact Hcfg |]. split; [exact Hmode |].
    repeat split.
    + rewrite (Forall2_deadOrSame_map Player.id _ _ (fun _ => eq_refl) Hshape).
      apply Forall2_moved_map; [| exact Hall]. intros p m H. apply moved_fields in H. tauto.
    + rewrite (Forall2_deadOrSame_map Player.name _ _ (fun _ => eq_refl) Hshape).
      apply Forall2_moved_map; [| exact Hall]. intros p m H. apply moved_fields in H. tauto.
    + rewrite (Forall2_deadOrSame_map Player.color _ _ (fun _ => eq_refl) Hshape).
      apply Forall2_moved_map; [| exact Hall]. intros p m H. apply moved_fields in H. tauto.
    + rewrite (Forall2_deadOrSame_map Player.score _ _ (fun _ => eq_refl) Hshape).
      apply Forall2_moved_map; [| exact Hall]. intros p m H. apply moved_fields in H. tauto.
    + rewrite Hws. apply moveWalkers_ids.
Qed.

(** X9. A tick changes neither the configuration nor the mode, and it keeps
    the ids, names, colours and scores of the players and the ids of the
    walkers, in order. *)
Theorem tick_keeps_identity e g g' :
  updateGame e g = Some g' →
  Game.config g' = Game.config g ∧ Game.mode g' = Game.mode g
  ∧ map Player.id (Game.players g') = map Player.id (Game.players g)
  ∧ map Player.name (Game.players g') = map Player.name (Game.players g)
  ∧ map Player.color (Game.players g') = map Player.color (Game.players g)
  ∧ map Player.score (Game.players g') = map Player.score (Game.players g)
  ∧ map Walker.id (Game.walkers g') = map Walker.id (Game.walkers g).
Proof. apply tick_frame. Qed.

Lemma tick_keeps_identity_witness :
  Game.config (tickOf noEntropy swapGame) = Game.config swapGame
  ∧ Game.mode (tickOf noEntropy swapGame) = Game.mode swapGame
  ∧ map Player.id (Game.players (tickOf noEntropy swapGame))
    = map Player.id (Game.players swapGame)
  ∧ map Player.name (Game.players (tickOf noEntropy swapGame))
    = map Player.name (Game.players swapGame)
  ∧ map Player.color (Game.players (tickOf noEntropy swapGame))
    = map Player.color (Game.players swapGame)
  ∧ map Player.score (Game.players (tickOf noEntropy swapGame))
    = map Player.score (Game.players swapGame)
  ∧ map Walker.id (Game.walkers (tickOf noEntropy swapGame))
    = map Walker.id (Game.walkers swapGame).
Proof.
  apply (tick_keeps_identity noEntropy swapGame (tickOf noEntropy swapGame)).
  vm_compute. reflexivity.
Defined.

Lemma checkCollision_false pos width height (players : list Player.t) :
  checkCollision pos width height players = false ↔
  inBounds pos width height ∧ ∀ p, p ∈ players → pos ∉ Player.trail p.
Proof.
  unfold checkCollision. split.
  - destruct (outOfBounds pos width height) eqn:Hout; [discriminate |].
    intros Hex. split; [apply outOfBounds_false, Hout |].
    intros p Hp Ht.
    assert (Htrue : existsb (fun player => existsb (sameCell pos) (Player.trail player))
                      players = true).
    { apply existsb_exists. exists p.
      rewrite <- list_elem_of_In, existsb_sameCell. auto. }
    congruence.
  - intros [Hin Hfree]. rewrite (proj2 (outOfBounds_false _ _ _) Hin).
    apply not_true_is_false. rewrite existsb_exists.
    intros (p & Hp & Ht). apply (Hfree p).
    + apply list_elem_of_In, Hp.
    + apply existsb_sameCell, Ht.
Qed.

(** The player of index [i] before and after a tick of a running match. *)
Lemma tick_head e g g' i a a' :
  Game.isGameOver g = false → updateGame e g = Some g' →
  Game.players g !! i = Some a → Game.players g' !! i = Some a' →
  Player.id a' = Player.id a
  ∧ (Player.isDead a = true →
     Player.isDead a' = true ∧ Player.head a' = Player.head a
     ∧ Player.trail a' = Player.trail a)
  ∧ (Player.isDead a = false →
     Player.head a' = getNextPosition (Player.head a) (Player.direction a')
     ∧ Player.trail a' = Player.trail a ++ [Player.head a]).
Proof.
  intros Hover Hstep Ha Ha'.
  destruct (tick_player_moved e g g' i a a' Hover Hstep Ha Ha')
    as (moved & m & _ & _ & _ & Ham & Hshape).
  apply moved_fields in Ham as (Hid & _ & _ & _ & Hd & Hdead & Halive).
  apply deadOrSame_fields in Hshape as (Hid' & _ & Hh & Ht & Hdir & Hdd).
  split; [congruence |]. split.
  - intros Hda. destruct (Hdead Hda) as [H1 H2].
    split; [apply Hdd; congruence |]. split; congruence.
  - intros Hal. destruct (Halive Hal) as [H1 H2]. split; congruence.
Qed.

Lemma tick_lookup e g g' i :
  Game.isGameOver g = false → updateGame e g = Some g' →
  is_Some (Game.players g !! i) ↔ is_Some (Game.players g' !! i).
Proof.
  intros Hover Hstep.
  destruct (tick_anatomy e g g' Hover Hstep) as (moved & Hall & Hps & _).
  pose proof (applyDeaths_shape
                (fold_left
                   (detectCollisions (GameConfig.gridWidth (Game.config g))
                      (GameConfig.gridHeight (Game.config g)) moved
                      (Game.walkers g')) moved []) moved) as Hshape.
  rewrite <- Hps in Hshape.
  rewrite !lookup_lt_is_Some.
  apply Forall2_length in Hall. apply Forall2_length in Hshape. lia.
Qed.

(** The facing step 1 leaves (the statement of step 1 on one player). *)
Lemma tick_facing e g g' i p pending a' :
  Game.isGameOver g = false → updateGame e g = Some g' →
  NoDup (map Player.id (Game.players g)) →
  Game.players g !! i = Some p → Player.isDead p = false →
  Game.inputQueue g !! Player.id p = Some pending →
  Game.players g' !! i = Some a' →
  Player.direction a'
  = facingAfterInputs (aiDraw e i) (Game.mode g)
      (GameConfig.gridWidth (Game.config g))
      (GameConfig.gridHeight (Game.config g)) (Game.players g) pending p
  ∧ Game.inputQueue g' !! Player.id p = Some (tail pending).
Proof.
  intros Hover Hstep Hnd Hp Halive Hq Ha'.
  destruct (updateGame_running e g g' Hover Hstep) as (players1 & queues & Hin & ->).
  destruct (tick_player_at e g players1 queues i p Hin Hp)
    as (q & r & Hq1 & _ & Hr & Hqr).
  rewrite Hr in Ha'. injection Ha' as <-.
  destruct (processInputs_lookup e (Game.mode g)
              (GameConfig.gridWidth (Game.config g))
              (GameConfig.gridHeight (Game.config g)) (Game.players g)
              (Game.players g) [] (Game.inputQueue g) players1 queues Hin
              eq_refl Hnd i p Hp Halive)
    as (pending' & q' & Hq' & Hlook & Hdir & Hqs).
  rewrite Hq in Hq'. injection Hq' as <-. simpl in Hlook, Hdir.
  rewrite Hq1 in Hlook. injection Hlook as <-.
  apply deadOrSame_fields in Hqr as (_ & _ & _ & _ & Hd & _).
  rewrite movePlayer_direction in Hd. rewrite Hd, Hdir.
  destruct (checkWin_fields (afterCollisions e g players1 queues))
    as (_ & _ & -> & _).
  split; [reflexivity | exact Hqs].
Qed.

Lemma getAIMove_safe seed aiPlayer (players : list Player.t) width height d :
  d ∈ candidates (Player.direction aiPlayer) →
  survivable players width height (getNextPosition (Player.head aiPlayer) d) →
  survivable players width height
    (getNextPosition (Player.head aiPlayer)
       (getAIMove seed aiPlayer players width height)).
Proof.
  intros Hd Hsafe. unfold getAIMove.
  apply (aiLoop_safe (Player.head aiPlayer) width height players
           (Player.direction aiPlayer)).
  - left. reflexivity.
  - destruct (candidate_in_possibleMoves _ _ Hd) as (m & Hm & <-).
    exists m. split; [| exact Hsafe].
    rewrite shuffle_Permutation. exact Hm.
Qed.

(** The trail cells after a tick are head or trail cells from before it. *)
Lemma tick_trail_cells e g g' b' c :
  Game.isGameOver g = false → updateGame e g = Some g' →
  b' ∈ Game.players g' → c ∈ Player.trail b' →
  isObstacle (Game.players g) c.
Proof.
  intros Hover Hstep Hb' Hc.
  apply list_elem_of_lookup_1 in Hb' as [j Hj].
  destruct (proj2 (tick_lookup e g g' j Hover Hstep)) as [b Hb]; [eauto |].
  destruct (tick_head e g g' j b b' Hover Hstep Hb Hj) as (_ & Hdead & Halive).
  exists b. split; [eapply list_elem_of_lookup_2, Hb |].
  destruct (Player.isDead b) eqn:Hd.
  - destruct (Hdead eq_refl) as (_ & _ & Ht). rewrite Ht in Hc. auto.
  - destruct (Halive eq_refl) as (_ & Ht). rewrite Ht in Hc.
    apply elem_of_app in Hc as [Hc | Hc]; [auto |].
    apply list_elem_of_singleton in Hc. auto.
Qed.

Lemma dequeueTurn_head pending p :
  Player.head (dequeueTurn pending p) = Player.head p.
Proof. destruct pending; reflexivity. Qed.

(** X12. An AI-controlled agent with a way out crashes into no wall and no
    trail: when the agent is alive at the start of a tick of a running match
    and one of the three candidates of the facing step 1 starts from (the
    oldest queued turn, else its own) leads to a cell that is in bounds and is
    neither a trail cell nor a head, then after the tick its head is in bounds
    and on no trail cell.  Player ids are pairwise distinct. *)
Theorem ai_never_crashes_with_an_out e g g' i p pending a' :
  Game.isGameOver g = false → updateGame e g = Some g' →
  NoDup (map Player.id (Game.players g)) →
  Game.players g !! i = Some p → Player.isDead p = false →
  isAI (Game.mode g) p = true →
  Game.inputQueue g !! Player.id p = Some pending →
  (∃ d, d ∈ candidates (Player.direction (dequeueTurn pending p))
        ∧ survivable (Game.players g) (GameConfig.gridWidth (Game.config g))
            (GameConfig.gridHeight (Game.config g))
            (getNextPosition (Player.head p) d)) →
  Game.players g' !! i = Some a' →
  checkCollision (Player.head a') (GameConfig.gridWidth (Game.config g))
    (GameConfig.gridHeight (Game.config g)) (Game.players g') = false.
Proof.
  intros Hover Hstep Hnd Hp Halive Hai Hq (d & Hd & Hsafe) Ha'.
  destruct (tick_facing e g g' i p pending a' Hover Hstep Hnd Hp Halive Hq Ha')
    as [Hdir _].
  unfold facingAfterInputs in Hdir. rewrite Hai in Hdir.
  destruct (tick_head e g g' i p a' Hover Hstep Hp Ha') as (_ & _ & Hmove).
  destruct (Hmove Halive) as [Hh _].
  rewrite <- (dequeueTurn_head pending p) in Hsafe.
  pose proof (getAIMove_safe (aiDraw e i) (dequeueTurn pending p)
                (Game.players g) _ _ d Hd Hsafe) as Hok.
  rewrite <- Hdir, dequeueTurn_head, <- Hh in Hok.
  destruct Hok as [Hin Hfree].
  apply checkCollision_false. split; [exact Hin |].
  intros b' Hb' Hc. apply Hfree.
  eapply tick_trail_cells; eassumption.
Qed.

Lemma ai_never_crashes_with_an_out_witness :
  checkCollision
    (Player.head
       (default cpuPlayer (Game.players (tickOf noEntropy aiQueueGame) !! 1%nat)))
    10 10 (Game.players (tickOf noEntropy aiQueueGame)) = false.
Proof.
  apply (ai_never_crashes_with_an_out noEntropy aiQueueGame (tickOf noEntropy aiQueueGame) 1%nat
           cpuPlayer [UP]).
  - reflexivity.
  - vm_compute. reflexivity.
  - apply NoDup_pair. discriminate.
  - reflexivity.
  - reflexivity.
  - reflexivity.
  - reflexivity.
  - exists LEFT. split; [right; left |].
    apply lethal_false. vm_compute. reflexivity.
  - vm_compute. reflexivity.
Defined.

(** *** Survivors *)

(** X10. After a tick of a running match every player that is still alive
    is inside the arena, on no trail cell of any player and on the cell of no
    walker.  Player ids are pairwise distinct. *)
Theorem survivors_are_clear e g g' a' :
  Game.isGameOver g = false → updateGame e g = Some g' →
  NoDup (map Player.id (Game.players g)) →
  a' ∈ Game.players g' → Player.isDead a' = false →
  inBounds (Player.head a') (GameConfig.gridWidth (Game.config g))
    (GameConfig.gridHeight (Game.config g))
  ∧ (∀ b', b' ∈ Game.players g' → Player.head a' ∉ Player.trail b')
  ∧ (∀ w, w ∈ Game.walkers g' → Walker.position w ≠ Player.head a').
Proof.
  intros Hover Hstep Hnd Ha' Halive'.
  apply list_elem_of_lookup_1 in Ha' as [i Hi].
  destruct (proj2 (tick_lookup e g g' i Hover Hstep)) as [a Ha]; [eauto |].
  destruct (tick_head e g g' i a a' Hover Hstep Ha Hi) as (_ & Hdead & _).
  assert (Halive : Player.isDead a = false).
  { destruct (Player.isDead a); [| reflexivity].
    destruct (Hdead eq_refl) as (Hd & _). congruence. }
  assert (Hno : ¬ (checkCollision (Player.head a')
                     (GameConfig.gridWidth (Game.config g))
                     (GameConfig.gridHeight (Game.config g)) (Game.players g')
                   = true
                   ∨ (∃ w, w ∈ Game.walkers g' ∧ Walker.position w = Player.head a'))).
  { intros Hhit.
    pose proof (tick_collision_kills e g g' i a a' Hover Hstep Hnd Ha Halive Hi Hhit).
    congruence. }
  assert (Hcc : checkCollision (Player.head a')
                  (GameConfig.gridWidth (Game.config g))
                  (GameConfig.gridHeight (Game.config g)) (Game.players g')
                = false).
  { apply not_true_is_false. intros H. apply Hno. left. exact H. }
  apply checkCollision_false in Hcc as [Hin Hfree].
  split; [exact Hin |]. split; [exact Hfree |].
  intros w Hw Hpos. apply Hno. right. exists w. auto.
Qed.

Lemma survivors_are_clear_witness :
  ∃ a', a' ∈ Game.players (tickOf noEntropy pairGame)
    ∧ inBounds (Player.head a') 10 10
    ∧ (∀ b', b' ∈ Game.players (tickOf noEntropy pairGame) →
             Player.head a' ∉ Player.trail b')
    ∧ (∀ w, w ∈ Game.walkers (tickOf noEntropy pairGame) →
            Walker.position w ≠ Player.head a').
Proof.
  exists (Player.mk 1 "Player 1" P1_COLOR (Coordinate.mk 6 5)
            [Coordinate.mk 5 5; Coordinate.mk 5 5] RIGHT false 0).
  split; [vm_compute; left |].
  apply (survivors_are_clear noEntropy pairGame (tickOf noEntropy pairGame)).
  - reflexivity.
  - vm_compute. reflexivity.
  - apply NoDup_pair. discriminate.
  - vm_compute. left.
  - reflexivity.
Defined.

(** *** Walkers *)

Lemma stepWalker_inBounds pick width height w :
  inBounds (Walker.position w) width height →
  inBounds (Walker.position (stepWalker pick width height w)) width height.
Proof.
  intros Hin.
  destruct (stepWalker_spec pick width height w) as (_ & [(_ & _ & ->) | (_ & _ & ->)]);
    [| exact Hin].
  destruct (getWalkerMove_spec pick (Walker.position w) width height ∅)
    as ([[_ Hb] | ->] & _); assumption.
Qed.

Lemma moveWalkers_inBounds e width height walkers :
  (∀ w, w ∈ walkers → inBounds (Walker.position w) width height) →
  ∀ w, w ∈ moveWalkers e width height walkers →
       inBounds (Walker.position w) width height.
Proof.
  intros Hall w Hw. unfold moveWalkers in Hw.
  apply list_elem_of_lookup_1 in Hw as [j Hj].
  rewrite list_lookup_imap in Hj.
  destruct (walkers !! j) as [w0 |] eqn:Hw0; [| discriminate].
  simpl in Hj. injection Hj as <-.
  apply stepWalker_inBounds, Hall. eapply list_elem_of_lookup_2, Hw0.
Qed.

Lemma tick_walkers e g g' :
  walkersInBounds g → updateGame e g = Some g' →
  walkersInBounds g' ∧ Game.config g' = Game.config g
  ∧ map Walker.id (Game.walkers g') = map Walker.id (Game.walkers g).
Proof.
  intros Hin Hstep.
  destruct (tick_frame e g g' Hstep) as (Hcfg & _ & _ & _ & _ & _ & Hids).
  split; [| split; assumption].
  destruct (Game.isGameOver g) eqn:Hover.
  - rewrite (updateGame_over e g Hover) in Hstep. injection Hstep as <-. exact Hin.
  - destruct (tick_anatomy e g g' Hover Hstep) as (_ & _ & _ & Hws & _).
    unfold walkersInBounds. rewrite Hcfg, Hws.
    apply moveWalkers_inBounds, Hin.
Qed.

Lemma ticks_walkers es :
  ∀ g g', walkersInBounds g → ticks es g = Some g' →
    walkersInBounds g' ∧ Game.config g' = Game.config g
    ∧ map Walker.id (Game.walkers g') = map Walker.id (Game.walkers g).
Proof.
  induction es as [| e es IH]; intros g g' Hin Hrun; simpl in Hrun.
  - injection Hrun as <-. auto.
  - destruct (updateGame e g) as [g1 |] eqn:Hstep; [| discriminate].
    simpl in Hrun.
    destruct (tick_walkers e g g1 Hin Hstep) as (Hin1 & Hcfg1 & Hids1).
    destruct (IH g1 g' Hin1 Hrun) as (Hin' & Hcfg' & Hids').
    split; [exact Hin' |]. split; congruence.
Qed.

(** X11. Walkers that are inside the arena stay inside it over every run of
    ticks, and the run keeps the configuration and the ids of the walkers, in
    order. *)
Theorem walkers_stay_in_bounds es g g' :
  walkersInBounds g → ticks es g = Some g' →
  walkersInBounds g' ∧ Game.config g' = Game.config g
  ∧ map Walker.id (Game.walkers g') = map Walker.id (Game.walkers g).
Proof. apply ticks_walkers. Qed.

Lemma walkers_stay_in_bounds_witness :
  ∃ g', ticks [noEntropy; noEntropy] crashGame = Some g'
    ∧ walkersInBounds g' ∧ Game.config g' = Game.config crashGame
    ∧ map Walker.id (Game.walkers g') = map Walker.id (Game.walkers crashGame).
Proof.
  eexists. split; [reflexivity |].
  apply (walkers_stay_in_bounds [noEntropy; noEntropy] crashGame).
  - intros w Hw. simpl in Hw. apply list_elem_of_singleton in Hw as ->.
    unfold inBounds. simpl. lia.
  - reflexivity.
Defined.

(** ** Exceptions *)

Lemma processInputs_throws e mode width height todo :
  ∀ done queues,
    processInputs e mode width height done todo queues = None
    ↔ ∃ p, p ∈ todo ∧ Player.isDead p = false ∧ queues !! Player.id p = None.
Proof.
  induction todo as [| p rest IH]; intros done queues; simpl.
  - split; [discriminate |]. intros (p & Hp & _). inversion Hp.
  - destruct (Player.isDead p) eqn:Hdead.
    + rewrite IH. split.
      * intros (p' & Hp' & H). exists p'. split; [right; exact Hp' | exact H].
      * intros (p' & Hp' & Hal & Hq).
        apply elem_of_cons in Hp' as [-> | Hp']; [congruence |].
        exists p'. auto.
    + destruct (queues !! Player.id p) as [pending |] eqn:Hq.
      * rewrite IH. 
        assert (Hsame : ∀ i, match pending with
                             | [] => queues
                             | _ :: ds => <[Player.id p := ds]> queues
                             end !! i = None ↔ queues !! i = None).
        { intros i. destruct pending as [| d0 ds]; [reflexivity |].
          destruct (decide (Player.id p = i)) as [<- | Hne].
          - rewrite lookup_insert_eq, Hq. split; discriminate.
          - rewrite lookup_insert_ne by exact Hne. reflexivity. }
        split.
        -- intros (p' & Hp' & Hal & Hq'). exists p'.
           split; [right; exact Hp' |]. split; [exact Hal |].
           apply Hsame, Hq'.
        -- intros (p' & Hp' & Hal & Hq').
           apply elem_of_cons in Hp' as [-> | Hp']; [congruence |].
           exists p'. split; [exact Hp' |]. split; [exact Hal |].
           apply Hsame, Hq'.
      * split; [| reflexivity]. intros _. exists p. split; [left | auto].
Qed.

(** X13. [updateGame] throws exactly when the match is running and some
    living player has no turn queue (the read of the length of a missing
    entry). *)
Theorem updateGame_throws_iff e g :
  updateGame e g = None
  ↔ Game.isGameOver g = false
    ∧ ∃ p, p ∈ Game.players g ∧ Player.isDead p = false
           ∧ Game.inputQueue g !! Player.id p = None.
Proof.
  unfold updateGame. destruct (Game.isGameOver g).
  - split; [discriminate | intros [? _]; discriminate].
  - rewrite <- (processInputs_throws e (Game.mode g)
                  (GameConfig.gridWidth (Game.config g))
                  (GameConfig.gridHeight (Game.config g)) (Game.players g) []
                  (Game.inputQueue g)).
    destruct (processInputs _ _ _ _ _ _ _) as [[players1 queues] |]; simpl.
    + split; [discriminate | intros [_ ?]; discriminate].
    + split; auto.
Qed.

(** ** The key handler *)

(** What [registerTurn] does, case by case. *)
Lemma registerTurn_cases playerId turn g :
  match Game.inputQueue g !! playerId with
  | None => registerTurn playerId turn g = None
  | Some queue =>
      if (2 <? length queue)%nat then registerTurn playerId turn g = Some g
      else
        match last queue with
        | Some d =>
            registerTurn playerId turn g
            = Some (Game.mk (Game.config g) (Game.status g) (Game.mode g)
                      (Game.winner g) (Game.scores g) (Game.players g)
                      (Game.walkers g) (Game.isGameOver g)
                      (<[playerId := queue ++ [turned turn d]]>
                         (Game.inputQueue g)))
        | None =>
            match Game.players g !! (if playerId =? 1 then 0%nat else 1%nat) with
            | Some p =>
                registerTurn playerId turn g
                = Some (Game.mk (Game.config g) (Game.status g) (Game.mode g)
                          (Game.winner g) (Game.scores g) (Game.players g)
                          (Game.walkers g) (Game.isGameOver g)
                          (<[playerId := queue ++ [turned turn (Player.direction p)]]>
                             (Game.inputQueue g)))
            | None => registerTurn playerId turn g = None
            end
        end
  end.
Proof.
  unfold registerTurn.
  destruct (Game.inputQueue g !! playerId) as [queue |]; simpl; [| reflexivity].
  destruct (2 <? length queue)%nat; [reflexivity |].
  assert (Hturn : ∀ d, match turn with
                       | TurnLeft => dirOfZ ((dirToZ d + 3) mod 4)
                       | TurnRight => dirOfZ ((dirToZ d + 1) mod 4)
                       end = turned turn d)
    by (intros d; destruct turn; reflexivity).
  destruct (last queue) as [d |]; simpl.
  - rewrite Hturn, bool_decide_eq_true_2 by apply turned_ne. reflexivity.
  - destruct (Game.players g !! _) as [p |]; simpl; [| reflexivity].
    rewrite Hturn, bool_decide_eq_true_2 by apply turned_ne. reflexivity.
Qed.

Lemma quarterChain_snoc d queue d' :
  quarterChain d queue →
  d' = turnLeft (plannedDirection d queue)
  ∨ d' = turnRight (plannedDirection d queue) →
  quarterChain d (queue ++ [d']).
Proof.
  revert d. induction queue as [| x queue IH]; intros d Hchain Hd'; simpl in *.
  - split; [exact Hd' | exact I].
  - destruct Hchain as [Hx Hchain]. split; [exact Hx |].
    apply IH; [exact Hchain |].
    unfold plannedDirection in *. rewrite last_cons in Hd'.
    destruct (last queue); exact Hd'.
Qed.

Lemma turned_cases turn d : turned turn d = turnLeft d ∨ turned turn d = turnRight d.
Proof. destruct turn; auto. Qed.

Lemma registerTurn_wellFormed playerId turn g :
  wellFormed g → playerId = 1 ∨ (playerId = 2 ∧ Game.mode g ≠ PVE) →
  ∃ g', registerTurn playerId turn g = Some g' ∧ wellFormed g'
        ∧ Game.mode g' = Game.mode g ∧ Game.status g' = Game.status g.
Proof.
  intros (p1 & p2 & q1 & q2 & Hps & Hid1 & Hid2 & Hq1 & Hq2 & Hl1 & Hl2
          & Hc1 & Hc2 & Hpve) Hwho.
  pose proof (registerTurn_cases playerId turn g) as Hcases.
  destruct Hwho as [-> | [-> Hmode]].
  - rewrite Hq1 in Hcases.
    destruct (Nat.ltb_spec 2 (length q1)) as [Hfull | Hroom].
    { exists g. split; [exact Hcases |]. split; [| auto].
      exists p1, p2, q1, q2. auto 12. }
    assert (Hnew : ∃ d', (d' = turnLeft (plannedDirection (Player.direction p1) q1)
                          ∨ d' = turnRight (plannedDirection (Player.direction p1) q1))
                         ∧ registerTurn 1 turn g
                           = Some (Game.mk (Game.config g) (Game.status g)
                                     (Game.mode g) (Game.winner g) (Game.scores g)
                                     (Game.players g) (Game.walkers g)
                                     (Game.isGameOver g)
                                     (<[1 := q1 ++ [d']]> (Game.inputQueue g)))).
    { unfold plannedDirection. destruct (last q1) as [d |]; simpl.
      - exists (turned turn d). split; [apply turned_cases | exact Hcases].
      - assert (H0 : Game.players g !! 0%nat = Some p1)
          by (rewrite Hps; reflexivity).
        simpl in Hcases. rewrite H0 in Hcases.
        exists (turned turn (Player.direction p1)).
        split; [apply turned_cases | exact Hcases]. }
    destruct Hnew as (d' & Hd' & Hreg). eexists. split; [exact Hreg |].
    split; [| auto]. exists p1, p2, (q1 ++ [d']), q2. simpl.
    split; [exact Hps |]. split; [exact Hid1 |]. split; [exact Hid2 |].
    split; [apply lookup_insert_eq |].
    split; [rewrite lookup_insert_ne by discriminate; exact Hq2 |].
    split; [rewrite length_app; simpl; lia |]. split; [exact Hl2 |].
    split; [apply quarterChain_snoc; assumption |]. auto.
  - rewrite Hq2 in Hcases.
    destruct (Nat.ltb_spec 2 (length q2)) as [Hfull | Hroom].
    { exists g. split; [exact Hcases |]. split; [| auto].
      exists p1, p2, q1, q2. auto 12. }
    assert (Hnew : ∃ d', (d' = turnLeft (plannedDirection (Player.direction p2) q2)
                          ∨ d' = turnRight (plannedDirection (Player.direction p2) q2))
                         ∧ registerTurn 2 turn g
                           = Some (Game.mk (Game.config g) (Game.status g)
                                     (Game.mode g) (Game.winner g) (Game.scores g)
                                     (Game.players g) (Game.walkers g)
                                     (Game.isGameOver g)
                                     (<[2 := q2 ++ [d']]> (Game.inputQueue g)))).
    { unfold plannedDirection. destruct (last q2) as [d |]; simpl.
      - exists (turned turn d). split; [apply turned_cases | exact Hcases].
      - assert (H1 : Game.players g !! 1%nat = Some p2)
          by (rewrite Hps; reflexivity).
        simpl in Hcases. rewrite H1 in Hcases.
        exists (turned turn (Player.direction p2)).
        split; [apply turned_cases | exact Hcases]. }
    destruct Hnew as (d' & Hd' & Hreg). eexists. split; [exact Hreg |].
    split; [| auto]. exists p1, p2, q1, (q2 ++ [d']). simpl.
    split; [exact Hps |]. split; [exact Hid1 |]. split; [exact Hid2 |].
    split; [rewrite lookup_insert_ne by discriminate; exact Hq1 |].
    split; [apply lookup_insert_eq |].
    split; [exact Hl1 |]. split; [rewrite length_app; simpl; lia |].
    split; [exact Hc1 |].
    split; [apply quarterChain_snoc; assumption |]. intros; contradiction.
Qed.

(** X14. [registerTurn] throws exactly when the player has no turn queue, or
    when its queue is empty and the players array has no entry for it (the
    read of the direction of a missing player). *)
Theorem registerTurn_throws_iff playerId turn g :
  registerTurn playerId turn g = None
  ↔ Game.inputQueue g !! playerId = None
    ∨ (Game.inputQueue g !! playerId = Some []
       ∧ Game.players g !! (if playerId =? 1 then 0%nat else 1%nat) = None).
Proof.
  pose proof (registerTurn_cases playerId turn g) as Hcases.
  destruct (Game.inputQueue g !! playerId) as [queue |].
  - destruct queue as [| d0 queue].
    + simpl in Hcases.
      destruct (Game.players g !! _) as [p |]; rewrite Hcases.
      * split; [discriminate | intros [? | [_ ?]]; discriminate].
      * split; auto.
    + destruct (2 <? length (d0 :: queue))%nat.
      * rewrite Hcases. split; [discriminate | intros [? | [? _]]; discriminate].
      * destruct (last (d0 :: queue)) as [d |] eqn:Hlast.
        -- rewrite Hcases.
           split; [discriminate | intros [? | [? _]]; discriminate].
        -- apply last_None in Hlast. discriminate.
  - rewrite Hcases. split; auto.
Qed.

Lemma sameButQueues_refl g : sameButQueues g g.
Proof. destruct g. reflexivity. Qed.

Lemma sameButQueues_trans g1 g2 g3 :
  sameButQueues g1 g2 → sameButQueues g2 g3 → sameButQueues g1 g3.
Proof.
  unfold sameButQueues. intros H12 H23. rewrite H23. rewrite H12. reflexivity.
Qed.

Lemma sameButQueues_eq g g' :
  sameButQueues g g' → Game.inputQueue g' = Game.inputQueue g → g' = g.
Proof. unfold sameButQueues. intros -> Hq. simpl in Hq. rewrite Hq. destruct g. reflexivity. Qed.

(** A turn request of a player with a queue: nothing when three turns
    are pending, else one more pending turn, a quarter turn from the planned
    direction. *)
Lemma registerTurn_outcome playerId turn g g' queue :
  registerTurn playerId turn g = Some g' →
  Game.inputQueue g !! playerId = Some queue →
  sameButQueues g g'
  ∧ ((3 <= length queue)%nat → g' = g)
  ∧ ((length queue < 3)%nat →
     ∃ d, Game.inputQueue g' = <[playerId := queue ++ [d]]> (Game.inputQueue g)
          ∧ ∀ p, Game.players g !! (if playerId =? 1 then 0%nat else 1%nat)
                 = Some p →
                 d = turned turn (plannedDirection (Player.direction p) queue)).
Proof.
  intros Hreg Hq. pose proof (registerTurn_cases playerId turn g) as Hcases.
  rewrite Hq in Hcases.
  destruct (Nat.ltb_spec 2 (length queue)) as [Hfull | Hroom].
  - rewrite Hcases in Hreg. injection Hreg as <-.
    split; [apply sameButQueues_refl |]. split; [reflexivity | lia].
  - unfold plannedDirection. destruct (last queue) as [d |]; simpl.
    + rewrite Hcases in Hreg. injection Hreg as <-.
      split; [reflexivity |]. split; [lia |]. intros _.
      exists (turned turn d). simpl. auto.
    + destruct (Game.players g !! _) as [p |]; rewrite Hcases in Hreg;
        [| discriminate].
      injection Hreg as <-.
      split; [reflexivity |]. split; [lia |]. intros _.
      exists (turned turn (Player.direction p)). simpl.
      split; [reflexivity |]. intros p' [= <-]. reflexivity.
Qed.

(** X15. A turn request that returns changes nothing but the turn queues,
    and no queue but the player's own.  With three turns pending it changes
    nothing at all; with fewer it appends exactly one direction: the
    requested quarter turn from the planned direction (the last queued one,
    else the facing). *)
Theorem registerTurn_queue_capacity playerId turn g g' queue :
  registerTurn playerId turn g = Some g' →
  Game.inputQueue g !! playerId = Some queue →
  sameButQueues g g'
  ∧ (∀ j, j ≠ playerId → Game.inputQueue g' !! j = Game.inputQueue g !! j)
  ∧ ((3 <= length queue)%nat → g' = g)
  ∧ ((length queue < 3)%nat →
     ∃ d, Game.inputQueue g' !! playerId = Some (queue ++ [d])
          ∧ ∀ p, Game.players g !! (if playerId =? 1 then 0%nat else 1%nat)
                 = Some p →
                 d = turned turn (plannedDirection (Player.direction p) queue)).
Proof.
  intros Hreg Hq.
  destruct (registerTurn_outcome playerId turn g g' queue Hreg Hq)
    as (Hsame & Hfull & Hroom).
  split; [exact Hsame |]. split; [| split; [exact Hfull |]].
  - intros j Hj. destruct (Nat.le_gt_cases 3 (length queue)) as [H3 | H3].
    + rewrite (Hfull H3). reflexivity.
    + destruct (Hroom H3) as (d & -> & _). apply lookup_insert_ne. congruence.
  - intros H3. destruct (Hroom H3) as (d & Hqs & Hd). exists d.
    split; [rewrite Hqs; apply lookup_insert_eq | exact Hd].
Qed.

Lemma registerTurn_queue_capacity_witness :
  ∃ g', registerTurn 1 TurnLeft swapGame = Some g'
    ∧ sameButQueues swapGame g'
    ∧ (∀ j, j ≠ 1 → Game.inputQueue g' !! j = Game.inputQueue swapGame !! j)
    ∧ ((3 <= length (@nil Direction))%nat → g' = swapGame)
    ∧ ((length (@nil Direction) < 3)%nat →
       ∃ d, Game.inputQueue g' !! 1 = Some ([] ++ [d])
            ∧ ∀ p, Game.players swapGame !! 0%nat = Some p →
                   d = turned TurnLeft (plannedDirection (Player.direction p) [])).
Proof.
  eexists. split; [reflexivity |].
  apply (registerTurn_queue_capacity 1 TurnLeft swapGame _ []); reflexivity.
Defined.

Lemma maybeTurn_frame (b : bool) playerId turn g g' :
  (if b then registerTurn playerId turn g else Some g) = Some g' →
  sameButQueues g g'
  ∧ (∀ j, j ≠ playerId → Game.inputQueue g' !! j = Game.inputQueue g !! j)
  ∧ (b = false → g' = g).
Proof.
  destruct b; intros Hreg.
  - destruct (Game.inputQueue g !! playerId) as [queue |] eqn:Hq.
    + destruct (registerTurn_outcome playerId turn g g' queue Hreg Hq)
        as (Hsame & Hfull & Hroom).
      split; [exact Hsame |]. split; [| discriminate].
      intros j Hj. destruct (Nat.le_gt_cases 3 (length queue)) as [H3 | H3].
      * rewrite (Hfull H3). reflexivity.
      * destruct (Hroom H3) as (d & -> & _). apply lookup_insert_ne. congruence.
    + pose proof (registerTurn_cases playerId turn g) as Hcases.
      rewrite Hq in Hcases. congruence.
  - injection Hreg as <-. split; [apply sameButQueues_refl |]. auto.
Qed.

Lemma sameButQueues_fields g g' :
  sameButQueues g g' →
  Game.status g' = Game.status g ∧ Game.mode g' = Game.mode g.
Proof. unfold sameButQueues. intros ->. simpl. auto. Qed.

(** X16. The key handler changes nothing but the turn queues; nothing at all
    outside PLAYING or on a key other than A, D and the two arrows; no queue
    but that of player 1 unless the mode is PVP.  A and D leave the queue of
    player 2 alone, the arrows that of player 1. *)
Theorem handleKeyDown_gating code g g' :
  handleKeyDown code g = Some g' →
  sameButQueues g g'
  ∧ (Game.status g ≠ PLAYING → g' = g)
  ∧ (code ∉ ["KeyA"; "KeyD"; "ArrowLeft"; "ArrowRight"] → g' = g)
  ∧ (Game.mode g ≠ PVP →
     ∀ j, j ≠ 1 → Game.inputQueue g' !! j = Game.inputQueue g !! j)
  ∧ (code ∉ ["KeyA"; "KeyD"] →
     Game.inputQueue g' !! 1 = Game.inputQueue g !! 1)
  ∧ (code ∉ ["ArrowLeft"; "ArrowRight"] →
     Game.inputQueue g' !! 2 = Game.inputQueue g !! 2).
Proof.
  unfold handleKeyDown. intros Hkey.
  destruct (bool_decide (Game.status g ≠ PLAYING)) eqn:Hst.
  { injection Hkey as <-. split; [apply sameButQueues_refl |]. auto 10. }
  apply bool_decide_eq_false in Hst.
  destruct (if bool_decide (code = "KeyA") then registerTurn 1 TurnLeft g
            else Some g) as [g1 |] eqn:H1; [| discriminate].
  simpl in Hkey.
  destruct (if bool_decide (code = "KeyD") then registerTurn 1 TurnRight g1
            else Some g1) as [g2 |] eqn:H2; [| discriminate].
  simpl in Hkey.
  apply maybeTurn_frame in H1 as (Hs1 & Ho1 & He1).
  apply maybeTurn_frame in H2 as (Hs2 & Ho2 & He2).
  assert (Hs12 : sameButQueues g g2) by (eapply sameButQueues_trans; eassumption).
  assert (Ho12 : ∀ j, j ≠ 1 → Game.inputQueue g2 !! j = Game.inputQueue g !! j)
    by (intros j Hj; rewrite (Ho2 j Hj); apply Ho1, Hj).
  assert (He12 : code ∉ ["KeyA"; "KeyD"] → g2 = g).
  { intros Hc. rewrite He2, He1; [reflexivity | |];
      apply bool_decide_eq_false; intros ->; apply Hc; set_solver. }
  destruct (bool_decide (Game.mode g = PVP)) eqn:Hmode.
  - destruct (if bool_decide (code = "ArrowLeft") then registerTurn 2 TurnLeft g2
              else Some g2) as [g3 |] eqn:H3; [| discriminate].
    simpl in Hkey.
    apply maybeTurn_frame in H3 as (Hs3 & Ho3 & He3).
    apply maybeTurn_frame in Hkey as (Hs4 & Ho4 & He4).
    assert (He34 : code ∉ ["ArrowLeft"; "ArrowRight"] → g' = g2).
    { intros Hc. rewrite He4, He3; [reflexivity | |];
        apply bool_decide_eq_false; intros ->; apply Hc; set_solver. }
    apply bool_decide_eq_true in Hmode.
    split; [eauto using sameButQueues_trans |].
    split; [intros; contradiction |].
    split; [| split; [intros; contradiction | split]].
    + intros Hc. rewrite He34 by set_solver. apply He12. set_solver.
    + intros Hc. rewrite (Ho4 1), (Ho3 1) by discriminate.
      rewrite He12 by exact Hc. reflexivity.
    + intros Hc. rewrite He34 by exact Hc. apply Ho12. discriminate.
  - injection Hkey as <-. apply bool_decide_eq_false in Hmode.
    split; [exact Hs12 |]. split; [intros; contradiction |].
    split; [intros Hc; apply He12; set_solver |].
    split; [intros _; exact Ho12 |].
    split; [intros Hc; rewrite He12 by exact Hc; reflexivity |].
    intros _. apply Ho12. discriminate.
Qed.

Lemma handleKeyDown_gating_witness :
  ∃ g', handleKeyDown "KeyA" swapGame = Some g'
    ∧ sameButQueues swapGame g'
    ∧ (Game.status swapGame ≠ PLAYING → g' = swapGame)
    ∧ ("KeyA" ∉ ["KeyA"; "KeyD"; "ArrowLeft"; "ArrowRight"] → g' = swapGame)
    ∧ (Game.mode swapGame ≠ PVP →
       ∀ j, j ≠ 1 → Game.inputQueue g' !! j = Game.inputQueue swapGame !! j)
    ∧ ("KeyA" ∉ ["KeyA"; "KeyD"] →
       Game.inputQueue g' !! 1 = Game.inputQueue swapGame !! 1)
    ∧ ("KeyA" ∉ ["ArrowLeft"; "ArrowRight"] →
       Game.inputQueue g' !! 2 = Game.inputQueue swapGame !! 2).
Proof.
  eexists. split; [reflexivity |].
  apply (handleKeyDown_gating "KeyA" swapGame). reflexivity.
Defined.

(** X17. While the status is not PLAYING, keys and animation frames leave
    the whole state as it is. *)
Theorem frozen_outside_play evs g :
  Game.status g ≠ PLAYING → Forall (fun ev => isInput ev = true) evs →
  run evs g = Some g.
Proof.
  intros Hst Hall. induction Hall as [| ev evs Hev _ IH]; simpl; [reflexivity |].
  assert (Hh : handle ev g = Some g).
  { destruct ev as [code | due en | ws | m |]; simpl in *; try discriminate.
    - unfold handleKeyDown. rewrite bool_decide_eq_true_2 by exact Hst. reflexivity.
    - unfold loop. rewrite bool_decide_eq_true_2 by exact Hst. reflexivity. }
  rewrite Hh. simpl. exact IH.
Qed.

Lemma frozen_outside_play_witness :
  run [KeyDown "KeyA"; Frame true noEntropy; KeyDown "ArrowLeft"] mountedGame
  = Some mountedGame.
Proof.
  apply (frozen_outside_play
           [KeyDown "KeyA"; Frame true noEntropy; KeyDown "ArrowLeft"] mountedGame).
  - discriminate.
  - repeat constructor.
Defined.

(** ** Well-formed play *)

Lemma maybeTurn_wellFormed (b : bool) playerId turn g :
  wellFormed g → playerId = 1 ∨ (playerId = 2 ∧ Game.mode g ≠ PVE) →
  ∃ g', (if b then registerTurn playerId turn g else Some g) = Some g'
        ∧ wellFormed g' ∧ Game.mode g' = Game.mode g.
Proof.
  intros Hwf Hwho. destruct b.
  - destruct (registerTurn_wellFormed playerId turn g Hwf Hwho)
      as (g' & Hreg & Hwf' & Hmode & _). eauto.
  - eauto.
Qed.

Lemma handleKeyDown_wellFormed code g :
  wellFormed g → ∃ g', handleKeyDown code g = Some g' ∧ wellFormed g'.
Proof.
  intros Hwf. unfold handleKeyDown.
  destruct (bool_decide (Game.status g ≠ PLAYING)); [eauto |].
  destruct (maybeTurn_wellFormed (bool_decide (code = "KeyA")) 1 TurnLeft g Hwf)
    as (g1 & -> & Hwf1 & Hm1); [auto |]. simpl.
  destruct (maybeTurn_wellFormed (bool_decide (code = "KeyD")) 1 TurnRight g1 Hwf1)
    as (g2 & -> & Hwf2 & Hm2); [auto |]. simpl.
  destruct (bool_decide (Game.mode g = PVP)) eqn:Hmode; [| eauto].
  apply bool_decide_eq_true in Hmode.
  destruct (maybeTurn_wellFormed (bool_decide (code = "ArrowLeft")) 2 TurnLeft g2 Hwf2)
    as (g3 & -> & Hwf3 & Hm3); [right; split; [reflexivity | congruence] |]. simpl.
  destruct (maybeTurn_wellFormed (bool_decide (code = "ArrowRight")) 2 TurnRight g3 Hwf3)
    as (g4 & -> & Hwf4 & Hm4); [right; split; [reflexivity | congruence] |].
  eauto.
Qed.

Lemma quarter_candidate d d' :
  d' = turnLeft d ∨ d' = turnRight d → d' ∈ candidates d.
Proof. unfold candidates. intros [-> | ->]; set_solver. Qed.

(** Step 1 on one living player with a chain of quarter turns pending. *)
Lemma step1_chain seed mode width height before after p pending :
  quarterChain (Player.direction p) pending →
  (isAI mode p = true → pending = []) →
  Player.id (applyAI seed mode width height before after (dequeueTurn pending p))
  = Player.id p
  ∧ Player.direction
      (applyAI seed mode width height before after (dequeueTurn pending p))
    ∈ candidates (Player.direction p)
  ∧ quarterChain
      (Player.direction
         (applyAI seed mode width height before after (dequeueTurn pending p)))
      (tail pending).
Proof.
  intros Hchain Hai.
  pose proof (sameButDirection_dequeueTurn pending p) as Hsame.
  pose proof (sameButDirection_applyAI seed mode width height before after _ _ Hsame)
    as Hsame'.
  apply sameButDirection_fields in Hsame' as (Hid & _).
  split; [exact Hid |].
  rewrite (applyAI_direction seed mode width height before after
             (before ++ dequeueTurn pending p :: after)) by reflexivity.
  rewrite (isAI_sameButDirection _ _ _ Hsame).
  destruct (isAI mode p) eqn:Hp.
  - rewrite (Hai eq_refl). simpl. split; [apply getAIMove_candidate | exact I].
  - destruct pending as [| d ds]; simpl in *.
    + split; [left | exact I].
    + destruct Hchain as [Hd Hds]. split; [apply quarter_candidate, Hd | exact Hds].
Qed.

Lemma wellFormed_checkWin g : wellFormed g → wellFormed (checkWin g).
Proof.
  unfold wellFormed.
  destruct (checkWin_fields g) as (-> & _ & -> & _ & ->). auto.
Qed.

Lemma tail_length_le {A : Type} (l : list A) : (length (tail l) <= length l)%nat.
Proof. destruct l; simpl; lia. Qed.

Lemma isAI_first mode p : Player.id p = 1 → isAI mode p = false.
Proof. unfold isAI. intros ->. apply andb_false_r. Qed.

Lemma isAI_second mode p : isAI mode p = true → mode = PVE.
Proof.
  unfold isAI. intros H. apply andb_true_iff in H as [H _].
  apply bool_decide_eq_true in H. exact H.
Qed.

(** Step 1 on one player of a well-formed match, living or dead: the
    player and the queues it leaves. *)
Lemma processInputs_one e mode width height done p rest queues pending :
  queues !! Player.id p = Some pending →
  quarterChain (Player.direction p) pending →
  (isAI mode p = true → pending = []) →
  ∃ r pending',
    processInputs e mode width height done (p :: rest) queues
    = processInputs e mode width height (done ++ [r]) rest
        (<[Player.id p := pending']> queues)
    ∧ Player.id r = Player.id p
    ∧ Player.direction r ∈ candidates (Player.direction p)
    ∧ quarterChain (Player.direction r) pending'
    ∧ (length pending' <= length pending)%nat
    ∧ (pending = [] → pending' = []).
Proof.
  intros Hq Hchain Hai. simpl. destruct (Player.isDead p).
  - exists p, pending. rewrite insert_id by exact Hq.
    split; [reflexivity |]. split; [reflexivity |]. split; [left |]. auto.
  - rewrite Hq.
    destruct (step1_chain (aiDraw e (length done)) mode width height done rest
                p pending Hchain Hai) as (Hid & Hdir & Hch).
    exists (applyAI (aiDraw e (length done)) mode width height done rest
              (dequeueTurn pending p)), (tail pending). split.
    { destruct pending as [| d ds]; simpl;
        [rewrite insert_id by exact Hq |]; reflexivity. }
    split; [exact Hid |]. split; [exact Hdir |]. split; [exact Hch |].
    split; [apply tail_length_le |]. intros ->. reflexivity.
Qed.

Lemma processInputs_pair e mode width height p1 p2 q1 q2 queues :
  Player.id p1 = 1 → Player.id p2 = 2 →
  queues !! 1 = Some q1 → queues !! 2 = Some q2 →
  quarterChain (Player.direction p1) q1 →
  quarterChain (Player.direction p2) q2 →
  (mode = PVE → q2 = []) →
  ∃ r1 r2 qs q1' q2',
    processInputs e mode width height [] [p1; p2] queues = Some ([r1; r2], qs)
    ∧ Player.id r1 = 1 ∧ Player.id r2 = 2
    ∧ qs !! 1 = Some q1' ∧ qs !! 2 = Some q2'
    ∧ (length q1' <= length q1)%nat ∧ (length q2' <= length q2)%nat
    ∧ quarterChain (Player.direction r1) q1'
    ∧ quarterChain (Player.direction r2) q2'
    ∧ (mode = PVE → q2' = [])
    ∧ Player.direction r1 ∈ candidates (Player.direction p1)
    ∧ Player.direction r2 ∈ candidates (Player.direction p2).
Proof.
  intros Hid1 Hid2 Hq1 Hq2 Hc1 Hc2 Hpve.
  destruct (processInputs_one e mode width height [] p1 [p2] queues q1)
    as (r1 & q1' & Hrun1 & Hr1 & Hd1 & Hch1 & Hl1 & _).
  { rewrite Hid1. exact Hq1. }
  { exact Hc1. }
  { rewrite (isAI_first mode p1 Hid1). discriminate. }
  destruct (processInputs_one e mode width height ([] ++ [r1]) p2 []
              (<[Player.id p1 := q1']> queues) q2)
    as (r2 & q2' & Hrun2 & Hr2 & Hd2 & Hch2 & Hl2 & He2).
  { rewrite Hid1, Hid2, lookup_insert_ne by discriminate. exact Hq2. }
  { exact Hc2. }
  { intros Hai. apply Hpve. eapply isAI_second, Hai. }
  exists r1, r2, (<[Player.id p2 := q2']> (<[Player.id p1 := q1']> queues)), q1', q2'.
  rewrite Hrun1, Hrun2. simpl.
  split; [reflexivity |]. split; [congruence |]. split; [congruence |].
  rewrite Hid1, Hid2.
  split; [rewrite lookup_insert_ne by discriminate; apply lookup_insert_eq |].
  split; [apply lookup_insert_eq |].
  repeat (split; [assumption |]). split; [| auto].
  intros Hm. apply He2, Hpve, Hm.
Qed.

Lemma updateGame_wellFormed e g :
  wellFormed g →
  ∃ g', updateGame e g = Some g' ∧ wellFormed g'
        ∧ Forall2 (fun p p' =>
                     Player.direction p' ∈ candidates (Player.direction p))
            (Game.players g) (Game.players g').
Proof.
  intros Hwf. destruct (Game.isGameOver g) eqn:Hover.
  { exists g. split; [apply updateGame_over, Hover |]. split; [exact Hwf |].
    apply Forall_Forall2_diag, Forall_forall. intros p _. left. }
  destruct Hwf as (p1 & p2 & q1 & q2 & Hps & Hid1 & Hid2 & Hq1 & Hq2 & Hl1 & Hl2
                   & Hc1 & Hc2 & Hpve).
  destruct (processInputs_pair e (Game.mode g)
              (GameConfig.gridWidth (Game.config g))
              (GameConfig.gridHeight (Game.config g)) p1 p2 q1 q2
              (Game.inputQueue g) Hid1 Hid2 Hq1 Hq2 Hc1 Hc2 Hpve)
    as (r1 & r2 & qs & q1' & q2' & Hrun & Hr1 & Hr2 & Hq1' & Hq2' & Hl1' & Hl2'
        & Hc1' & Hc2' & Hpve' & Hd1 & Hd2).
  set (g1 := afterCollisions e g [r1; r2] qs).
  exists (checkWin g1). split.
  { unfold updateGame, g1, afterCollisions. rewrite Hover, Hps, Hrun. reflexivity. }
  destruct (checkWin_fields g1) as (Hpl & _ & Hqu & _ & Hmo).
  pose proof (applyDeaths_shape
                (fold_left
                   (detectCollisions (GameConfig.gridWidth (Game.config g))
                      (GameConfig.gridHeight (Game.config g))
                      (map movePlayer [r1; r2])
                      (moveWalkers e (GameConfig.gridWidth (Game.config g))
                         (GameConfig.gridHeight (Game.config g))
                         (Game.walkers g)))
                   (map movePlayer [r1; r2]) [])
                (map movePlayer [r1; r2])) as Hshape.
  change (applyDeaths _ _) with (Game.players g1) in Hshape.
  rewrite <- Hpl in Hshape. rewrite Hps.
  destruct (Game.players (checkWin g1)) as [| s1 after] eqn:Hafter;
    [inversion Hshape |].
  apply Forall2_cons_1 in Hshape as [Hs1 Hshape].
  destruct after as [| s2 after]; [inversion Hshape |].
  apply Forall2_cons_1 in Hshape as [Hs2 Hshape].
  apply Forall2_nil_inv_l in Hshape as ->.
  apply deadOrSame_fields in Hs1 as (Hi1 & _ & _ & _ & Hdir1 & _).
  apply deadOrSame_fields in Hs2 as (Hi2 & _ & _ & _ & Hdir2 & _).
  rewrite movePlayer_id in Hi1, Hi2.
  rewrite movePlayer_direction in Hdir1, Hdir2.
  split.
  - exists s1, s2, q1', q2'. rewrite Hqu, Hmo, Hdir1, Hdir2.
    split; [exact Hafter |]. split; [congruence |]. split; [congruence |].
    split; [exact Hq1' |]. split; [exact Hq2' |].
    split; [lia |]. split; [lia |]. auto.
  - rewrite <- Hdir1 in Hd1. rewrite <- Hdir2 in Hd2.
    constructor; [exact Hd1 |]. constructor; [exact Hd2 | constructor].
Qed.

Lemma startGame_wellFormed newWalkers g : wellFormed (startGame newWalkers g).
Proof.
  unfold wellFormed, startGame, initGame, initPlayers. simpl.
  eexists _, _, [], []. repeat split; simpl; auto.
Qed.

Lemma handle_playable ev g :
  playable g → ∃ g', handle ev g = Some g' ∧ playable g'.
Proof.
  intros Hplay. destruct ev as [code | due e | ws | m |]; simpl.
  - destruct (decide (Game.status g = PLAYING)) as [Hst | Hst].
    + destruct (handleKeyDown_wellFormed code g (Hplay Hst)) as (g' & Hg' & Hwf').
      exists g'. split; [exact Hg' |]. intros _. exact Hwf'.
    + exists g. split; [| exact Hplay].
      unfold handleKeyDown. rewrite bool_decide_eq_true_2 by exact Hst. reflexivity.
  - unfold loop. destruct (bool_decide (Game.status g ≠ PLAYING)) eqn:Hst; [eauto |].
    destruct due; [| eauto].
    apply bool_decide_eq_false in Hst.
    destruct (decide (Game.status g = PLAYING)) as [Hst' | Hst'];
      [| contradiction].
    destruct (updateGame_wellFormed e g (Hplay Hst')) as (g' & Hg' & Hwf' & _).
    exists g'. split; [exact Hg' |]. intros _. exact Hwf'.
  - destruct (bool_decide _); [| eauto].
    eexists. split; [reflexivity |]. intros _. apply startGame_wellFormed.
  - destruct (bool_decide (Game.status g = MENU)) eqn:Hst; [| eauto].
    apply bool_decide_eq_true in Hst.
    eexists. split; [reflexivity |]. unfold playable, setGameMode. simpl.
    rewrite Hst. discriminate.
  - destruct (bool_decide _); [| eauto].
    eexists. split; [reflexivity |]. unfold playable, setStatus. simpl. discriminate.
Qed.

Lemma run_playable evs :
  ∀ g, playable g → ∃ g', run evs g = Some g' ∧ playable g'.
Proof.
  induction evs as [| ev evs IH]; intros g Hplay; simpl; [eauto |].
  destruct (handle_playable ev g Hplay) as (g1 & -> & Hplay1). simpl.
  apply IH, Hplay1.
Qed.

(** X18. The component never throws: from a state that is well formed
    whenever it is being played, as the mounted component is, every sequence
    of keys, frames and clicks runs to its end, and ends in such a state.  So
    during play there are two players with ids 1 and 2, each with a queue of
    at most three pending turns, a chain of quarter turns from its facing,
    and the queue of the CPU is empty. *)
Theorem play_never_throws evs g :
  playable g → ∃ g', run evs g = Some g' ∧ playable g'.
Proof. apply run_playable. Qed.

Lemma play_never_throws_witness :
  ∃ g', run [ClickMode PVP; ClickStart []; KeyDown "KeyA"; KeyDown "ArrowRight";
             Frame true noEntropy; Frame false noEntropy; ClickMenu]
          mountedGame = Some g'
        ∧ playable g'.
Proof.
  apply (play_never_throws
           [ClickMode PVP; ClickStart []; KeyDown "KeyA"; KeyDown "ArrowRight";
            Frame true noEntropy; Frame false noEntropy; ClickMenu] mountedGame).
  intros H. discriminate H.
Defined.

(** X19. In a well-formed match no tick reverses a cycle: after the tick
    every player faces its previous direction, its left or its right, never
    the opposite. *)
Theorem no_reversal_in_one_tick e g g' i p p' :
  wellFormed g → updateGame e g = Some g' →
  Game.players g !! i = Some p → Game.players g' !! i = Some p' →
  Player.direction p' ∈ candidates (Player.direction p)
  ∧ Player.direction p' ≠ opposite (Player.direction p).
Proof.
  intros Hwf Hstep Hp Hp'.
  destruct (updateGame_wellFormed e g Hwf) as (g1 & Hg1 & _ & Hall).
  rewrite Hstep in Hg1. injection Hg1 as <-.
  pose proof (Forall2_lookup_lr _ _ _ _ _ _ Hall Hp Hp') as Hdir.
  simpl in Hdir.
  split; [exact Hdir |].
  intros Heq. rewrite Heq in Hdir. exact (opposite_not_candidate _ Hdir).
Qed.

Lemma no_reversal_in_one_tick_witness :
  ∃ p', Game.players (tickOf noEntropy pairGame) !! 0%nat = Some p'
        ∧ Player.direction p' ∈ candidates RIGHT
        ∧ Player.direction p' ≠ opposite RIGHT.
Proof.
  eexists. split; [reflexivity |].
  apply (no_reversal_in_one_tick noEntropy pairGame (tickOf noEntropy pairGame)
           0%nat (newPlayer 1 "Player 1" P1_COLOR (Coordinate.mk 5 5) RIGHT)).
  - eexists _, _, [], []. repeat split; simpl; auto; discriminate.
  - vm_compute. reflexivity.
  - reflexivity.
  - reflexivity.
Defined.

(** ** The walkers of a new match *)

Lemma randomBelow_range n draw : 0 < n → 0 <= randomBelow n draw < n.
Proof.
  intros Hn. unfold randomBelow.
  destruct (Z.ltb_spec 0 n); [| lia]. apply Z.mod_pos_bound, Hn.
Qed.

Lemma sampleWalkerPos_spec draws width height :
  ∀ pos rest,
    sampleWalkerPos draws width height = Some (pos, rest) →
    awayFromStarts pos = true
    ∧ (0 < width → 0 < height → inBounds pos width height)
    ∧ (length rest < length draws)%nat.
Proof.
  induction draws as [draws IH] using (induction_ltof1 _ (@length nat)).
  unfold ltof in IH. intros pos rest Hs.
  destruct draws as [| dx [| dy draws']]; simpl in Hs; try discriminate.
  destruct (awayFromStarts _) eqn:Haway.
  - injection Hs as <- <-. split; [exact Haway |]. split; [| simpl; lia].
    intros Hw Hh. split; simpl; apply randomBelow_range; assumption.
  - apply IH in Hs as (H1 & H2 & H3); [| simpl; lia].
    split; [exact H1 |]. split; [exact H2 | simpl; lia].
Qed.

Lemma spawnWalkers_spec n :
  ∀ i draws width height ws rest,
    spawnWalkers n i draws width height = Some (ws, rest) →
    map Walker.id ws = seqZ i (Z.of_nat n)
    ∧ ∀ w, w ∈ ws →
        awayFromStarts (Walker.position w) = true
        ∧ 0 <= Walker.moveTimer w < WALKER_SPEED_MOD
        ∧ (0 < width → 0 < height →
           inBounds (Walker.position w) width height).
Proof.
  induction n as [| n IH]; intros i draws width height ws rest Hs; simpl in Hs.
  - injection Hs as <- <-. split; [reflexivity |]. intros w Hw. inversion Hw.
  - destruct (sampleWalkerPos draws width height) as [[pos draws1] |] eqn:Hpos;
      [| discriminate].
    simpl in Hs. destruct draws1 as [| dt draws2]; [discriminate |].
    destruct (spawnWalkers n (i + 1) draws2 width height) as [[ws' draws3] |]
      eqn:Hrest; [| discriminate].
    simpl in Hs. injection Hs as <- <-.
    apply IH in Hrest as [Hids Hall].
    apply sampleWalkerPos_spec in Hpos as (Haway & Hin & _).
    split.
    + simpl map. rewrite Hids.
      replace (Z.of_nat (S n)) with (Z.succ (Z.of_nat n)) by lia.
      rewrite (seqZ_cons i) by lia.
      replace (Z.pred (Z.succ (Z.of_nat n))) with (Z.of_nat n) by lia.
      replace (Z.succ i) with (i + 1) by lia. reflexivity.
    + intros w Hw. apply elem_of_cons in Hw as [-> | Hw]; [| apply Hall, Hw].
      simpl. split; [exact Haway |]. split; [| exact Hin].
      apply randomBelow_range. reflexivity.
Qed.

(** X20. The walkers [initGame] draws: five of them, with the ids 0 to 4 in
    order, each more than five columns away from both start columns, with a
    timer of 0 or 1, and inside the arena when its sizes are positive. *)
Theorem initGameDrawn_walkers draws g g0 :
  initGameDrawn draws g = Some g0 →
  map Walker.id (Game.walkers g0) = [0; 1; 2; 3; 4]
  ∧ (∀ w, w ∈ Game.walkers g0 →
       awayFromStarts (Walker.position w) = true
       ∧ (Walker.moveTimer w = 0 ∨ Walker.moveTimer w = 1))
  ∧ (0 < GameConfig.gridWidth (Game.config g) →
     0 < GameConfig.gridHeight (Game.config g) → walkersInBounds g0).
Proof.
  unfold initGameDrawn. intros Hinit.
  destruct (spawnWalkers _ _ _ _ _) as [[ws rest] |] eqn:Hspawn; [| discriminate].
  simpl in Hinit. injection Hinit as <-. simpl.
  apply spawnWalkers_spec in Hspawn as [Hids Hall].
  split; [exact Hids |]. split.
  - intros w Hw. destruct (Hall w Hw) as (Haway & Htimer & _).
    split; [exact Haway |]. unfold WALKER_SPEED_MOD in Htimer. lia.
  - intros Hw Hh w Hin. simpl. apply (Hall w Hin); assumption.
Qed.

Lemma initGameDrawn_walkers_witness :
  ∃ g0, initGameDrawn fiveWalkerDraws (mountedGame) = Some g0
    ∧ map Walker.id (Game.walkers g0) = [0; 1; 2; 3; 4]
    ∧ (∀ w, w ∈ Game.walkers g0 →
         awayFromStarts (Walker.position w) = true
         ∧ (Walker.moveTimer w = 0 ∨ Walker.moveTimer w = 1))
    ∧ (0 < GameConfig.gridWidth (Game.config (mountedGame)) →
       0 < GameConfig.gridHeight (Game.config (mountedGame)) →
       walkersInBounds g0).
Proof.
  eexists. split; [reflexivity |].
  eapply (initGameDrawn_walkers fiveWalkerDraws (mountedGame)). reflexivity.
Defined.

(** ** The first tick of a match *)

Lemma initGame_wellFormed newWalkers g : wellFormed (initGame newWalkers g).
Proof.
  unfold wellFormed, initGame, initPlayers. simpl.
  eexists _, _, [], []. repeat split; simpl; auto.
Qed.

Lemma stepWalker_near pick width height w :
  Z.abs (Coordinate.x (Walker.position (stepWalker pick width height w))
         - Coordinate.x (Walker.position w)) <= 1.
Proof.
  destruct (stepWalker_spec pick width height w)
    as (_ & [(_ & _ & ->) | (_ & _ & ->)]); [| lia].
  destruct (getWalkerMove_spec pick (Walker.position w) width height ∅)
    as ([[Hn _] | ->] & _); [| lia].
  unfold neighbors in Hn.
  repeat (apply elem_of_cons in Hn as [-> | Hn]); simpl; try lia.
  inversion Hn.
Qed.

Lemma moveWalkers_near e width height walkers w' :
  w' ∈ moveWalkers e width height walkers →
  ∃ w, w ∈ walkers
       ∧ Z.abs (Coordinate.x (Walker.position w')
                - Coordinate.x (Walker.position w)) <= 1.
Proof.
  intros Hw. unfold moveWalkers in Hw.
  apply list_elem_of_lookup_1 in Hw as [j Hj].
  rewrite list_lookup_imap in Hj.
  destruct (walkers !! j) as [w0 |] eqn:Hw0; [| discriminate].
  simpl in Hj. injection Hj as <-.
  exists w0. split; [eapply list_elem_of_lookup_2, Hw0 | apply stepWalker_near].
Qed.

Lemma awayFromStarts_spec pos :
  awayFromStarts pos = true
  ↔ Z.abs (Coordinate.x pos - 10) > 5 ∧ Z.abs (Coordinate.x pos - 50) > 5.
Proof.
  unfold awayFromStarts, P1_START_POS, P2_START_POS. simpl.
  rewrite andb_true_iff, !Z.gtb_gt. reflexivity.
Qed.

Lemma elem_of_candidates d c :
  c ∈ candidates d ↔ c = d ∨ c = turnLeft d ∨ c = turnRight d.
Proof. unfold candidates. set_solver. Qed.

(** The cells a cycle at a start position can reach in one tick. *)
Lemma first_step_P1 d :
  d ∈ candidates RIGHT →
  getNextPosition P1_START_POS d = Coordinate.mk 11 20
  ∨ getNextPosition P1_START_POS d = Coordinate.mk 10 19
  ∨ getNextPosition P1_START_POS d = Coordinate.mk 10 21.
Proof.
  rewrite elem_of_candidates. intros [-> | [-> | ->]]; vm_compute; auto.
Qed.

Lemma first_step_P2 d :
  d ∈ candidates LEFT →
  getNextPosition P2_START_POS d = Coordinate.mk 49 20
  ∨ getNextPosition P2_START_POS d = Coordinate.mk 50 19
  ∨ getNextPosition P2_START_POS d = Coordinate.mk 50 21.
Proof.
  rewrite elem_of_candidates. intros [-> | [-> | ->]]; vm_compute; auto.
Qed.

Lemma initPlayers_obstacle mode c :
  isObstacle (initPlayers mode) c → c = P1_START_POS ∨ c = P2_START_POS.
Proof.
  intros (p & Hp & Hc). unfold initPlayers in Hp.
  repeat (apply elem_of_cons in Hp as [-> | Hp]); simpl in Hc.
  - left. destruct Hc as [-> | Hc]; [reflexivity |].
    apply list_elem_of_singleton in Hc. exact Hc.
  - right. destruct Hc as [-> | Hc]; [reflexivity |].
    apply list_elem_of_singleton in Hc. exact Hc.
  - inversion Hp.
Qed.

Lemma first_tick_heads e newWalkers g g' :
  updateGame e (initGame newWalkers g) = Some g' →
  ∃ s1 s2,
    Game.players g' = [s1; s2]
    ∧ (Player.head s1 = Coordinate.mk 11 20 ∨ Player.head s1 = Coordinate.mk 10 19
       ∨ Player.head s1 = Coordinate.mk 10 21)
    ∧ (Player.head s2 = Coordinate.mk 49 20 ∨ Player.head s2 = Coordinate.mk 50 19
       ∨ Player.head s2 = Coordinate.mk 50 21).
Proof.
  intros Hstep.
  destruct (updateGame_wellFormed e _ (initGame_wellFormed newWalkers g))
    as (g1 & Hg1 & _ & Hall).
  rewrite Hstep in Hg1. injection Hg1 as <-.
  change (Game.players (initGame newWalkers g)) with (initPlayers (Game.mode g))
    in Hall.
  unfold initPlayers in Hall.
  apply Forall2_cons_inv_l in Hall as (s1 & rest & Hd1 & Hall & Hps).
  apply Forall2_cons_inv_l in Hall as (s2 & rest' & Hd2 & Hall & ->).
  apply Forall2_nil_inv_l in Hall as ->.
  exists s1, s2. split; [exact Hps |].
  assert (Hl0 : Game.players (initGame newWalkers g) !! 0%nat
                = Some (newPlayer 1 "Player 1" P1_COLOR P1_START_POS RIGHT))
    by reflexivity.
  assert (Hl1 : Game.players (initGame newWalkers g) !! 1%nat
                = Some (newPlayer 2 (if decide (Game.mode g = PVE) then "CPU"
                                     else "Player 2") P2_COLOR P2_START_POS LEFT))
    by reflexivity.
  assert (Hs1 : Game.players g' !! 0%nat = Some s1) by (rewrite Hps; reflexivity).
  assert (Hs2 : Game.players g' !! 1%nat = Some s2) by (rewrite Hps; reflexivity).
  destruct (tick_head e (initGame newWalkers g) g' 0%nat _ s1 eq_refl Hstep Hl0 Hs1) as (_ & _ & Hm1).
  destruct (tick_head e (initGame newWalkers g) g' 1%nat _ s2 eq_refl Hstep Hl1 Hs2) as (_ & _ & Hm2).
  destruct (Hm1 eq_refl) as [-> _]. destruct (Hm2 eq_refl) as [-> _].
  split; [apply first_step_P1, Hd1 | apply first_step_P2, Hd2].
Qed.

Lemma first_tick_nobody_dies e draws g g0 g' :
  50 < GameConfig.gridWidth (Game.config g) →
  21 < GameConfig.gridHeight (Game.config g) →
  initGameDrawn draws g = Some g0 → updateGame e g0 = Some g' →
  ∀ p, p ∈ Game.players g' → Player.isDead p = false.
Proof.
  intros Hw Hh Hinit Hstep.
  destruct (initGameDrawn_walkers draws g g0 Hinit) as (_ & Haway & _).
  unfold initGameDrawn in Hinit.
  destruct (spawnWalkers _ _ _ _ _) as [[ws rest] |]; [| discriminate].
  simpl in Hinit. injection Hinit as <-.
  destruct (first_tick_heads e ws g g' Hstep) as (s1 & s2 & Hps & Hh1 & Hh2).
  assert (Hnd : NoDup (map Player.id (Game.players (initGame ws g))))
    by (apply NoDup_pair; discriminate).
  assert (Hcfg : Game.config (initGame ws g) = Game.config g) by reflexivity.
  assert (Hclear : ∀ s, s ∈ Game.players g' →
            checkCollision (Player.head s)
              (GameConfig.gridWidth (Game.config (initGame ws g)))
              (GameConfig.gridHeight (Game.config (initGame ws g)))
              (Game.players g') = true → False).
  { intros s Hs Hcc.
    assert (Hfalse : checkCollision (Player.head s)
                       (GameConfig.gridWidth (Game.config (initGame ws g)))
                       (GameConfig.gridHeight (Game.config (initGame ws g)))
                       (Game.players g') = false); [| congruence].
    apply checkCollision_false. rewrite Hcfg. split.
    - rewrite Hps in Hs. unfold inBounds.
      repeat (apply elem_of_cons in Hs as [-> | Hs]); [| | inversion Hs].
      + destruct Hh1 as [-> | [-> | ->]]; simpl; lia.
      + destruct Hh2 as [-> | [-> | ->]]; simpl; lia.
    - intros b' Hb' Hc.
      pose proof (tick_trail_cells e (initGame ws g) g' b' _ eq_refl Hstep Hb' Hc) as Hobs.
      apply initPlayers_obstacle in Hobs. rewrite Hps in Hs.
      unfold P1_START_POS, P2_START_POS in Hobs.
      repeat (apply elem_of_cons in Hs as [-> | Hs]); [| | inversion Hs].
      + destruct Hh1 as [Heq | [Heq | Heq]]; rewrite Heq in Hobs;
          destruct Hobs as [Hobs | Hobs]; discriminate.
      + destruct Hh2 as [Heq | [Heq | Heq]]; rewrite Heq in Hobs;
          destruct Hobs as [Hobs | Hobs]; discriminate. }
  assert (Hnowalker : ∀ s w', s ∈ Game.players g' → w' ∈ Game.walkers g' →
            Walker.position w' = Player.head s → False).
  { intros s w' Hs Hw' Hpos.
    destruct (tick_anatomy e (initGame ws g) g' eq_refl Hstep) as (_ & _ & _ & Hws & _).
    rewrite Hws in Hw'. apply moveWalkers_near in Hw' as (w & Hin & Hnear).
    destruct (Haway w Hin) as [Ha _]. apply awayFromStarts_spec in Ha.
    rewrite Hpos in Hnear. rewrite Hps in Hs.
    repeat (apply elem_of_cons in Hs as [-> | Hs]); [| | inversion Hs].
    + destruct Hh1 as [Heq | [Heq | Heq]]; rewrite Heq in Hnear; simpl in Hnear; lia.
    + destruct Hh2 as [Heq | [Heq | Heq]]; rewrite Heq in Hnear; simpl in Hnear; lia. }
  assert (Hapart : Player.head s1 ≠ Player.head s2).
  { destruct Hh1 as [-> | [-> | ->]], Hh2 as [-> | [-> | ->]]; discriminate. }
  intros p Hp. destruct (Player.isDead p) eqn:Hdead; [exfalso | reflexivity].
  apply list_elem_of_lookup_1 in Hp as [k Hk].
  destruct (proj2 (tick_lookup e (initGame ws g) g' k eq_refl Hstep)) as [a Ha]; [eauto |].
  assert (Halive : ∀ b, b ∈ Game.players (initGame ws g) → Player.isDead b = false).
  { intros b Hb. simpl in Hb. unfold initPlayers in Hb.
    repeat (apply elem_of_cons in Hb as [-> | Hb]); [reflexivity .. | inversion Hb]. }
  destruct (tick_death_cause e (initGame ws g) g' k a p eq_refl Hstep Hnd Ha
              (Halive a (list_elem_of_lookup_2 _ _ _ Ha)) Hk Hdead)
    as [Hcc | [(w' & Hw' & Hpos) | (j & b & b' & Hb & _ & Hb' & Hne & Hsame)]].
  - eapply Hclear; [eapply list_elem_of_lookup_2, Hk | exact Hcc].
  - eapply Hnowalker; [eapply list_elem_of_lookup_2, Hk | exact Hw' | exact Hpos].
  - assert (Hkj : k ≠ j) by (intros ->; rewrite Ha in Hb; congruence).
    rewrite Hps in Hk, Hb'.
    destruct k as [| [| k]], j as [| [| j]]; simpl in Hk, Hb'; try discriminate;
      try contradiction; injection Hk as <-; injection Hb' as <-; congruence.
Qed.

(** X21. The first tick of a new match kills nobody: in an arena of more than
    50 columns and more than 21 rows, after [initGame] with the walkers it
    draws, whatever the mode, the draws and the random source of the tick,
    both players are alive after one tick, the match is not over, there is no
    winner and the tallies are unchanged.  The start zones the walkers avoid
    are what makes it so. *)
Theorem first_tick_is_safe e draws g g0 g' :
  50 < GameConfig.gridWidth (Game.config g) →
  21 < GameConfig.gridHeight (Game.config g) →
  initGameDrawn draws g = Some g0 → updateGame e g0 = Some g' →
  (∀ p, p ∈ Game.players g' → Player.isDead p = false)
  ∧ Game.isGameOver g' = false ∧ Game.winner g' = None
  ∧ Game.scores g' = Game.scores g.
Proof.
  intros Hw Hh Hinit Hstep.
  pose proof (first_tick_nobody_dies e draws g g0 g' Hw Hh Hinit Hstep) as Hall.
  split; [exact Hall |].
  unfold initGameDrawn in Hinit.
  destruct (spawnWalkers _ _ _ _ _) as [[ws rest] |]; [| discriminate].
  simpl in Hinit. injection Hinit as <-.
  destruct (first_tick_heads e ws g g' Hstep) as (s1 & s2 & Hps & _).
  destruct (updateGame_running e (initGame ws g) g' eq_refl Hstep)
    as (players1 & queues & _ & Hg').
  pose proof (checkWin_spec (afterCollisions e (initGame ws g) players1 queues))
    as Hspec.
  destruct (checkWin_fields (afterCollisions e (initGame ws g) players1 queues))
    as (Hpl & _).
  rewrite <- Hg' in Hpl, Hspec. rewrite <- Hpl, Hps in Hspec.
  unfold alivePlayers in Hspec. simpl in Hspec.
  rewrite (Hall s1), (Hall s2) in Hspec by (rewrite Hps; set_solver).
  simpl in Hspec. rewrite Hspec. simpl. auto.
Qed.

Lemma first_tick_is_safe_witness :
  ∃ g0, initGameDrawn fiveWalkerDraws (mountedGame) = Some g0
    ∧ (∀ p, p ∈ Game.players (tickOf noEntropy g0) → Player.isDead p = false)
    ∧ Game.isGameOver (tickOf noEntropy g0) = false
    ∧ Game.winner (tickOf noEntropy g0) = None
    ∧ Game.scores (tickOf noEntropy g0) = Game.scores (mountedGame).
Proof.
  eexists. split; [reflexivity |].
  eapply (first_tick_is_safe noEntropy fiveWalkerDraws (mountedGame)).
  - reflexivity.
  - reflexivity.
  - reflexivity.
  - vm_compute. reflexivity.
Defined.

(** ** An agent that goes straight *)

(** A tick of a running match on a living agent that is not AI-controlled
    and has no turn pending. *)
Lemma straight_tick e g g' i p p' :
  Game.isGameOver g = false → updateGame e g = Some g' →
  NoDup (map Player.id (Game.players g)) →
  Game.players g !! i = Some p → Player.isDead p = false →
  isAI (Game.mode g) p = false →
  Game.inputQueue g !! Player.id p = Some [] →
  Game.players g' !! i = Some p' →
  Player.id p' = Player.id p ∧ Player.direction p' = Player.direction p
  ∧ Player.head p' = getNextPosition (Player.head p) (Player.direction p)
  ∧ Player.trail p' = Player.trail p ++ [Player.head p]
  ∧ Game.inputQueue g' !! Player.id p' = Some []
  ∧ Game.mode g' = Game.mode g ∧ Game.config g' = Game.config g
  ∧ NoDup (map Player.id (Game.players g')).
Proof.
  intros Hover Hstep Hnd Hp Halive Hai Hq Hp'.
  destruct (tick_facing e g g' i p [] p' Hover Hstep Hnd Hp Halive Hq Hp')
    as [Hdir Hq'].
  unfold facingAfterInputs in Hdir. rewrite Hai in Hdir. simpl in Hdir, Hq'.
  destruct (tick_head e g g' i p p' Hover Hstep Hp Hp') as (Hid & _ & Hmove).
  destruct (Hmove Halive) as [Hh Ht].
  destruct (tick_frame e g g' Hstep) as (Hcfg & Hmode & Hids & _).
  rewrite Hid, Hids. rewrite Hdir in Hh. auto 10.
Qed.

Lemma ticks_dead_stays es :
  ∀ g g' i p p', ticks es g = Some g' →
    Game.players g !! i = Some p → Player.isDead p = true →
    Game.players g' !! i = Some p' → Player.isDead p' = true.
Proof.
  induction es as [| e es IH]; intros g g' i p p' Hrun Hp Hdead Hp';
    simpl in Hrun.
  - injection Hrun as <-. congruence.
  - destruct (updateGame e g) as [g1 |] eqn:Hstep; [| discriminate].
    simpl in Hrun.
    destruct (tick_trail e g g1 i p Hstep Hp) as (p1 & Hp1 & _ & Hd & _).
    destruct (Hd Hdead) as (_ & _ & Hdead1).
    eapply IH; eassumption.
Qed.

Lemma ticks_running es g g' :
  ticks es g = Some g' → Game.isGameOver g' = false → Game.isGameOver g = false.
Proof.
  intros Hrun Hover'. destruct (Game.isGameOver g) eqn:Hover; [| reflexivity].
  rewrite (ticks_over es g Hover) in Hrun. injection Hrun as <-. congruence.
Qed.

(** A run of ticks that leaves the match running and the agent alive has
    moved it straight, one cell a tick. *)
Lemma straight_run es :
  ∀ g g' i p p',
    ticks es g = Some g' → Game.isGameOver g' = false →
    NoDup (map Player.id (Game.players g)) →
    Game.players g !! i = Some p → Player.isDead p = false →
    isAI (Game.mode g) p = false →
    Game.inputQueue g !! Player.id p = Some [] →
    Game.players g' !! i = Some p' → Player.isDead p' = false →
    Player.id p' = Player.id p ∧ Player.direction p' = Player.direction p
    ∧ Player.head p' = advance (length es) (Player.head p) (Player.direction p)
    ∧ Player.trail p'
      = Player.trail p ++ path (length es) (Player.head p) (Player.direction p)
    ∧ Game.inputQueue g' !! Player.id p' = Some []
    ∧ Game.mode g' = Game.mode g ∧ Game.config g' = Game.config g
    ∧ NoDup (map Player.id (Game.players g')).
Proof.
  induction es as [| e es IH];
    intros g g' i p p' Hrun Hover' Hnd Hp Halive Hai Hq Hp' Halive';
    simpl in Hrun.
  - injection Hrun as <-. rewrite Hp in Hp'. injection Hp' as <-.
    simpl. rewrite app_nil_r. auto 10.
  - destruct (updateGame e g) as [g1 |] eqn:Hstep; [| discriminate].
    simpl in Hrun.
    assert (Hover : Game.isGameOver g = false).
    { apply (ticks_running (e :: es) g g'); [| exact Hover'].
      simpl. rewrite Hstep. exact Hrun. }
    destruct (proj1 (tick_lookup e g g1 i Hover Hstep)) as [p1 Hp1]; [eauto |].
    destruct (straight_tick e g g1 i p p1 Hover Hstep Hnd Hp Halive Hai Hq Hp1)
      as (Hid1 & Hdir1 & Hh1 & Ht1 & Hq1 & Hmode1 & Hcfg1 & Hnd1).
    assert (Halive1 : Player.isDead p1 = false).
    { destruct (Player.isDead p1) eqn:Hd1; [| reflexivity].
      pose proof (ticks_dead_stays es g1 g' i p1 p' Hrun Hp1 Hd1 Hp'). congruence. }
    assert (Hai1 : isAI (Game.mode g1) p1 = false).
    { unfold isAI in *. rewrite Hmode1, Hid1. exact Hai. }
    destruct (IH g1 g' i p1 p' Hrun Hover' Hnd1 Hp1 Halive1 Hai1 Hq1 Hp' Halive')
      as (Hid & Hdir & Hh & Ht & Hq' & Hmode & Hcfg & Hnd').
    simpl. rewrite <- Hh1, <- Hdir1.
    split; [congruence |]. split; [congruence |]. split; [exact Hh |].
    split; [rewrite Ht, Ht1, <- app_assoc; reflexivity |].
    split; [exact Hq' |]. split; [congruence |]. split; [congruence | exact Hnd'].
Qed.

(** A tick that leaves the match running leaves two players alive at least. *)
Lemma running_needs_two e g g' :
  Game.isGameOver g = false → updateGame e g = Some g' →
  Game.isGameOver g' = false →
  (2 <= length (alivePlayers (Game.players g')))%nat.
Proof.
  intros Hover Hstep Hover'.
  destruct (updateGame_running e g g' Hover Hstep) as (players1 & queues & _ & ->).
  pose proof (checkWin_spec (afterCollisions e g players1 queues)) as Hspec.
  destruct (checkWin_fields (afterCollisions e g players1 queues)) as (-> & _).
  destruct (alivePlayers _) as [| w [| w' rest]]; simpl; try lia.
  - destruct Hspec as (_ & _ & _ & H). congruence.
  - destruct Hspec as (_ & _ & _ & H). congruence.
Qed.

Lemma checkCollision_wall pos width height (players : list Player.t) :
  outOfBounds pos width height = true →
  checkCollision pos width height players = true.
Proof. intros H. unfold checkCollision. rewrite H. reflexivity. Qed.

(** C2, the claim as stated fails.  With the agent alone, as the claim has
    it, the first tick leaves exactly one agent alive and so ends the match
    with that agent as the winner: it is alive at (6,5) and no further tick
    takes place ([loop] returns at once), whether its trail starts empty or
    with the start cell.  With a second agent, both created as [initGame]
    creates agents, the five ticks take place and the agent dies at (10,5)
    with a trail of six cells, not five. *)
Lemma wall_scenario_not_as_stated :
  (updateGame noEntropy (soloGame [])
   = Some (tickOf noEntropy (soloGame []))
   ∧ Game.players (tickOf noEntropy (soloGame []))
     = [soloWinner [Coordinate.mk 5 5]]
   ∧ Game.isGameOver (tickOf noEntropy (soloGame [])) = true
   ∧ Game.status (tickOf noEntropy (soloGame [])) = GAME_OVER
   ∧ Game.winner (tickOf noEntropy (soloGame [])) = Some "Player 1"
   ∧ ∀ due e, loop due e (tickOf noEntropy (soloGame []))
              = Some (tickOf noEntropy (soloGame [])))
  ∧ (updateGame noEntropy (soloGame [Coordinate.mk 5 5])
     = Some (tickOf noEntropy (soloGame [Coordinate.mk 5 5]))
     ∧ Game.players (tickOf noEntropy (soloGame [Coordinate.mk 5 5]))
       = [soloWinner [Coordinate.mk 5 5; Coordinate.mk 5 5]]
     ∧ Game.isGameOver (tickOf noEntropy (soloGame [Coordinate.mk 5 5])) = true
     ∧ Game.status (tickOf noEntropy (soloGame [Coordinate.mk 5 5])) = GAME_OVER
     ∧ Game.winner (tickOf noEntropy (soloGame [Coordinate.mk 5 5]))
       = Some "Player 1"
     ∧ ∀ due e, loop due e (tickOf noEntropy (soloGame [Coordinate.mk 5 5]))
                = Some (tickOf noEntropy (soloGame [Coordinate.mk 5 5])))
  ∧ (ticks (replicate 4 noEntropy) pairGame
     = Some (afterTicks (replicate 4 noEntropy) pairGame)
     ∧ Game.isGameOver (afterTicks (replicate 4 noEntropy) pairGame) = false
     ∧ updateGame noEntropy (afterTicks (replicate 4 noEntropy) pairGame)
       = Some (afterTicks (replicate 5 noEntropy) pairGame)
     ∧ ∃ p1, Game.players (afterTicks (replicate 5 noEntropy) pairGame) !! 0%nat
             = Some p1
             ∧ Player.head p1 = Coordinate.mk 10 5
             ∧ Player.isDead p1 = true
             ∧ length (Player.trail p1) = 6%nat
             ∧ length (Player.trail p1) ≠ 5%nat).
Proof.
  assert (Hfrozen : ∀ g, Game.status g = GAME_OVER →
                         ∀ due e, loop due e g = Some g).
  { intros g Hst due e. unfold loop.
    rewrite bool_decide_eq_true_2 by (rewrite Hst; discriminate). reflexivity. }
  split; [| split].
  - split; [vm_compute; reflexivity |]. split; [vm_compute; reflexivity |].
    split; [vm_compute; reflexivity |]. split; [vm_compute; reflexivity |].
    split; [vm_compute; reflexivity |]. apply Hfrozen. vm_compute. reflexivity.
  - split; [vm_compute; reflexivity |]. split; [vm_compute; reflexivity |].
    split; [vm_compute; reflexivity |]. split; [vm_compute; reflexivity |].
    split; [vm_compute; reflexivity |]. apply Hfrozen. vm_compute. reflexivity.
  - split; [vm_compute; reflexivity |]. split; [vm_compute; reflexivity |].
    split; [vm_compute; reflexivity |].
    eexists. split; [vm_compute; reflexivity |].
    split; [reflexivity |]. split; [reflexivity |]. split; [reflexivity |].
    discriminate.
Qed.

(** C2 (as the code has it).  On the 10 x 10 grid, let a living agent that is
    not AI-controlled be at (5,5) facing right with no turn pending, the ids
    of the agents being pairwise distinct.  Whenever four ticks take place and
    leave the match running and the agent alive, which leaves a second agent
    alive too, the fifth tick puts its head at (10,5), out of bounds, and
    marks it dead; its trail is then the trail it started with followed by
    the five cells (5,5) to (9,5), five cells more. *)
Theorem wall_scenario e1 e2 e3 e4 e5 g g4 g5 i p p4 :
  GameConfig.gridWidth (Game.config g) = 10 →
  GameConfig.gridHeight (Game.config g) = 10 →
  NoDup (map Player.id (Game.players g)) →
  Game.players g !! i = Some p →
  Player.head p = Coordinate.mk 5 5 → Player.direction p = RIGHT →
  Player.isDead p = false → isAI (Game.mode g) p = false →
  Game.inputQueue g !! Player.id p = Some [] →
  ticks [e1; e2; e3; e4] g = Some g4 → Game.isGameOver g4 = false →
  Game.players g4 !! i = Some p4 → Player.isDead p4 = false →
  updateGame e5 g4 = Some g5 →
  (2 <= length (alivePlayers (Game.players g4)))%nat
  ∧ ∃ p5, Game.players g5 !! i = Some p5
          ∧ Player.head p5 = Coordinate.mk 10 5
          ∧ outOfBounds (Player.head p5) 10 10 = true
          ∧ Player.isDead p5 = true
          ∧ Player.trail p5
            = Player.trail p
              ++ [Coordinate.mk 5 5; Coordinate.mk 6 5; Coordinate.mk 7 5;
                  Coordinate.mk 8 5; Coordinate.mk 9 5]
          ∧ length (Player.trail p5) = (length (Player.trail p) + 5)%nat.
Proof.
  intros Hw Hh Hnd Hp Hhead Hdir Halive Hai Hq Hrun Hover4 Hp4 Halive4 Hstep.
  destruct (straight_run [e1; e2; e3; e4] g g4 i p p4 Hrun Hover4 Hnd Hp Halive
              Hai Hq Hp4 Halive4)
    as (Hid4 & Hdir4 & Hh4 & Ht4 & Hq4 & Hmode4 & Hcfg4 & Hnd4).
  rewrite Hhead, Hdir in Hh4, Ht4. simpl in Hh4, Ht4.
  split.
  - simpl in Hrun.
    destruct (updateGame e1 g) as [g1 |]; [| discriminate]. simpl in Hrun.
    destruct (updateGame e2 g1) as [g2 |]; [| discriminate]. simpl in Hrun.
    destruct (updateGame e3 g2) as [g3 |]; [| discriminate]. simpl in Hrun.
    destruct (updateGame e4 g3) as [g4' |] eqn:Hstep4; [| discriminate].
    simpl in Hrun. injection Hrun as ->.
    apply (running_needs_two e4 g3 g4); [| exact Hstep4 | exact Hover4].
    apply (ticks_running [e4] g3 g4); [| exact Hover4].
    simpl. rewrite Hstep4. reflexivity.
  - destruct (proj1 (tick_lookup e5 g4 g5 i Hover4 Hstep)) as [p5 Hp5]; [eauto |].
    assert (Hai4 : isAI (Game.mode g4) p4 = false).
    { unfold isAI in *. rewrite Hmode4, Hid4. exact Hai. }
    destruct (straight_tick e5 g4 g5 i p4 p5 Hover4 Hstep Hnd4 Hp4 Halive4 Hai4
                Hq4 Hp5)
      as (_ & _ & Hh5 & Ht5 & _).
    rewrite Hh4, Hdir4, Hdir in Hh5. simpl in Hh5.
    exists p5. split; [exact Hp5 |]. split; [exact Hh5 |].
    assert (Hout : outOfBounds (Player.head p5) 10 10 = true)
      by (rewrite Hh5; reflexivity).
    split; [exact Hout |]. split.
    + apply (tick_collision_kills e5 g4 g5 i p4 p5 Hover4 Hstep Hnd4 Hp4 Halive4 Hp5).
      left. apply checkCollision_wall. rewrite Hcfg4, Hw, Hh. exact Hout.
    + rewrite Ht5, Ht4, Hh4, <- app_assoc. simpl.
      split; [reflexivity |]. rewrite length_app. simpl. lia.
Qed.

Lemma wall_scenario_witness :
  (2 <= length (alivePlayers
                  (Game.players (afterTicks (replicate 4 noEntropy) pairGame))))%nat
  ∧ ∃ p5, Game.players (afterTicks (replicate 5 noEntropy) pairGame) !! 0%nat
          = Some p5
          ∧ Player.head p5 = Coordinate.mk 10 5
          ∧ outOfBounds (Player.head p5) 10 10 = true
          ∧ Player.isDead p5 = true
          ∧ Player.trail p5
            = [Coordinate.mk 5 5]
              ++ [Coordinate.mk 5 5; Coordinate.mk 6 5; Coordinate.mk 7 5;
                  Coordinate.mk 8 5; Coordinate.mk 9 5]
          ∧ length (Player.trail p5) = (1 + 5)%nat.
Proof.
  apply (wall_scenario noEntropy noEntropy noEntropy noEntropy noEntropy pairGame
           (afterTicks (replicate 4 noEntropy) pairGame)
           (afterTicks (replicate 5 noEntropy) pairGame) 0%nat
           (newPlayer 1 "Player 1" P1_COLOR (Coordinate.mk 5 5) RIGHT)
           (Player.mk 1 "Player 1" P1_COLOR (Coordinate.mk 9 5)
              [Coordinate.mk 5 5; Coordinate.mk 5 5; Coordinate.mk 6 5;
               Coordinate.mk 7 5; Coordinate.mk 8 5] RIGHT false 0)).
  - reflexivity.
  - reflexivity.
  - apply NoDup_pair. discriminate.
  - reflexivity.
  - reflexivity.
  - reflexivity.
  - reflexivity.
  - reflexivity.
  - reflexivity.
  - vm_compute. reflexivity.
  - vm_compute. reflexivity.
  - vm_compute. reflexivity.
  - reflexivity.
  - vm_compute. reflexivity.
Defined.

(** ** Step 1 in play *)


